(** * Spojovacka: the match-resolution engine of the swap variant

    A shallow embedding of the board logic of the match-3 game
    (grid store, run detector, special-piece planner, chain expander,
    cascade resolver, swap validator, special activation), followed by
    the properties of the specification that concern it.

    Modelling conventions.
    - Coordinates are JavaScript numbers that hold integers; they are
      modelled as [Z] (blast areas do produce negative coordinates).
    - [board] is an array of rows, [board[y][x]]; it is a list of lists of
      [option Piece], [None] standing for [null].  A read outside the
      arrays gives [undefined] in the source, which every reader treats
      like [null]; [getCell] returns [None] there.
    - A string key [cellKey(x, y)] is the text of the pair; it is modelled
      by the pair itself.
    - A JavaScript [Set] or [Map] iterates in insertion order; it is a
      list without repetition, grown at its end.
    - [Math.random] is an oracle [rand]: the k-th call of [randInt] reads
      [rand k]; [randInt n] reduces it into [0, n).  The calls of
      [Math.random] that only feed the animation (the start height of a
      new piece, the particles) are not calls of [randInt] and are not
      numbered by the oracle.
    - [await waitForStepAnimations()] only suspends; the animation state
      (visuals, particles, shake) does not influence the board and is
      left out.  An action runs from its start to its last statement. *)

From Stdlib Require Import ZArith Lia.
From stdpp Require Import base tactics numbers option list list_numbers.

Set Warnings "-clear-no-such-hyp".

Open Scope Z_scope.

(** ** Data model *)

Definition GRID : Z := 8.

(** [COLORS.length] *)
Definition COLORS_length : nat := 6.

Inductive PieceKind : Type := NORMAL | ROCKET | BOMB.

#[global] Instance PieceKind_eq_dec : EqDecision PieceKind.
Proof. solve_decision. Defined.

Record Piece : Type := mkPiece { id : nat; color : nat; kind : PieceKind }.

#[global] Instance Piece_eq_dec : EqDecision Piece.
Proof. solve_decision. Defined.

(** A cell [{x, y}]: first component the column [x], second the row [y]. *)
Abbreviation Cell := (Z * Z)%type.

Abbreviation Row := (list (option Piece)).
Abbreviation Board := (list (list (option Piece))).

Inductive Dir : Type := DirH | DirV.

(** [MatchSegment]: [{cells, color, dir}] *)
Record MatchSegment : Type :=
  mkSegment { cells : list Cell; seg_color : nat; dir : Dir }.

(** A value of the creation map: [{x, y, kind, color}], keyed by its cell. *)
Record Creation : Type :=
  mkCreation { cr_cell : Cell; cr_kind : PieceKind; cr_color : nat }.

(** An entry of [willClear]: [{x, y, id, color}]. *)
Record ClearItem : Type :=
  mkClearItem { ci_cell : Cell; ci_id : nat; ci_color : nat }.

Inductive Sfx : Type := SfxMatch | SfxBad | SfxRocket | SfxBomb | SfxSwap | SfxUi.

Inductive Hint : Type :=
  | HintNewGame | HintNoMatch | HintGood | HintRocketBoom | HintBombBoom.

(** The mutable globals of the script that the board logic reads or writes.
    [draws] counts the calls of [randInt] made so far; [sounds] is the list
    of [playSfx] tags emitted, latest last; [hint] the last [setHint]. *)
Record Game : Type := mkGame {
  board : Board;
  score : Z;
  isBusy : bool;
  nextId : nat;
  draws : nat;
  specialOrigin : option Cell;
  specialTarget : option Cell;
  hint : Hint;
  sounds : list Sfx
}.

Definition withBoard (g : Game) (b : Board) : Game :=
  mkGame b (score g) (isBusy g) (nextId g) (draws g)
         (specialOrigin g) (specialTarget g) (hint g) (sounds g).

Definition withScore (g : Game) (s : Z) : Game :=
  mkGame (board g) s (isBusy g) (nextId g) (draws g)
         (specialOrigin g) (specialTarget g) (hint g) (sounds g).

Definition withBusy (g : Game) (f : bool) : Game :=
  mkGame (board g) (score g) f (nextId g) (draws g)
         (specialOrigin g) (specialTarget g) (hint g) (sounds g).

Definition withHint (g : Game) (h : Hint) : Game :=
  mkGame (board g) (score g) (isBusy g) (nextId g) (draws g)
         (specialOrigin g) (specialTarget g) h (sounds g).

Definition playSfx (s : Sfx) (g : Game) : Game :=
  mkGame (board g) (score g) (isBusy g) (nextId g) (draws g)
         (specialOrigin g) (specialTarget g) (hint g) (sounds g ++ [s]).

Definition setHint (h : Hint) (g : Game) : Game := withHint g h.

(** ** Grid store *)

Definition isInBounds (x y : Z) : bool :=
  (0 <=? x) && (0 <=? y) && (x <? GRID) && (y <? GRID).

Definition inBoundsCell (c : Cell) : bool := isInBounds c.1 c.2.

Definition manhattan (a b : Cell) : Z :=
  Z.abs (a.1 - b.1) + Z.abs (a.2 - b.2).

(** [row[x]], with [undefined] and [null] both read as [None]. *)
Definition getRow (row : Row) (x : Z) : option Piece :=
  if x <? 0 then None else mjoin (row !! Z.to_nat x).

(** [board[y]?.[x]] *)
Definition getCell (b : Board) (x y : Z) : option Piece :=
  if y <? 0 then None
  else match b !! Z.to_nat y with
       | Some row => getRow row x
       | None => None
       end.

Definition getAt (b : Board) (c : Cell) : option Piece := getCell b c.1 c.2.

(** [board[y][x] = v].  Every such write of the source has its indices
    inside the arrays (guarded by [isInBounds] or by the loop bounds);
    outside them the model leaves the board as it is. *)
Definition setCell (b : Board) (x y : Z) (v : option Piece) : Board :=
  if (x <? 0) || (y <? 0) then b
  else match b !! Z.to_nat y with
       | Some row => <[Z.to_nat y := <[Z.to_nat x := v]> row]> b
       | None => b
       end.

Definition setAt (b : Board) (c : Cell) (v : option Piece) : Board :=
  setCell b c.1 c.2 v.

(** A board with [GRID] rows of [GRID] cells. *)
Definition boardShape (b : Board) : Prop :=
  length b = Z.to_nat GRID ∧ Forall (λ row, length row = Z.to_nat GRID) b.

Definition fullBoard (b : Board) : Prop :=
  ∀ x y, isInBounds x y = true → is_Some (getCell b x y).

(** [Set.has] and [Set.add] on a set of cell keys kept in insertion order. *)
Definition hasKey (s : list Cell) (k : Cell) : bool := bool_decide (k ∈ s).

Definition addKey (s : list Cell) (k : Cell) : list Cell :=
  if hasKey s k then s else s ++ [k].

(** ** Score *)

(** [setScore(v)]: [score = Math.max(0, Math.floor(v))] on an integer. *)
Definition setScore (v : Z) (g : Game) : Game := withScore g (Z.max 0 v).

(** [addScore(delta)]: nothing for [delta <= 0]. *)
Definition addScore (delta : Z) (g : Game) : Game :=
  if delta <=? 0 then g else setScore (score g + delta) g.

(** ** Pieces *)

(** [makePiece(color, kind)]: [{ id: nextId++, color, kind }]. *)
Definition makePiece (c : nat) (k : PieceKind) (g : Game) : Piece * Game :=
  (mkPiece (nextId g) c k,
   mkGame (board g) (score g) (isBusy g) (S (nextId g)) (draws g)
          (specialOrigin g) (specialTarget g) (hint g) (sounds g)).

(** ** Swapping and destroying cells *)

(** [swapCells(a, b)] *)
Definition swapCells (a b : Cell) (bd : Board) : Board :=
  let tmp := getAt bd a in
  let bd1 := setAt bd a (getAt bd b) in
  setAt bd1 b tmp.

(** [destroyCells(cells)]: the set [uniq] of in-bounds keys, then one
    visit per key. *)
Definition uniqKeys (cs : list Cell) : list Cell :=
  fold_left (λ uniq c, if inBoundsCell c then addKey uniq c else uniq) cs [].

Definition destroyStep (st : Board * nat) (k : Cell) : Board * nat :=
  let '(bd, destroyed) := st in
  if negb (inBoundsCell k) then st
  else match getAt bd k with
       | Some _ => (setAt bd k None, S destroyed)
       | None => st
       end.

Definition destroyCells (cs : list Cell) (bd : Board) : Board * nat :=
  fold_left destroyStep (uniqKeys cs) (bd, 0%nat).

(** ** Blast areas *)

(** [rocketArea(center)] *)
Definition rocketArea (center : Cell) : list Cell :=
  [ (center.1, center.2);
    (center.1 + 1, center.2);
    (center.1 - 1, center.2);
    (center.1, center.2 + 1);
    (center.1, center.2 - 1) ].

(** [bombArea(center)], with [r = 2]: rows [dy] outside, columns [dx]
    inside. *)
Definition bombArea (center : Cell) : list Cell :=
  let r := 2 in
  fold_left (λ out dy,
    fold_left (λ out dx,
      if dx * dx + dy * dy <=? r * r
      then out ++ [(center.1 + dx, center.2 + dy)] else out)
      (seqZ (- r) (2 * r + 1)) out)
    (seqZ (- r) (2 * r + 1)) [].

(** ** Run detector *)

(** The color under the scan index, [null] for an empty cell. *)
Definition colorAt (b : Board) (x y : Z) : option nat := color <$> getCell b x y.

(** One iteration of a scan loop over [i = 0 .. GRID] along a line whose
    i-th color is [getc i] and whose i-th cell is [mk i].  The state is
    [(runColor, runStart, segments)]. *)
Definition scanStep (getc : Z → option nat) (mk : Z → Cell) (d : Dir)
    (st : option nat * Z * list MatchSegment) (i : Z)
    : option nat * Z * list MatchSegment :=
  let '(runColor, runStart, segments) := st in
  let c := if i <? GRID then getc i else None in
  if bool_decide (c = runColor) then st
  else
    let segments' :=
      match runColor with
      | Some rc =>
          let len := i - runStart in
          if 3 <=? len
          then segments ++ [mkSegment (mk <$> seqZ runStart len) rc d]
          else segments
      | None => segments
      end in
    (c, i, segments').

Definition scanLine (getc : Z → option nat) (mk : Z → Cell) (d : Dir)
    (segments : list MatchSegment) : list MatchSegment :=
  (fold_left (scanStep getc mk d) (seqZ 0 (GRID + 1)) (None, 0, segments)).2.

(** The horizontal loops of [findMatchSegments]. *)
Definition scanRows (b : Board) (segments : list MatchSegment) : list MatchSegment :=
  fold_left (λ segs y, scanLine (λ x, colorAt b x y) (λ xx, (xx, y)) DirH segs)
            (seqZ 0 GRID) segments.

(** The vertical loops of [findMatchSegments]. *)
Definition scanCols (b : Board) (segments : list MatchSegment) : list MatchSegment :=
  fold_left (λ segs x, scanLine (λ y, colorAt b x y) (λ yy, (x, yy)) DirV segs)
            (seqZ 0 GRID) segments.

Definition findMatchSegments (b : Board) : list MatchSegment :=
  scanCols b (scanRows b []).

(** ** Special-piece planner *)

Definition isNormalAt (b : Board) (c : Cell) : bool :=
  match getAt b c with
  | Some p => bool_decide (kind p = NORMAL)
  | None => false
  end.

(** [prefer = preferredSwapCells ? [p[1], p[0]] : []] *)
Definition preferList (preferredSwapCells : option (Cell * Cell)) : list Cell :=
  match preferredSwapCells with
  | Some (origin, target) => [target; origin]
  | None => []
  end.

(** The cells of a run in the order the fallback loop visits them:
    [seg.cells[(mid + i) % len]] for [i = 0 .. len - 1]. *)
Definition midOrder (cs : list Cell) : list Cell :=
  let len := length cs in
  let mid := (len / 2)%nat in
  omap (λ i, cs !! ((mid + i) mod len)%nat) (seq 0 len).

(** The target cell chosen for one run. *)
Definition chooseTarget (b : Board) (prefer : list Cell) (cs : list Cell)
    : option Cell :=
  match find (λ pc, bool_decide (pc ∈ cs) && isNormalAt b pc) prefer with
  | Some pc => Some pc
  | None =>
      match find (λ pc, bool_decide (pc ∈ cs)) prefer with
      | Some pc => Some pc
      | None =>
          let mid := (length cs / 2)%nat in
          match find (isNormalAt b) (midOrder cs) with
          | Some c => Some c
          | None => match cs !! mid with
                    | Some c => Some c
                    | None => cs !! 0%nat
                    end
          end
      end
  end.

(** The body of the loop over the runs, up to the key of the map:
    nothing for a run shorter than 4. *)
Definition segmentCreation (b : Board) (prefer : list Cell) (seg : MatchSegment)
    : option Creation :=
  let len := length (cells seg) in
  if (len <? 4)%nat then None
  else
    let k := if (5 <=? len)%nat then BOMB else ROCKET in
    match chooseTarget b prefer (cells seg) with
    | Some target => Some (mkCreation target k (seg_color seg))
    | None => None
    end.

(** [out.get(k)] *)
Definition creationAt (out : list Creation) (k : Cell) : option Creation :=
  find (λ cr, bool_decide (cr_cell cr = k)) out.

(** [out.set(k, v)] for a key that is present: the entry keeps its place. *)
Definition replaceCreation (out : list Creation) (v : Creation) : list Creation :=
  (λ cr, if bool_decide (cr_cell cr = cr_cell v) then v else cr) <$> out.

(** The end of the loop body: a new key is added, a Rocket entry gives way
    to a Bomb, anything else is kept. *)
Definition mergeCreation (out : list Creation) (v : Creation) : list Creation :=
  match creationAt out (cr_cell v) with
  | None => out ++ [v]
  | Some existing =>
      if bool_decide (cr_kind existing = ROCKET) && bool_decide (cr_kind v = BOMB)
      then replaceCreation out v
      else out
  end.

Definition computeSpecialCreations (b : Board) (segments : list MatchSegment)
    (preferredSwapCells : option (Cell * Cell)) : list Creation :=
  let prefer := preferList preferredSwapCells in
  fold_left (λ out seg,
               match segmentCreation b prefer seg with
               | Some v => mergeCreation out v
               | None => out
               end) segments [].

(** ** Chain expander *)

(** The loop over the blast area of one exploding cell. *)
Definition blastStep (protectedKeys : list Cell) (st : list Cell * bool) (c : Cell)
    : list Cell * bool :=
  let '(clearKeys, changed) := st in
  if negb (inBoundsCell c) then st
  else if hasKey protectedKeys c then st
  else if hasKey clearKeys c then st
  else (clearKeys ++ [c], true).

(** The body of the loop over the snapshot [Array.from(clearKeys)]. *)
Definition explodeStep (b : Board) (protectedKeys : list Cell)
    (st : list Cell * bool) (k : Cell) : list Cell * bool :=
  if hasKey protectedKeys k then st
  else if negb (inBoundsCell k) then st
  else match getAt b k with
       | None => st
       | Some p =>
           match kind p with
           | NORMAL => st
           | ROCKET => fold_left (blastStep protectedKeys) (rocketArea k) st
           | BOMB => fold_left (blastStep protectedKeys) (bombArea k) st
           end
       end.

(** One turn of the [while (changed)] loop. *)
Definition sweep (b : Board) (protectedKeys : list Cell) (clearKeys : list Cell)
    : list Cell * bool :=
  fold_left (explodeStep b protectedKeys) clearKeys (clearKeys, false).

(** The [while (changed)] loop, at most [fuel] turns; [None] when the fuel
    is used up before a turn leaves [changed] false. *)
Fixpoint expandLoop (fuel : nat) (b : Board) (protectedKeys clearKeys : list Cell)
    : option (list Cell) :=
  match fuel with
  | O => None
  | S fuel' =>
      let '(clearKeys', changed) := sweep b protectedKeys clearKeys in
      if changed then expandLoop fuel' b protectedKeys clearKeys'
      else Some clearKeys'
  end.

(** Every turn but the last adds a cell of the grid, so [GRID * GRID + 1]
    turns are enough (lemma [expand_total]). *)
Definition expandWithSpecialExplosions (b : Board) (clearKeys protectedKeys : list Cell)
    : option (list Cell) :=
  expandLoop (S (Z.to_nat (GRID * GRID))) b protectedKeys clearKeys.

(** ** The parts of the engine that draw random colors *)

Section Engine.

(** The oracle behind [Math.random]. *)
Variable rand : nat → nat.

(** [randInt(n)]: [Math.floor(Math.random() * n)], a value of [0, n). *)
Definition randInt (n : nat) (g : Game) : nat * Game :=
  ((rand (draws g) mod n)%nat,
   mkGame (board g) (score g) (isBusy g) (nextId g) (S (draws g))
          (specialOrigin g) (specialTarget g) (hint g) (sounds g)).

(** *** Board factory *)

(** [if (p1 && p2 && p1.color === p2.color) forbid.add(p1.color)] *)
Definition forbidAdd (forbid : list nat) (p1 p2 : option Piece) : list nat :=
  match p1, p2 with
  | Some a, Some b =>
      if bool_decide (color a = color b)
      then (if bool_decide (color a ∈ forbid) then forbid else forbid ++ [color a])
      else forbid
  | _, _ => forbid
  end.

(** The set [forbid] for the cell [(x, y)], from the row under
    construction and the rows already pushed. *)
Definition forbidFor (b : Board) (row : Row) (x y : Z) : list nat :=
  let f1 := if 2 <=? x
            then forbidAdd [] (getRow row (x - 1)) (getRow row (x - 2))
            else [] in
  if 2 <=? y
  then forbidAdd f1 (getCell b x (y - 1)) (getCell b x (y - 2))
  else f1.

(** [while (forbid.has(color) && tries < 12)], [left] turns remaining. *)
Fixpoint retryColor (left : nat) (forbid : list nat) (c : nat) (g : Game)
    : nat * Game :=
  match left with
  | O => (c, g)
  | S left' =>
      if bool_decide (c ∈ forbid)
      then let '(c', g') := randInt COLORS_length g in retryColor left' forbid c' g'
      else (c, g)
  end.

Definition pickColor (forbid : list nat) (g : Game) : nat * Game :=
  let '(c, g1) := randInt COLORS_length g in
  if bool_decide (forbid = []) then (c, g1)
  else
    let '(c2, g2) := retryColor 12 forbid c g1 in
    if bool_decide (c2 ∈ forbid)
    then (* deterministic fallback *)
      (match find (λ c3, negb (bool_decide (c3 ∈ forbid))) (seq 0 COLORS_length) with
       | Some c3 => c3
       | None => c2
       end, g2)
    else (c2, g2).

Definition makeRow (b : Board) (y : Z) (g : Game) : Row * Game :=
  fold_left (λ '(row, g) x,
               let '(c, g1) := pickColor (forbidFor b row x y) g in
               let '(p, g2) := makePiece c NORMAL g1 in
               (row ++ [Some p], g2))
            (seqZ 0 GRID) ([], g).

(** [makeBoard()] *)
Definition makeBoard (g : Game) : Board * Game :=
  fold_left (λ '(b, g) y, let '(row, g1) := makeRow b y g in (b ++ [row], g1))
            (seqZ 0 GRID) ([], g).

(** *** Collapse and refill *)

Definition emptyBoard : Board :=
  replicate (Z.to_nat GRID) (replicate (Z.to_nat GRID) None).

(** The first inner loop: the pieces of column [x] of [bd], from the
    bottom row up, are written to [next] from the bottom row up. *)
Definition dropStep (bd : Board) (x : Z) (st : Board * Z) (y : Z) : Board * Z :=
  let '(next, writeY) := st in
  match getCell bd x y with
  | Some p => (setCell next x writeY (Some p), writeY - 1)
  | None => st
  end.

(** The second inner loop: a new piece of a random color for each cell
    from [writeY] up to the top row. *)
Definition fillStep (x : Z) (st : Board * Game) (y : Z) : Board * Game :=
  let '(next, g) := st in
  let '(c, g1) := randInt COLORS_length g in
  let '(pNew, g2) := makePiece c NORMAL g1 in
  (setCell next x y (Some pNew), g2).

Definition collapseColumn (bd : Board) (st : Board * Game) (x : Z) : Board * Game :=
  let '(next, g) := st in
  let '(next1, writeY) :=
    fold_left (dropStep bd x) (reverse (seqZ 0 GRID)) (next, GRID - 1) in
  fold_left (fillStep x) (reverse (seqZ 0 (writeY + 1))) (next1, g).

(** [collapseAndFillAnimated()] *)
Definition collapseAndFillAnimated (g : Game) : Game :=
  let '(next, g1) :=
    fold_left (collapseColumn (board g)) (seqZ 0 GRID) (emptyBoard, g) in
  withBoard g1 next.

(** *** Cascade resolver *)

(** The initial clear set of a pass: the cells of all runs that are not
    protected. *)
Definition clearKeysOfSegments (segments : list MatchSegment)
    (protectedKeys : list Cell) : list Cell :=
  fold_left (λ clearKeys seg,
               fold_left (λ clearKeys c,
                            if hasKey protectedKeys c then clearKeys
                            else addKey clearKeys c)
                         (cells seg) clearKeys)
            segments [].

(** [willClear]: the occupied in-bounds cells of a list of keys. *)
Definition willClearOf (b : Board) (keys : list Cell) : list ClearItem :=
  omap (λ k, if negb (inBoundsCell k) then None
             else match getAt b k with
                  | Some p => Some (mkClearItem k (id p) (color p))
                  | None => None
                  end) keys.

(** [for (const c of willClear) if (isInBounds(c.x, c.y)) board[c.y][c.x] = null] *)
Definition applyClear (willClear : list ClearItem) (b : Board) : Board :=
  fold_left (λ b c, if inBoundsCell (ci_cell c) then setAt b (ci_cell c) None else b)
            willClear b.

(** The loop that puts the new special pieces on the board. *)
Definition applyCreations (creations : list Creation) (g : Game) : Game :=
  fold_left (λ g cr,
               if negb (inBoundsCell (cr_cell cr)) then g
               else let '(np, g1) := makePiece (cr_color cr) (cr_kind cr) g in
                    withBoard g1 (setAt (board g1) (cr_cell cr) (Some np)))
            creations g.

(** How one turn of the loop of [resolveMatchesAnimated] ends: by a
    [break], or at the bottom of the loop body. *)
Inductive PassResult : Type :=
  | PassBreak (g : Game)
  | PassAgain (g : Game).

Definition resolvePass (preferredSwapCells : option (Cell * Cell)) (g : Game)
    : option PassResult :=
  let segments := findMatchSegments (board g) in
  if bool_decide (length segments = 0%nat) then Some (PassBreak g)
  else
    let creations := computeSpecialCreations (board g) segments preferredSwapCells in
    let protectedKeys := cr_cell <$> creations in
    let clearKeys0 := clearKeysOfSegments segments protectedKeys in
    match expandWithSpecialExplosions (board g) clearKeys0 protectedKeys with
    | None => None
    | Some clearKeys =>
        let willClear := willClearOf (board g) clearKeys in
        if bool_decide (length willClear = 0%nat) then Some (PassBreak g)
        else
          let g1 := playSfx SfxMatch g in
          let g2 := withBoard g1 (applyClear willClear (board g1)) in
          let g3 := addScore (Z.of_nat (length willClear)) g2 in
          let g4 := applyCreations creations g3 in
          Some (PassAgain (collapseAndFillAnimated g4))
    end.

(** [resolveMatchesAnimated(preferredSwapCells)]: the [while (true)] loop,
    at most [fuel] turns; [None] when the fuel is used up. *)
Fixpoint resolveMatchesAnimated (fuel : nat)
    (preferredSwapCells : option (Cell * Cell)) (g : Game) : option Game :=
  match fuel with
  | O => None
  | S fuel' =>
      match resolvePass preferredSwapCells g with
      | None => None
      | Some (PassBreak g') => Some g'
      | Some (PassAgain g') => resolveMatchesAnimated fuel' None g'
      end
  end.

(** *** Swap validator *)

(** [attemptSwap(origin, target)]; the cascade gets [fuel] turns. *)
Definition attemptSwap (fuel : nat) (origin target : Cell) (g : Game)
    : option Game :=
  if isBusy g then Some g
  else if negb (inBoundsCell origin) || negb (inBoundsCell target) then Some g
  else if negb (manhattan origin target =? 1) then Some g
  else
    match getAt (board g) origin, getAt (board g) target with
    | Some a, Some b =>
        let g1 := withBusy g true in
        let g2 := withBoard g1 (swapCells origin target (board g1)) in
        let g3 := playSfx SfxSwap g2 in
        let segments := findMatchSegments (board g3) in
        if bool_decide (length segments = 0%nat) then
          let g4 := withBoard g3 (swapCells origin target (board g3)) in
          let g5 := playSfx SfxBad g4 in
          let g6 := setHint HintNoMatch g5 in
          Some (withBusy g6 false)
        else
          let g4 := setHint HintGood g3 in
          match resolveMatchesAnimated fuel (Some (origin, target)) g4 with
          | Some g5 => Some (withBusy g5 false)
          | None => None
          end
    | _, _ => Some g
    end.

(** *** Special-piece activation *)

(** The blast list of [detonateSpecial]: the area around the center,
    then the cell of the activated piece once more. *)
Definition detonateArea (p : Piece) (origin : Cell) (target : option Cell)
    : list Cell :=
  let center := match kind p, target with
                | ROCKET, Some t => t
                | _, _ => origin
                end in
  let area := match kind p with
              | ROCKET => rocketArea center
              | BOMB => bombArea center
              | NORMAL => []
              end in
  area ++ [origin].

(** [detonateSpecial()] up to the commit of the clear and of the score
    (the first statements of the [then] callback); [None] when one of the
    guards returns early. *)
Definition detonateClear (g : Game) : option Game :=
  if isBusy g then None
  else
    match specialOrigin g with
    | None => None
    | Some origin =>
        match getAt (board g) origin with
        | None => None
        | Some p =>
            if bool_decide (kind p = NORMAL) then None
            else
              let g1 := withBusy g true in
              let willClear :=
                willClearOf (board g1) (detonateArea p origin (specialTarget g1)) in
              let g2 := playSfx (if bool_decide (kind p = ROCKET)
                                 then SfxRocket else SfxBomb) g1 in
              let g3 := setHint (if bool_decide (kind p = ROCKET)
                                 then HintRocketBoom else HintBombBoom) g2 in
              let g4 := withBoard g3 (applyClear willClear (board g3)) in
              Some (if bool_decide (0 < length willClear)%nat
                    then addScore (Z.of_nat (length willClear)) g4 else g4)
        end
    end.

(** [detonateSpecial()]; the cascade that follows gets [fuel] turns. *)
Definition detonateSpecial (fuel : nat) (g : Game) : option Game :=
  match detonateClear g with
  | None => Some g
  | Some g5 =>
      let g6 := collapseAndFillAnimated g5 in
      match resolveMatchesAnimated fuel None g6 with
      | Some g7 => Some (withBusy g7 false)
      | None => None
      end
  end.

(** *** New game and selection *)

(** [clearSelection()], on the part of the input state that is modelled. *)
Definition clearSelection (g : Game) : Game :=
  mkGame (board g) (score g) (isBusy g) (nextId g) (draws g)
         None None (hint g) (sounds g).

(** [newGame()] *)
Definition newGame (g : Game) : Game :=
  let '(b, g1) := makeBoard g in
  let g2 := withBoard g1 b in
  let g3 := setScore 0 g2 in
  let g4 := withBusy g3 false in
  setHint HintNewGame (clearSelection g4).

(** What the pointer handlers leave in [specialOrigin] and [specialTarget]
    before [finishPointer] calls [detonateSpecial]. *)
Definition selectSpecial (origin : Cell) (target : option Cell) (g : Game) : Game :=
  mkGame (board g) (score g) (isBusy g) (nextId g) (draws g)
         (Some origin) target (hint g) (sounds g).

End Engine.

(** ** Notions used to state the properties *)

(** The cells of the grid, row by row. *)
Definition allCells : list Cell :=
  y ← seqZ 0 GRID; (λ x, (x, y)) <$> seqZ 0 GRID.

(** The cells that hold a piece in [b] and are empty in [b']. *)
Definition emptiedCells (b b' : Board) : list Cell :=
  filter (λ c, is_Some (getAt b c) ∧ getAt b' c = None) allCells.

(** The number of pieces on the grid. *)
Definition pieceCount (b : Board) : nat :=
  length (filter (λ c, is_Some (getAt b c)) allCells).

(** A board of normal pieces from its colors, ids counted from 1 row by
    row; used for concrete positions. *)
Definition boardOfColors (rows : list (list nat)) : Board :=
  imap (λ y row, imap (λ x c, Some (mkPiece (y * 8 + x + 1) c NORMAL)) row) rows.

(** The piece at [c] is given another kind (same id and color). *)
Definition withKind (k : PieceKind) (c : Cell) (b : Board) : Board :=
  match getAt b c with
  | Some p => setAt b c (Some (mkPiece (id p) (color p) k))
  | None => b
  end.

(** A board without runs: [color (x, y) = (x + 2 y) mod 6]. *)
Definition quietBoard : Board :=
  boardOfColors
    [ [0; 1; 2; 3; 4; 5; 0; 1]; [2; 3; 4; 5; 0; 1; 2; 3];
      [4; 5; 0; 1; 2; 3; 4; 5]; [0; 1; 2; 3; 4; 5; 0; 1];
      [2; 3; 4; 5; 0; 1; 2; 3]; [4; 5; 0; 1; 2; 3; 4; 5];
      [0; 1; 2; 3; 4; 5; 0; 1]; [2; 3; 4; 5; 0; 1; 2; 3] ]%nat.

Definition gameOf (b : Board) : Game :=
  mkGame b 0 false 65 0 None None HintNewGame [].

(** The offsets of the bomb blast, in the order [bombArea] lists them. *)
Definition bombOffsets : list Cell :=
  [ (0, -2); (-1, -1); (0, -1); (1, -1); (-2, 0); (-1, 0); (0, 0); (1, 0);
    (2, 0); (-1, 1); (0, 1); (1, 1); (0, 2) ].

(** The quiet board with a Bomb at (3, 3), selected for activation. *)
Definition bombGame : Game :=
  mkGame (withKind BOMB (3, 3) quietBoard) 0 false 65 0 (Some (3, 3)) None
         HintNewGame [].

(** The reading of "the nearest Normal-kind cell to the middle" that the
    planner is compared with: [t] is a cell of the run that holds a
    normal piece, and no cell of the run that holds a normal piece has an
    index closer to the middle index. *)
Definition nearestNormalToMiddle (b : Board) (cs : list Cell) (t : Cell) : Prop :=
  let mid := Z.of_nat (length cs / 2) in
  ∃ i : nat, cs !! i = Some t ∧ isNormalAt b t = true ∧
    ∀ (j : nat) c, cs !! j = Some c → isNormalAt b c = true →
                   Z.abs (Z.of_nat i - mid) ≤ Z.abs (Z.of_nat j - mid).

(** A board whose only run is the row-0 run of color 0 over the columns 0
    to 3, the pieces at (2, 0) and (3, 0) being Rockets. *)
Definition rocketsInRunBoard : Board :=
  withKind ROCKET (3, 0) (withKind ROCKET (2, 0)
    (boardOfColors
      [ [0; 0; 0; 0; 4; 5; 0; 1]; [2; 3; 4; 5; 0; 1; 2; 3];
        [4; 5; 0; 1; 2; 3; 4; 5]; [0; 1; 2; 3; 4; 5; 0; 1];
        [2; 3; 4; 5; 0; 1; 2; 3]; [4; 5; 0; 1; 2; 3; 4; 5];
        [0; 1; 2; 3; 4; 5; 0; 1]; [2; 3; 4; 5; 0; 1; 2; 3] ]%nat)).

(** The states in which the game rests between two player actions: the
    state after [newGame] (also the state after the page is loaded), and
    every state reached from a resting state by a completed action. *)
Inductive resting (rand : nat → nat) : Game → Prop :=
  | resting_newGame g :
      resting rand (newGame rand g)
  | resting_attemptSwap g fuel origin target g' :
      resting rand g → attemptSwap rand fuel origin target g = Some g' →
      resting rand g'
  | resting_selectSpecial g origin target :
      resting rand g → resting rand (selectSpecial origin target g)
  | resting_clearSelection g :
      resting rand g → resting rand (clearSelection g)
  | resting_detonateSpecial g fuel g' :
      resting rand g → detonateSpecial rand fuel g = Some g' →
      resting rand g'
  | resting_setScore g v :
      resting rand g → resting rand (setScore v g).

(** A board whose only run is the column-0 run of color 0 over the rows
    0 to 2; the three pieces of the run have the ids [k], [k + 1] and
    [k + 2] from the bottom up. *)
Definition loopBase : Board :=
  boardOfColors
    [ [0; 2; 3; 4; 5; 0; 1; 2]; [0; 4; 5; 0; 1; 2; 3; 4];
      [0; 0; 1; 2; 3; 4; 5; 0]; [1; 2; 3; 4; 5; 0; 1; 2];
      [3; 4; 5; 0; 1; 2; 3; 4]; [5; 0; 1; 2; 3; 4; 5; 0];
      [1; 2; 3; 4; 5; 0; 1; 2]; [3; 4; 5; 0; 1; 2; 3; 4] ]%nat.

Definition loopBoard (k : nat) : Board :=
  setAt (setAt (setAt loopBase (0, 2) (Some (mkPiece k 0 NORMAL)))
               (0, 1) (Some (mkPiece (S k) 0 NORMAL)))
        (0, 0) (Some (mkPiece (S (S k)) 0 NORMAL)).

Definition loopGame (k d : nat) (sc : Z) (busy : bool) (h : Hint) (snd : list Sfx)
    : Game :=
  mkGame (loopBoard k) sc busy (S (S (S k))) d None None h snd.

(** A board without runs on which the swap of (2, 1) with (2, 0) makes a
    run of four in row 0. *)
Definition swapBoard : Board :=
  boardOfColors
    [ [0; 0; 1; 0; 4; 5; 0; 1]; [2; 3; 0; 5; 0; 1; 2; 3];
      [4; 5; 0; 1; 2; 3; 4; 5]; [0; 1; 2; 3; 4; 5; 0; 1];
      [2; 3; 4; 5; 0; 1; 2; 3]; [4; 5; 0; 1; 2; 3; 4; 5];
      [0; 1; 2; 3; 4; 5; 0; 1]; [2; 3; 4; 5; 0; 1; 2; 3] ]%nat.

(** Two oracles: every draw is 0; the k-th draw is k. *)
Definition zeroRand : nat → nat := λ _, 0%nat.
Definition countRand : nat → nat := λ n, n.

(** ** Notions used in the proofs *)

(** The indices [(x, y)] lie inside the arrays of [b]. *)
Definition inRange (b : Board) (x y : Z) : Prop :=
  0 ≤ x ∧ 0 ≤ y ∧
  ∃ row, b !! Z.to_nat y = Some row ∧ (Z.to_nat x < length row)%nat.

(** The lengths of the rows. *)
Definition shapeOf (b : Board) : list nat := length <$> b.

(** The predicate that selects the entries of [willClear]. *)
Definition clearable (b : Board) (k : Cell) : Prop :=
  inBoundsCell k = true ∧ is_Some (getAt b k).

#[global] Instance clearable_dec b k : Decision (clearable b k) | 100.
Proof. unfold clearable. apply _. Defined.

(** The number of cells of the grid that are not in the clear set. *)
Definition missing (clear : list Cell) : nat :=
  length (filter (λ c, c ∉ clear) allCells).

Section ExpansionNotions.

Variable prot : list Cell.

(** [st'] extends [st]: the clear set has grown at its end by distinct
    in-bounds cells that are neither protected nor already present, and
    [changed] has been raised exactly if a cell was added. *)
Definition extends (st st' : list Cell * bool) : Prop :=
  ∃ added,
    st'.1 = st.1 ++ added ∧
    Forall (λ c, inBoundsCell c = true ∧ (c ∉ prot) ∧ (c ∉ st.1)) added ∧
    NoDup added ∧
    st'.2 = st.2 || negb (bool_decide (added = [])).

End ExpansionNotions.

Section ScanNotions.

Variable getc : Z → option nat.
Variable mk : Z → Cell.
Variable d : Dir.

(** The color the scan reads at index [j]. *)
Definition scanColor (j : Z) : option nat := if j <? GRID then getc j else None.

(** A run [(start, length, color)] emitted before the scan reached
    [bound]. *)
Definition validRun (bound : Z) (r : Z * Z * nat) : Prop :=
  let '(s, len, c) := r in
  0 ≤ s ∧ 3 ≤ len ∧ s + len ≤ bound ∧ ∀ j, s ≤ j < s + len → scanColor j = Some c.

Definition segmentOfRun (r : Z * Z * nat) : MatchSegment :=
  let '(s, len, c) := r in mkSegment (mk <$> seqZ s len) c d.

Definition runIndices (runs : list (Z * Z * nat)) : list Z :=
  runs ≫= (λ r, seqZ r.1.1 r.1.2).

(** The state of the scan loop before index [i]. *)
Definition scanInv (segs0 : list MatchSegment) (i : Z)
    (st : option nat * Z * list MatchSegment) : Prop :=
  let '(runColor, runStart, segs) := st in
  0 ≤ runStart ≤ i ∧
  (∀ j, runStart ≤ j < i → scanColor j = runColor) ∧
  ∃ runs, segs = segs0 ++ (segmentOfRun <$> runs) ∧
          Forall (validRun runStart) runs ∧ NoDup (runIndices runs).

End ScanNotions.

Section LineNotions.

(** [getc k j] is the color at index [j] of line [k], [mk k j] its cell. *)
Variable getc : Z → Z → option nat.
Variable mk : Z → Z → Cell.
Variable d : Dir.

(** A segment that is a run of line [k]: at least 3 consecutive cells of
    the line, inside the grid, all of the color of the segment. *)
Definition lineRun (seg : MatchSegment) : Prop :=
  ∃ k s len c,
    0 ≤ k < GRID ∧ 0 ≤ s ∧ 3 ≤ len ∧ s + len ≤ GRID ∧
    seg = mkSegment (mk k <$> seqZ s len) c d ∧
    ∀ j, s ≤ j < s + len → getc k j = Some c.

End LineNotions.

(** A horizontal run of [b], and a vertical one. *)
Definition rowRun (b : Board) : MatchSegment → Prop :=
  lineRun (λ y x, colorAt b x y) (λ y x, (x, y)) DirH.

Definition colRun (b : Board) : MatchSegment → Prop :=
  lineRun (λ x y, colorAt b x y) (λ x y, (x, y)) DirV.

(** No three cells in a row or in a column that follow each other hold
    pieces of one color. *)
Definition noTriple (b : Board) : Prop :=
  (∀ x y k, colorAt b (x - 2) y = Some k → colorAt b (x - 1) y = Some k →
            colorAt b x y = Some k → False) ∧
  (∀ x y k, colorAt b x (y - 2) = Some k → colorAt b x (y - 1) = Some k →
            colorAt b x y = Some k → False).

(** The row under construction, above the rows [b] already pushed. *)
Definition rowInv (b : Board) (y : Z) (row : Row) : Prop :=
  (∀ i k, color <$> getRow row (i - 2) = Some k → color <$> getRow row (i - 1) = Some k →
          color <$> getRow row i = Some k → False) ∧
  (∀ i k, colorAt b i (y - 2) = Some k → colorAt b i (y - 1) = Some k →
          color <$> getRow row i = Some k → False).

Section PassNotions.

Variable rand : nat → nat.

(** The state at the bottom of a pass that clears [willClear] and
    creates [creations]. *)
Definition afterPass (g : Game) (willClear : list ClearItem)
    (creations : list Creation) : Game :=
  let g1 := playSfx SfxMatch g in
  let g2 := withBoard g1 (applyClear willClear (board g1)) in
  let g3 := addScore (Z.of_nat (length willClear)) g2 in
  collapseAndFillAnimated rand (applyCreations creations g3).

End PassNotions.

(** ** Notions used for the further properties *)

(** Column [x] of a board, from the top row to the bottom row, and the
    pieces it holds, in that order. *)
Definition column (b : Board) (x : Z) : list (option Piece) :=
  (λ y, getCell b x y) <$> seqZ 0 GRID.

Definition survivors (b : Board) (x : Z) : list Piece := omap (λ o, o) (column b x).

(** The number of empty cells of column [x], and of the columns left of
    column [x]. *)
Definition newInColumn (b : Board) (x : Z) : nat :=
  (Z.to_nat GRID - length (survivors b x))%nat.

Definition newBefore (b : Board) (x : Z) : nat :=
  sum_list_with (newInColumn b) (seqZ 0 x).

(** The k-th piece made from the counters of [g]: [makePiece(randInt(6))]
    after k such calls. *)
Definition refillPiece (rand : nat → nat) (g : Game) (k : nat) : Piece :=
  mkPiece (nextId g + k) (rand (draws g + k)%nat mod COLORS_length) NORMAL.

(** [g'] differs from [g] at most in the board and in the two counters. *)
Definition sameStatus (g g' : Game) : Prop :=
  score g' = score g ∧ isBusy g' = isBusy g ∧
  specialOrigin g' = specialOrigin g ∧ specialTarget g' = specialTarget g ∧
  hint g' = hint g ∧ sounds g' = sounds g.

(** The pieces on the board have pairwise distinct ids, all below [n]. *)
Definition distinctIds (b : Board) (n : nat) : Prop :=
  (∀ c p, getAt b c = Some p → (id p < n)%nat) ∧
  (∀ c c' p p', getAt b c = Some p → getAt b c' = Some p' → id p = id p' → c = c').

Section RunNotions.

(** The color at index [j] of a line and the cell at index [j]. *)
Variable getc : Z → option nat.
Variable mk : Z → Cell.
Variable d : Dir.

(** Three cells of the line that follow each other from index [j] hold
    pieces of color [c]. *)
Definition tripleAt (j : Z) (c : nat) : Prop :=
  getc j = Some c ∧ getc (j + 1) = Some c ∧ getc (j + 2) = Some c.

(** [seg] is a run of the line that cannot be extended: the cell before
    it and the cell after it, where the line has them, do not hold a
    piece of its color. *)
Definition maximalRun (seg : MatchSegment) : Prop :=
  ∃ s len c,
    seg = mkSegment (mk <$> seqZ s len) c d ∧
    0 ≤ s ∧ 3 ≤ len ∧ s + len ≤ GRID ∧
    (∀ j, s ≤ j < s + len → getc j = Some c) ∧
    (s = 0 ∨ getc (s - 1) ≠ Some c) ∧
    (s + len = GRID ∨ getc (s + len) ≠ Some c).

(** The three cells from index [j] lie in one segment of [segs], of the
    direction of the line and of color [c]. *)
Definition covered (segs : list MatchSegment) (j : Z) (c : nat) : Prop :=
  ∃ seg, seg ∈ segs ∧ dir seg = d ∧ seg_color seg = c ∧
         mk j ∈ cells seg ∧ mk (j + 1) ∈ cells seg ∧ mk (j + 2) ∈ cells seg.

End RunNotions.

(** No three cells of the grid that follow each other in a row or in a
    column hold pieces of one color. *)
Definition noTripleInGrid (b : Board) : Prop :=
  ∀ k j c, 0 ≤ k < GRID → 0 ≤ j → j + 2 < GRID →
    ¬ tripleAt (λ x, colorAt b x k) j c ∧ ¬ tripleAt (λ y, colorAt b k y) j c.

(** The cells the blast of the activated piece [p] is aimed at: the area
    around [target] for a Rocket that was given a target, around [origin]
    otherwise. *)
Definition blastOf (p : Piece) (origin : Cell) (target : option Cell) : list Cell :=
  match kind p with
  | NORMAL => []
  | ROCKET => rocketArea (match target with Some t => t | None => origin end)
  | BOMB => bombArea origin
  end.

(** Every piece on the board has one of the colors of [COLORS]. *)
Definition validColors (b : Board) : Prop :=
  ∀ c p, getAt b c = Some p → (color p < COLORS_length)%nat.

(** The blast area of the piece on cell [k]: empty for a Normal piece and
    for an empty cell. *)
Definition blastAt (b : Board) (k : Cell) : list Cell :=
  match getAt b k with
  | Some p => match kind p with
              | NORMAL => []
              | ROCKET => rocketArea k
              | BOMB => bombArea k
              end
  | None => []
  end.

(** The cells a chain reaction reaches from the clear set [clear0]: the
    cells of [clear0], and the unprotected in-bounds cells in the blast
    area of a piece on an unprotected in-bounds cell that is reached. *)
Inductive reached (b : Board) (prot clear0 : list Cell) : Cell → Prop :=
  | reached_start c :
      c ∈ clear0 → reached b prot clear0 c
  | reached_blast k c :
      reached b prot clear0 k → k ∉ prot → inBoundsCell k = true →
      c ∈ blastAt b k → inBoundsCell c = true → c ∉ prot →
      reached b prot clear0 c.

(** ** The collapse in place *)

Section InPlace.

Variable rand : nat → nat.

(** [collapseAndFill()], the variant of the collapse that rewrites
    [board] column by column instead of building a new one.  The first
    loop of a column collects its pieces from the bottom row up. *)
Definition collectStep (bd : Board) (x : Z) (col : list Piece) (y : Z) : list Piece :=
  match getCell bd x y with
  | Some p => col ++ [p]
  | None => col
  end.

(** [for (const p of col) { board[writeY][x] = p; writeY--; }] *)
Definition writeStep (x : Z) (st : Board * Z) (p : Piece) : Board * Z :=
  let '(bd, writeY) := st in (setCell bd x writeY (Some p), writeY - 1).

(** [board[y][x] = makePiece(randInt(COLORS.length), PIECE_KIND.NORMAL)] *)
Definition fillStepInPlace (x : Z) (g : Game) (y : Z) : Game :=
  let '(c, g1) := randInt rand COLORS_length g in
  let '(pNew, g2) := makePiece c NORMAL g1 in
  withBoard g2 (setCell (board g2) x y (Some pNew)).

Definition collapseColumnInPlace (g : Game) (x : Z) : Game :=
  let col := fold_left (collectStep (board g) x) (reverse (seqZ 0 GRID)) [] in
  let '(bd1, writeY) := fold_left (writeStep x) col (board g, GRID - 1) in
  fold_left (fillStepInPlace x) (reverse (seqZ 0 (writeY + 1))) (withBoard g bd1).

Definition collapseAndFill (g : Game) : Game :=
  fold_left collapseColumnInPlace (seqZ 0 GRID) g.

End InPlace.

(** ** A swap attempt interrupted at its first suspension *)

Section Interleaving.

Variable rand : nat → nat.

(** [attemptSwap] from its entry to its first [await]: the guards, the
    busy flag, the swap and its sound.  [None] when a guard returns, so
    that nothing is left to resume. *)
Definition attemptSwapStart (origin target : Cell) (g : Game) : option Game :=
  if isBusy g then None
  else if negb (inBoundsCell origin) || negb (inBoundsCell target) then None
  else if negb (manhattan origin target =? 1) then None
  else
    match getAt (board g) origin, getAt (board g) target with
    | Some a, Some b =>
        let g1 := withBusy g true in
        let g2 := withBoard g1 (swapCells origin target (board g1)) in
        Some (playSfx SfxSwap g2)
    | _, _ => None
    end.

(** [attemptSwap] from its first [await] to its end, on the globals as
    they are when it is resumed. *)
Definition attemptSwapResume (fuel : nat) (origin target : Cell) (g3 : Game)
    : option Game :=
  let segments := findMatchSegments (board g3) in
  if bool_decide (length segments = 0%nat) then
    let g4 := withBoard g3 (swapCells origin target (board g3)) in
    let g5 := playSfx SfxBad g4 in
    let g6 := setHint HintNoMatch g5 in
    Some (withBusy g6 false)
  else
    let g4 := setHint HintGood g3 in
    match resolveMatchesAnimated rand fuel (Some (origin, target)) g4 with
    | Some g5 => Some (withBusy g5 false)
    | None => None
    end.

(** The click handler of the New Game button:
    [playSfx("ui", 1); newGame();].  It does not look at [isBusy]. *)
Definition clickNewGame (g : Game) : Game := newGame rand (playSfx SfxUi g).

End Interleaving.

(** The colors of [swapBoard], row by row, and the oracle whose draws
    repeat a list of colors. *)
Definition swapColors : list nat :=
  [ 0; 0; 1; 0; 4; 5; 0; 1;  2; 3; 0; 5; 0; 1; 2; 3;
    4; 5; 0; 1; 2; 3; 4; 5;  0; 1; 2; 3; 4; 5; 0; 1;
    2; 3; 4; 5; 0; 1; 2; 3;  4; 5; 0; 1; 2; 3; 4; 5;
    0; 1; 2; 3; 4; 5; 0; 1;  2; 3; 4; 5; 0; 1; 2; 3 ]%nat.

Definition dealRand (colors : list nat) : nat → nat :=
  λ k, default 0%nat (colors !! (k mod length colors)%nat).

(** A board on which the row-2 run of color 0 over the columns 0 to 3 and
    the column-2 run of color 0 over the rows 0 to 4 cross at (2, 2), the
    middle cell of both. *)
Definition crossBoard : Board :=
  boardOfColors
    [ [0; 1; 0; 3; 4; 5; 0; 1]; [2; 3; 0; 5; 0; 1; 2; 3];
      [0; 0; 0; 0; 2; 3; 4; 5]; [0; 1; 0; 3; 4; 5; 0; 1];
      [2; 3; 0; 5; 0; 1; 2; 3]; [4; 5; 1; 1; 2; 3; 4; 5];
      [0; 1; 2; 3; 4; 5; 0; 1]; [2; 3; 4; 5; 0; 1; 2; 3] ]%nat.

(** * Properties *)

(** ** Grid store: reads after writes *)

Lemma isInBounds_spec x y :
  isInBounds x y = true ↔ 0 ≤ x < GRID ∧ 0 ≤ y < GRID.
Proof. unfold isInBounds. lia. Qed.

Lemma inBoundsCell_spec c :
  inBoundsCell c = true ↔ 0 ≤ c.1 < GRID ∧ 0 ≤ c.2 < GRID.
Proof. apply isInBounds_spec. Qed.

Lemma hasKey_true s k : hasKey s k = true ↔ k ∈ s.
Proof. unfold hasKey. apply bool_decide_eq_true. Qed.

Lemma hasKey_false s k : hasKey s k = false ↔ k ∉ s.
Proof. unfold hasKey. apply bool_decide_eq_false. Qed.

Lemma getCell_Some_inRange b x y p : getCell b x y = Some p → inRange b x y.
Proof.
  unfold getCell, getRow, inRange. intros H.
  destruct (Z.ltb_spec y 0); [done|].
  destruct (b !! Z.to_nat y) as [row|] eqn:Hrow; [|done].
  destruct (Z.ltb_spec x 0); [done|].
  destruct (row !! Z.to_nat x) as [o|] eqn:Hx; [|done].
  repeat split; [done..|]. exists row. split; [done|].
  by eapply lookup_lt_Some.
Qed.

Lemma shapeOf_setCell b x y v : shapeOf (setCell b x y v) = shapeOf b.
Proof.
  unfold setCell, shapeOf.
  destruct ((x <? 0) || (y <? 0)); [done|].
  destruct (b !! Z.to_nat y) as [row|] eqn:Hrow; [|done].
  rewrite list_fmap_insert, length_insert.
  apply list_insert_id. by rewrite list_lookup_fmap, Hrow.
Qed.

Lemma inRange_shape b b' x y :
  shapeOf b = shapeOf b' → inRange b x y → inRange b' x y.
Proof.
  unfold inRange, shapeOf. intros Hs (Hx & Hy & row & Hrow & Hlen).
  repeat split; [done..|].
  assert (Hl : (length <$> b) !! Z.to_nat y = Some (length row))
    by (by rewrite list_lookup_fmap, Hrow).
  rewrite Hs, list_lookup_fmap in Hl.
  destruct (b' !! Z.to_nat y) as [row'|]; [|done].
  exists row'. split; [done|]. simpl in Hl. injection Hl as Hl. lia.
Qed.

Lemma getCell_setCell_eq b x y v : inRange b x y → getCell (setCell b x y v) x y = v.
Proof.
  unfold inRange, getCell, getRow, setCell. intros (Hx & Hy & row & Hrow & Hlen).
  destruct (Z.ltb_spec x 0); [lia|]. destruct (Z.ltb_spec y 0); [lia|]. simpl.
  rewrite Hrow.
  rewrite list_lookup_insert_eq by (by eapply lookup_lt_Some).
  by rewrite list_lookup_insert_eq.
Qed.

Lemma getCell_setCell_ne b x y v x' y' :
  (x, y) ≠ (x', y') → getCell (setCell b x y v) x' y' = getCell b x' y'.
Proof.
  unfold getCell, getRow, setCell. intros Hne.
  destruct (Z.ltb_spec x 0); [done|]. destruct (Z.ltb_spec y 0); [done|]. simpl.
  destruct (b !! Z.to_nat y) as [row|] eqn:Hrow; [|done].
  destruct (Z.ltb_spec y' 0); [done|].
  destruct (decide (Z.to_nat y = Z.to_nat y')) as [Hyy|Hyy].
  - rewrite <- Hyy, Hrow.
    rewrite list_lookup_insert_eq by (by eapply lookup_lt_Some).
    destruct (Z.ltb_spec x' 0); [done|].
    rewrite list_lookup_insert_ne; [done|].
    intros Hxx. apply Hne. f_equal; lia.
  - by rewrite list_lookup_insert_ne.
Qed.

Lemma getAt_setAt_eq b c v : inRange b c.1 c.2 → getAt (setAt b c v) c = v.
Proof. apply getCell_setCell_eq. Qed.

Lemma getAt_setAt_ne b c v k : c ≠ k → getAt (setAt b c v) k = getAt b k.
Proof.
  intros Hne. apply getCell_setCell_ne. destruct c, k. simpl. congruence.
Qed.

Lemma shapeOf_setAt b c v : shapeOf (setAt b c v) = shapeOf b.
Proof. apply shapeOf_setCell. Qed.

(** Two boards of the same shape that agree on every read are equal. *)
Lemma board_ext (b b' : Board) :
  shapeOf b = shapeOf b' → (∀ x y, getCell b x y = getCell b' x y) → b = b'.
Proof.
  intros Hs Hget. apply list_eq. intros i.
  assert (Hi : (length <$> b) !! i = (length <$> b') !! i)
    by (unfold shapeOf in Hs; by rewrite Hs).
  rewrite !list_lookup_fmap in Hi.
  destruct (b !! i) as [r|] eqn:Hr, (b' !! i) as [r'|] eqn:Hr'; simplify_eq/=; [|done].
  f_equal. apply list_eq. intros j.
  specialize (Hget (Z.of_nat j) (Z.of_nat i)).
  unfold getCell, getRow in Hget.
  destruct (Z.ltb_spec (Z.of_nat i) 0); [lia|].
  destruct (Z.ltb_spec (Z.of_nat j) 0); [lia|].
  rewrite !Nat2Z.id, Hr, Hr' in Hget.
  destruct (decide (j < length r)%nat) as [Hj|Hj].
  - destruct (lookup_lt_is_Some_2 r j Hj) as [o Ho].
    assert (Hj' : (j < length r')%nat) by lia.
    destruct (lookup_lt_is_Some_2 r' j Hj') as [o' Ho'].
    rewrite Ho, Ho' in *. simpl in Hget. by rewrite Hget.
  - rewrite !lookup_ge_None_2 by lia. done.
Qed.

(** ** Swapping twice *)

Lemma getAt_swapCells b a c k :
  inRange b a.1 a.2 → inRange b c.1 c.2 →
  getAt (swapCells a c b) k =
    if decide (k = c) then getAt b a
    else if decide (k = a) then getAt b c else getAt b k.
Proof.
  intros Ha Hc. unfold swapCells.
  destruct (decide (k = c)) as [->|Hkc].
  - apply getAt_setAt_eq.
    eapply inRange_shape; [|exact Hc]. symmetry. apply shapeOf_setAt.
  - rewrite getAt_setAt_ne by done.
    destruct (decide (k = a)) as [->|Hka].
    + by apply getAt_setAt_eq.
    + by rewrite getAt_setAt_ne.
Qed.

Lemma shapeOf_swapCells b a c : shapeOf (swapCells a c b) = shapeOf b.
Proof. unfold swapCells. by rewrite !shapeOf_setAt. Qed.

Lemma swapCells_involutive b a c :
  inRange b a.1 a.2 → inRange b c.1 c.2 →
  swapCells a c (swapCells a c b) = b.
Proof.
  intros Ha Hc. apply board_ext.
  - by rewrite !shapeOf_swapCells.
  - intros x y. change (getCell ?b x y) with (getAt b (x, y)).
    assert (Ha' : inRange (swapCells a c b) a.1 a.2)
      by (eapply inRange_shape; [|exact Ha]; symmetry; apply shapeOf_swapCells).
    assert (Hc' : inRange (swapCells a c b) c.1 c.2)
      by (eapply inRange_shape; [|exact Hc]; symmetry; apply shapeOf_swapCells).
    rewrite getAt_swapCells by done.
    rewrite !getAt_swapCells by done.
    repeat case_decide; simplify_eq; done.
Qed.

(** ** Loops *)

(** The invariant rule for a [for ... of] loop written as a left fold:
    [P] relates the state to the part of the list already visited. *)
Lemma fold_left_inv {A B} (P : A → list B → Prop) (f : A → B → A) l a :
  P a [] →
  (∀ a pre x suf, l = pre ++ x :: suf → P a pre → P (f a x) (pre ++ [x])) →
  P (fold_left f l a) l.
Proof.
  intros H0 Hstep.
  assert (∀ pre suf, l = pre ++ suf → P (fold_left f pre a) pre) as Hgen.
  { induction pre as [|x pre IH] using rev_ind; intros suf Hl; [done|].
    rewrite fold_left_app. simpl. rewrite <- app_assoc in Hl.
    eapply Hstep; [exact Hl|]. by eapply IH. }
  apply (Hgen l []). by rewrite app_nil_r.
Qed.

(** ** C3: a swap without a run is undone *)

(** C3.  For a swap of two in-bounds cells at Manhattan distance 1 that
    both hold a piece, requested while no resolution is in progress: when
    the swapped board has no run, [attemptSwap] returns (whatever fuel
    the cascade is given), the board is again the board before the swap,
    cell for cell with the same pieces, the score is unchanged, and the
    no-match hint and the "bad" sound are emitted; the game is not busy
    afterwards. *)
Theorem attemptSwap_no_match_reverts rand fuel origin target g :
  isBusy g = false →
  inBoundsCell origin = true → inBoundsCell target = true →
  manhattan origin target = 1 →
  is_Some (getAt (board g) origin) → is_Some (getAt (board g) target) →
  findMatchSegments (swapCells origin target (board g)) = [] →
  ∃ g', attemptSwap rand fuel origin target g = Some g' ∧
        board g' = board g ∧ score g' = score g ∧
        hint g' = HintNoMatch ∧ sounds g' = sounds g ++ [SfxSwap; SfxBad] ∧
        isBusy g' = false ∧ nextId g' = nextId g.
Proof.
  intros Hbusy Ho Ht Hm [a Ha] [b Hb] Hseg.
  unfold attemptSwap. rewrite Hbusy, Ho, Ht. cbn [negb orb].
  rewrite Hm. change (negb (1 =? 1)) with false. cbv iota.
  rewrite Ha, Hb. cbn [board playSfx withBoard withBusy]. rewrite Hseg.
  rewrite bool_decide_eq_true_2 by done.
  eexists. split; [reflexivity|].
  cbn [board score hint sounds isBusy nextId playSfx withBoard withBusy setHint withHint].
  split; [|by rewrite <- app_assoc].
  apply swapCells_involutive; by eapply getCell_Some_inRange.
Qed.

Lemma attemptSwap_no_match_reverts_witness :
  ∃ g', attemptSwap (λ _, 0%nat) 0 (0, 0) (1, 0) (gameOf quietBoard) = Some g' ∧
        board g' = quietBoard ∧ score g' = 0 ∧
        hint g' = HintNoMatch ∧ sounds g' = [] ++ [SfxSwap; SfxBad] ∧
        isBusy g' = false ∧ nextId g' = 65%nat.
Proof.
  apply (attemptSwap_no_match_reverts (λ _, 0%nat) 0 (0, 0) (1, 0) (gameOf quietBoard));
    try reflexivity; vm_compute; eauto.
Defined.

(** ** The cells of the grid *)

Lemma elem_of_allCells c : c ∈ allCells ↔ inBoundsCell c = true.
Proof.
  unfold allCells. rewrite list_elem_of_bind, inBoundsCell_spec.
  setoid_rewrite elem_of_seqZ. setoid_rewrite list_elem_of_fmap.
  setoid_rewrite elem_of_seqZ. destruct c as [x y]. simpl. split.
  - intros (y' & (x' & Heq & Hx) & Hy). simplify_eq. lia.
  - intros [Hx Hy]. exists y. split; [|lia]. exists x. split; [done|lia].
Qed.

Lemma NoDup_allCells : NoDup allCells.
Proof. apply (bool_decide_unpack _). by vm_compute. Qed.

Lemma filter_ext_in {A} (P Q : A → Prop) `{∀ x, Decision (P x)} `{∀ x, Decision (Q x)}
    (l : list A) :
  (∀ x, x ∈ l → P x ↔ Q x) → filter P l = filter Q l.
Proof.
  induction l as [|x l IH]; intros Hpq; [done|].
  rewrite !filter_cons.
  assert (P x ↔ Q x) as Hx by (apply Hpq; left).
  rewrite IH by (intros; apply Hpq; by right).
  destruct (decide (P x)), (decide (Q x)); tauto.
Qed.

(** ** C10: [destroyCells] *)

Lemma addKey_spec s k k' : k' ∈ addKey s k ↔ k' ∈ s ∨ k' = k.
Proof.
  unfold addKey. destruct (hasKey s k) eqn:Hk.
  - apply hasKey_true in Hk. naive_solver.
  - rewrite elem_of_app, list_elem_of_singleton. done.
Qed.

Lemma NoDup_addKey s k : NoDup s → NoDup (addKey s k).
Proof.
  unfold addKey. destruct (hasKey s k) eqn:Hk; [done|].
  apply hasKey_false in Hk. intros Hs. apply NoDup_app.
  split; [done|]. split; [|apply NoDup_singleton].
  intros x Hx ->%list_elem_of_singleton. done.
Qed.

Lemma uniqKeys_spec cs :
  NoDup (uniqKeys cs) ∧
  ∀ k, k ∈ uniqKeys cs ↔ k ∈ cs ∧ inBoundsCell k = true.
Proof.
  unfold uniqKeys.
  apply (fold_left_inv
           (λ uniq pre, NoDup uniq ∧ ∀ k, k ∈ uniq ↔ k ∈ pre ∧ inBoundsCell k = true)).
  - split; [constructor|]. intros k. rewrite elem_of_nil. tauto.
  - intros uniq pre c suf _ [Hnd Hin].
    destruct (inBoundsCell c) eqn:Hc.
    + split; [by apply NoDup_addKey|]. intros k.
      rewrite addKey_spec, elem_of_app, list_elem_of_singleton, Hin.
      split; [intros [?| ->]; tauto|]. intros [[?| ->] ?]; tauto.
    + split; [done|]. intros k.
      rewrite elem_of_app, list_elem_of_singleton, Hin.
      split; [tauto|]. intros [[?| ->] ?]; [tauto|congruence].
Qed.

Lemma destroy_fold keys :
  NoDup keys → ∀ bd n,
  let r := fold_left destroyStep keys (bd, n) in
  (∀ k, getAt r.1 k =
        if bool_decide (k ∈ keys ∧ inBoundsCell k = true) then None else getAt bd k) ∧
  r.2 = (n + length (filter (λ k, inBoundsCell k = true ∧ is_Some (getAt bd k)) keys))%nat ∧
  shapeOf r.1 = shapeOf bd.
Proof.
  induction 1 as [|k0 ks Hk0 Hnd IH]; intros bd n; cbn zeta; cbn [fold_left].
  - simpl. split; [done|split; [lia|done]].
  - assert (∃ bd1 n1, destroyStep (bd, n) k0 = (bd1, n1) ∧
        shapeOf bd1 = shapeOf bd ∧
        (∀ k, k ≠ k0 → getAt bd1 k = getAt bd k) ∧
        (getAt bd1 k0 = if inBoundsCell k0 then None else getAt bd k0) ∧
        n1 = (n + if bool_decide (inBoundsCell k0 = true ∧ is_Some (getAt bd k0))
                  then 1 else 0)%nat) as (bd1 & n1 & Hstep & Hsh & Hne & Heq & Hn1).
    { unfold destroyStep. destruct (inBoundsCell k0) eqn:Hin; cbn [negb].
      - destruct (getAt bd k0) as [p|] eqn:Hp.
        + do 2 eexists. split; [done|]. split; [apply shapeOf_setAt|].
          split; [by intros; apply getAt_setAt_ne|].
          split; [apply getAt_setAt_eq; by eapply getCell_Some_inRange|].
          rewrite bool_decide_eq_true_2 by eauto. lia.
        + do 2 eexists. do 4 (split; [done|]).
          rewrite bool_decide_eq_false_2; [lia|]. intros [_ [? ?]]. done.
      - do 2 eexists. do 4 (split; [done|]).
        rewrite bool_decide_eq_false_2; [lia|]. intros [? _]. done. }
    rewrite Hstep. destruct (IH bd1 n1) as (Hget & Hcnt & Hshape).
    split; [|split].
    + intros k. rewrite Hget. destruct (decide (k = k0)) as [->|Hk].
      * rewrite (bool_decide_eq_false_2 (k0 ∈ ks ∧ _)) by tauto.
        rewrite Heq. destruct (inBoundsCell k0) eqn:Hin.
        -- rewrite bool_decide_eq_true_2; [done|]. split; [left|done].
        -- rewrite bool_decide_eq_false_2; [done|]. intros [_ ?]. done.
      * rewrite Hne by done.
        rewrite (bool_decide_ext (k ∈ ks ∧ inBoundsCell k = true)
                                 (k ∈ k0 :: ks ∧ inBoundsCell k = true)); [done|].
        rewrite elem_of_cons. intuition congruence.
    + rewrite Hcnt, Hn1, filter_cons.
      rewrite (filter_ext_in (λ k, inBoundsCell k = true ∧ is_Some (getAt bd1 k))
                             (λ k, inBoundsCell k = true ∧ is_Some (getAt bd k))).
      2:{ intros k Hk. rewrite Hne; [done|]. intros ->. done. }
      case_bool_decide; destruct (decide _); simpl; try tauto; lia.
    + by rewrite Hshape.
Qed.

(** C10.  [destroyCells] empties exactly the in-bounds cells that are
    listed (every other cell, and every out-of-bounds coordinate, is left
    alone), and the count it returns is the number of distinct in-bounds
    listed cells that held a piece: a cell listed twice counts once, an
    empty cell does not count.  That count is the number of cells of the
    grid that went from occupied to empty. *)
Theorem destroyCells_counts_changed_cells cs bd :
  let r := destroyCells cs bd in
  (∀ k, getAt r.1 k =
        if bool_decide (k ∈ cs ∧ inBoundsCell k = true) then None else getAt bd k) ∧
  r.2 = length (remove_dups
                  (filter (λ k, inBoundsCell k = true ∧ is_Some (getAt bd k)) cs)) ∧
  r.2 = length (emptiedCells bd r.1) ∧
  shapeOf r.1 = shapeOf bd.
Proof.
  destruct (uniqKeys_spec cs) as [Hnd Hin].
  destruct (destroy_fold (uniqKeys cs) Hnd bd 0) as (Hget & Hcnt & Hshape).
  unfold destroyCells. simpl.
  assert (Hget' : ∀ k, getAt (fold_left destroyStep (uniqKeys cs) (bd, 0%nat)).1 k =
      if bool_decide (k ∈ cs ∧ inBoundsCell k = true) then None else getAt bd k).
  { intros k. rewrite Hget.
    rewrite (bool_decide_ext (k ∈ uniqKeys cs ∧ inBoundsCell k = true)
                             (k ∈ cs ∧ inBoundsCell k = true)); [done|].
    rewrite Hin. tauto. }
  split; [exact Hget'|]. split; [|split; [|done]].
  - rewrite Hcnt. simpl. apply Permutation_length, NoDup_Permutation.
    + by apply NoDup_filter.
    + apply NoDup_remove_dups.
    + intros k. rewrite elem_of_remove_dups, !list_elem_of_filter, Hin. tauto.
  - rewrite Hcnt. simpl. apply Permutation_length, NoDup_Permutation.
    + by apply NoDup_filter.
    + apply NoDup_filter, NoDup_allCells.
    + intros k. unfold emptiedCells.
      rewrite !list_elem_of_filter, Hin, elem_of_allCells, Hget'.
      case_bool_decide as Hk.
      * tauto.
      * split; [tauto|]. intros [[[p Hp] Hnone] _]. congruence.
Qed.

(** ** Blast areas *)

Lemma bombArea_offsets center :
  bombArea center = (λ d, (center.1 + d.1, center.2 + d.2)) <$> bombOffsets.
Proof. reflexivity. Qed.

Lemma bombOffsets_disc :
  Forall (λ dx, Forall (λ dy, dx * dx + dy * dy ≤ 4 ↔ (dx, dy) ∈ bombOffsets)
                       (seqZ (-2) 5)) (seqZ (-2) 5).
Proof. apply (bool_decide_unpack _). by vm_compute. Qed.

Lemma elem_of_bombArea center c :
  c ∈ bombArea center ↔
  (c.1 - center.1) * (c.1 - center.1) + (c.2 - center.2) * (c.2 - center.2) ≤ 4.
Proof.
  rewrite bombArea_offsets, list_elem_of_fmap.
  pose proof bombOffsets_disc as Hd. rewrite Forall_seqZ in Hd.
  setoid_rewrite Forall_seqZ in Hd.
  destruct c as [x y], center as [cx cy]. simpl. split.
  - intros ([dx dy] & Heq & Hin). simpl in Heq. simplify_eq.
    assert (dx * dx + dy * dy ≤ 4) as Hle.
    { revert Hin. unfold bombOffsets. rewrite !elem_of_cons, elem_of_nil.
      intros Hin. repeat (destruct Hin as [Hin|Hin]; [simplify_eq; lia|]). done. }
    replace (cx + dx - cx) with dx by lia. replace (cy + dy - cy) with dy by lia.
    done.
  - intros Hle. exists (x - cx, y - cy). simpl. split; [f_equal; lia|].
    pose proof (Z.square_nonneg (x - cx)). pose proof (Z.square_nonneg (y - cy)).
    assert (-2 ≤ x - cx < -2 + 5) as Hx by nia.
    assert (-2 ≤ y - cy < -2 + 5) as Hy by nia.
    by apply (proj1 (Hd _ Hx _ Hy)).
Qed.

Lemma elem_of_rocketArea center c :
  c ∈ rocketArea center ↔
  Z.abs (c.1 - center.1) + Z.abs (c.2 - center.2) ≤ 1.
Proof.
  unfold rocketArea. rewrite !elem_of_cons, elem_of_nil.
  destruct c as [x y], center as [cx cy]. simpl. split.
  - intros H. repeat (destruct H as [H|H]; [simplify_eq; lia|]). done.
  - intros H.
    destruct (decide (x = cx)), (decide (y = cy)),
      (decide (x = cx + 1)), (decide (x = cx - 1)),
      (decide (y = cy + 1)), (decide (y = cy - 1)); subst; try lia;
      (repeat (first [left; reflexivity | right])).
Qed.

(** ** Committing a clear *)

Lemma willClearOf_cells b keys :
  ci_cell <$> willClearOf b keys = filter (clearable b) keys.
Proof.
  unfold willClearOf, clearable.
  induction keys as [|k keys IH]; [done|].
  rewrite filter_cons. rewrite <- IH. clear IH.
  destruct (decide _) as [[Hin [p Hp]]|Hn]; simpl.
  - by rewrite Hin, Hp.
  - destruct (inBoundsCell k) eqn:Hin; simpl; [|done].
    destruct (getAt b k) as [p|] eqn:Hp; simpl; [|done].
    exfalso. apply Hn. eauto.
Qed.

Lemma length_willClearOf b keys :
  length (willClearOf b keys) = length (filter (clearable b) keys).
Proof. by rewrite <- willClearOf_cells, length_fmap. Qed.

Lemma shapeOf_applyClear items b : shapeOf (applyClear items b) = shapeOf b.
Proof.
  unfold applyClear. revert b.
  induction items as [|it items IH]; intros b; [done|]. simpl.
  rewrite IH. destruct (inBoundsCell (ci_cell it)); [apply shapeOf_setAt|done].
Qed.

Lemma getAt_applyClear items b k :
  (∀ it, it ∈ items → inRange b (ci_cell it).1 (ci_cell it).2) →
  getAt (applyClear items b) k =
    if bool_decide (k ∈ ci_cell <$> items ∧ inBoundsCell k = true)
    then None else getAt b k.
Proof.
  unfold applyClear. revert b.
  induction items as [|it items IH]; intros b Hrange.
  - done.
  - cbn [fold_left]. rewrite IH.
    2:{ intros it' Hit'. destruct (inBoundsCell (ci_cell it)).
        - eapply inRange_shape; [symmetry; apply shapeOf_setAt|].
          apply Hrange. by right.
        - apply Hrange. by right. }
    rewrite fmap_cons.
    case_bool_decide as H1.
    + rewrite bool_decide_eq_true_2; [done|].
      destruct H1. split; [by right|done].
    + destruct (decide (k = ci_cell it)) as [->|Hk].
      * destruct (inBoundsCell (ci_cell it)) eqn:Hin.
        -- rewrite getAt_setAt_eq by (apply Hrange; left).
           rewrite bool_decide_eq_true_2; [done|]. split; [left|done].
        -- rewrite bool_decide_eq_false_2; [done|]. intros [_ ?]. done.
      * rewrite (bool_decide_eq_false_2 (k ∈ ci_cell it :: _ ∧ _)).
        2:{ rewrite elem_of_cons. tauto. }
        destruct (inBoundsCell (ci_cell it)); [|done].
        by rewrite getAt_setAt_ne.
Qed.

Lemma willClearOf_inRange b keys it :
  it ∈ willClearOf b keys → inRange b (ci_cell it).1 (ci_cell it).2.
Proof.
  unfold willClearOf. rewrite list_elem_of_omap. intros (k & _ & Hk).
  destruct (inBoundsCell k); [|done]. simpl in Hk.
  destruct (getAt b k) as [p|] eqn:Hp; [|done]. simplify_eq. simpl.
  by eapply getCell_Some_inRange.
Qed.

(** After the commit of a clear computed from [keys], exactly the
    in-bounds cells of [keys] are empty; the rest of the board is as
    before. *)
Lemma getAt_applyClear_willClearOf b keys k :
  getAt (applyClear (willClearOf b keys) b) k =
    if bool_decide (k ∈ keys ∧ inBoundsCell k = true) then None else getAt b k.
Proof.
  rewrite getAt_applyClear by (intros; by eapply willClearOf_inRange).
  rewrite willClearOf_cells.
  case_bool_decide as H1; case_bool_decide as H2; try done.
  - destruct H1 as [H1 _]. apply list_elem_of_filter in H1 as [[? ?] ?]. tauto.
  - destruct (getAt b k) as [p|] eqn:Hp; [|done].
    exfalso. apply H1. destruct H2. split; [|done].
    apply list_elem_of_filter. split; [|done]. split; [done|]. rewrite Hp. eauto.
Qed.

(** The cells emptied by the commit are the clearable cells of [keys],
    each once. *)
Lemma emptiedCells_applyClear b keys :
  emptiedCells b (applyClear (willClearOf b keys) b)
    ≡ₚ remove_dups (filter (clearable b) keys).
Proof.
  apply NoDup_Permutation.
  - apply NoDup_filter, NoDup_allCells.
  - apply NoDup_remove_dups.
  - intros k. unfold emptiedCells.
    rewrite elem_of_remove_dups, !list_elem_of_filter, elem_of_allCells.
    rewrite getAt_applyClear_willClearOf. unfold clearable.
    case_bool_decide as H1.
    + tauto.
    + split; [|tauto]. intros [[[p Hp] Hn] _]. congruence.
Qed.

(** A clear computed from a set of keys destroys as many pieces as
    [willClear] has entries. *)
Lemma emptiedCells_applyClear_NoDup b keys :
  NoDup keys →
  length (emptiedCells b (applyClear (willClearOf b keys) b))
    = length (willClearOf b keys).
Proof.
  intros Hnd. rewrite emptiedCells_applyClear, length_willClearOf.
  apply Permutation_length. symmetry. apply NoDup_Permutation.
  - by apply NoDup_filter.
  - apply NoDup_remove_dups.
  - intros k. by rewrite elem_of_remove_dups.
Qed.

(** ** C4 and C7: activating a Bomb *)

Lemma board_addScore d g : board (addScore d g) = board g.
Proof. unfold addScore. by destruct (d <=? 0). Qed.

Lemma score_addScore d g :
  0 ≤ score g → 0 < d → score (addScore d g) = score g + d.
Proof.
  intros Hs Hd. unfold addScore. destruct (Z.leb_spec d 0); [lia|]. simpl. lia.
Qed.

Lemma NoDup_bombArea center : NoDup (bombArea center).
Proof.
  rewrite bombArea_offsets. apply NoDup_fmap_2_strong.
  - intros [a b] [c d] _ _ Heq. simpl in Heq. simplify_eq. f_equal; lia.
  - apply (bool_decide_unpack _). by vm_compute.
Qed.

(** What [detonateClear] does for a Bomb: the blast list is the disc
    followed by the origin once more, and the score grows by the length
    of [willClear]. *)
Lemma detonateClear_bomb g origin p :
  isBusy g = false → specialOrigin g = Some origin →
  getAt (board g) origin = Some p → kind p = BOMB →
  let willClear := willClearOf (board g) (bombArea origin ++ [origin]) in
  ∃ g', detonateClear g = Some g' ∧
        board g' = applyClear willClear (board g) ∧
        score g' = score (addScore (Z.of_nat (length willClear)) g).
Proof.
  intros Hbusy Ho Hp Hk. unfold detonateClear, detonateArea.
  rewrite Hbusy, Ho, Hp, Hk. cbn [board specialTarget withBusy bool_decide decide_rel].
  rewrite (bool_decide_eq_false_2 (BOMB = NORMAL)) by done.
  rewrite !(bool_decide_eq_false_2 (BOMB = ROCKET)) by done.
  cbn [board playSfx setHint withHint withBoard withBusy].
  eexists. split; [reflexivity|].
  case_bool_decide as Hlen.
  - rewrite board_addScore. split; [done|].
    unfold addScore. by destruct (_ <=? 0).
  - split; [done|]. unfold addScore.
    destruct (Z.leb_spec (Z.of_nat (length (willClearOf (board g)
                (bombArea origin ++ [origin])))) 0); [done|lia].
Qed.

(** C4, as the code has it.  Activating a Bomb at (3, 3) empties exactly
    the cells [(3 + dx, 3 + dy)] with [dx² + dy² <= 4], the cell (3, 3)
    among them, and leaves every other cell as it was; these cells all
    lie inside the grid and there are 13 of them. *)
Theorem bomb_at_3_3_clears_disc_of_13 g p :
  isBusy g = false → specialOrigin g = Some (3, 3) →
  getAt (board g) (3, 3) = Some p → kind p = BOMB →
  ∃ g', detonateClear g = Some g' ∧
    (∀ c, getAt (board g') c =
          if bool_decide ((c.1 - 3) * (c.1 - 3) + (c.2 - 3) * (c.2 - 3) ≤ 4)
          then None else getAt (board g) c) ∧
    (∀ c, (c.1 - 3) * (c.1 - 3) + (c.2 - 3) * (c.2 - 3) ≤ 4 → inBoundsCell c = true) ∧
    length (filter (λ c, (c.1 - 3) * (c.1 - 3) + (c.2 - 3) * (c.2 - 3) ≤ 4) allCells)
      = 13%nat.
Proof.
  intros Hbusy Ho Hp Hk.
  destruct (detonateClear_bomb g (3, 3) p Hbusy Ho Hp Hk) as (g' & Hg' & Hb & _).
  assert (Hin : ∀ c : Cell,
    (c.1 - 3) * (c.1 - 3) + (c.2 - 3) * (c.2 - 3) ≤ 4 → inBoundsCell c = true).
  { intros [x y] Hc. simpl in Hc. apply inBoundsCell_spec. simpl. unfold GRID.
    pose proof (Z.square_nonneg (x - 3)). pose proof (Z.square_nonneg (y - 3)).
    split; nia. }
  exists g'. split; [done|]. split; [|split; [done|by vm_compute]].
  intros c. rewrite Hb, getAt_applyClear_willClearOf.
  assert (c ∈ bombArea (3, 3) ++ [(3, 3)] ↔
          (c.1 - 3) * (c.1 - 3) + (c.2 - 3) * (c.2 - 3) ≤ 4) as Harea.
  { rewrite elem_of_app, elem_of_bombArea, list_elem_of_singleton. simpl.
    split; [|tauto]. intros [?| ->]; [done|]. simpl. lia. }
  case_bool_decide as H1; case_bool_decide as H2; try done.
  - destruct H1 as [H1 _]. apply Harea in H1. done.
  - exfalso. apply H1. split; [by apply Harea|by apply Hin].
Qed.

Lemma bomb_at_3_3_clears_disc_of_13_witness :
  ∃ g', detonateClear bombGame = Some g' ∧
    (∀ c, getAt (board g') c =
          if bool_decide ((c.1 - 3) * (c.1 - 3) + (c.2 - 3) * (c.2 - 3) ≤ 4)
          then None else getAt (board bombGame) c) ∧
    (∀ c, (c.1 - 3) * (c.1 - 3) + (c.2 - 3) * (c.2 - 3) ≤ 4 → inBoundsCell c = true) ∧
    length (filter (λ c, (c.1 - 3) * (c.1 - 3) + (c.2 - 3) * (c.2 - 3) ≤ 4) allCells)
      = 13%nat.
Proof.
  apply (bomb_at_3_3_clears_disc_of_13 bombGame (mkPiece 28 3 BOMB));
    reflexivity.
Defined.

(** C4 as stated fails on the full board [bombGame]: the blast around
    (3, 3) destroys 13 pieces, not 21, and the score grows by 14, not by
    the number of pieces destroyed. *)
Lemma bomb_at_3_3_not_21_cells :
  ∃ g', detonateClear bombGame = Some g' ∧
        length (emptiedCells (board bombGame) (board g')) = 13%nat ∧
        length (emptiedCells (board bombGame) (board g')) ≠ 21%nat ∧
        score g' - score bombGame = 14 ∧
        score g' - score bombGame
          ≠ Z.of_nat (length (emptiedCells (board bombGame) (board g'))).
Proof. eexists. split; [reflexivity|]. by vm_compute. Qed.

(** C7 fails for a detonation: on [bombGame] the activation of the Bomb
    at (3, 3) destroys 13 pieces while 14 points are added (the cell of
    the Bomb is listed twice in the blast list and [willClear] is not
    de-duplicated). *)
Theorem detonation_scores_origin_twice :
  ∃ g', detonateClear bombGame = Some g' ∧
        pieceCount (board bombGame) = 64%nat ∧
        pieceCount (board g') = 51%nat ∧
        length (emptiedCells (board bombGame) (board g')) = 13%nat ∧
        score g' = score bombGame + 14.
Proof. eexists. split; [reflexivity|]. by vm_compute. Qed.

(** ** Special-piece planner *)

Lemma find_Some_elem {A} (f : A → bool) l x :
  find f l = Some x → x ∈ l ∧ f x = true.
Proof. intros H. apply find_some in H as [H1 H2]. by rewrite list_elem_of_In. Qed.

Lemma find_None_elem {A} (f : A → bool) l x :
  find f l = None → x ∈ l → f x = false.
Proof. intros H Hx. eapply find_none; [done|]. by rewrite <- list_elem_of_In. Qed.

Lemma find_is_Some {A} (f : A → bool) l x :
  x ∈ l → f x = true → is_Some (find f l).
Proof.
  intros Hx Hf. destruct (find f l) eqn:Hfind; [eauto|].
  rewrite (find_None_elem f l x Hfind Hx) in Hf. done.
Qed.

Lemma elem_of_midOrder cs c : c ∈ midOrder cs → c ∈ cs.
Proof.
  unfold midOrder. rewrite list_elem_of_omap. intros (i & _ & Hi).
  by eapply list_elem_of_lookup_2.
Qed.

(** The visiting order of the fallback loop is the run from its middle
    to its end, then from its start to the middle. *)
Lemma midOrder_rotate cs :
  midOrder cs = drop (length cs / 2) cs ++ take (length cs / 2) cs.
Proof.
  unfold midOrder. set (len := length cs). set (mid := (len / 2)%nat).
  destruct (decide (len = 0%nat)) as [H0|H0].
  { subst len. apply length_zero_iff_nil in H0. by subst cs. }
  assert (Hmid : (mid < len)%nat) by (apply Nat.div_lt; lia).
  apply list_eq. intros i.
  destruct (decide (i < len)%nat) as [Hi|Hi].
  - assert (omap (λ i, cs !! ((mid + i) mod len)%nat) (seq 0 len) !! i
            = cs !! ((mid + i) mod len)%nat) as ->.
    { assert (∀ (f : nat → option Cell) n s,
                (∀ j, (s ≤ j < s + n)%nat → is_Some (f j)) →
                ∀ i, (i < n)%nat → omap f (seq s n) !! i = f (s + i)%nat) as Hgen.
      { intros f n. induction n as [|n IH]; intros s Hf j Hj; [lia|].
        simpl. destruct (Hf s) as [c Hc]; [lia|]. rewrite Hc.
        destruct j as [|j]; simpl.
        - by rewrite Nat.add_0_r.
        - rewrite IH by (first [lia | intros; apply Hf; lia]).
          f_equal. lia. }
      rewrite Hgen; [done| |done].
      intros j _. apply lookup_lt_is_Some_2. fold len.
      apply Nat.mod_upper_bound. lia. }
    destruct (decide (mid + i < len)%nat) as [Hlt|Hge].
    + rewrite Nat.mod_small by lia.
      rewrite lookup_app_l by (rewrite length_drop; fold len; lia).
      by rewrite lookup_drop.
    + rewrite lookup_app_r by (rewrite length_drop; fold len; lia).
      rewrite length_drop. fold len.
      rewrite lookup_take_lt by lia.
      f_equal.
      replace (mid + i)%nat with ((mid + i - len) + 1 * len)%nat by lia.
      rewrite Nat.Div0.mod_add. rewrite Nat.mod_small by lia. lia.
  - rewrite !lookup_ge_None_2; [done| |].
    + rewrite length_app, length_drop, length_take. fold len. lia.
    + assert (∀ (f : nat → option Cell) l, (length (omap f l) ≤ length l)%nat) as Hl.
      { intros f l'. induction l' as [|a l' IH]; simpl; [lia|].
        destruct (f a); simpl; change (list_omap _ _ f l') with (omap f l'); lia. }
      etrans; [apply Hl|]. rewrite length_seq. lia.
Qed.

Lemma chooseTarget_in b prefer cs :
  cs ≠ [] → ∃ t, chooseTarget b prefer cs = Some t ∧ t ∈ cs.
Proof.
  intros Hne. unfold chooseTarget.
  destruct (find _ prefer) as [pc|] eqn:Ha.
  { apply find_Some_elem in Ha as [_ Ha]. apply andb_true_iff in Ha as [Ha _].
    apply bool_decide_eq_true in Ha. eauto. }
  destruct (find (λ pc, bool_decide (pc ∈ cs)) prefer) as [pc|] eqn:Hb.
  { apply find_Some_elem in Hb as [_ Hb]. apply bool_decide_eq_true in Hb. eauto. }
  destruct (find _ (midOrder cs)) as [c|] eqn:Hc.
  { apply find_Some_elem in Hc as [Hc _]. apply elem_of_midOrder in Hc. eauto. }
  assert (length cs / 2 < length cs)%nat as Hmid.
  { destruct cs; [done|]. apply Nat.div_lt; simpl; lia. }
  destruct (lookup_lt_is_Some_2 cs _ Hmid) as [c Hcm]. rewrite Hcm.
  exists c. split; [done|]. by eapply list_elem_of_lookup_2.
Qed.

(** (a): a preferred cell of the run that holds a normal piece wins. *)
Lemma chooseTarget_preferred_normal b prefer cs pc :
  pc ∈ prefer → pc ∈ cs → isNormalAt b pc = true →
  ∃ t, chooseTarget b prefer cs = Some t ∧
       t ∈ prefer ∧ t ∈ cs ∧ isNormalAt b t = true.
Proof.
  intros Hp Hc Hn. unfold chooseTarget.
  destruct (find_is_Some (λ pc, bool_decide (pc ∈ cs) && isNormalAt b pc) prefer pc)
    as [t Ht]; [done| |].
  { rewrite Hn, bool_decide_eq_true_2; done. }
  rewrite Ht. apply find_Some_elem in Ht as [Ht1 Ht2].
  apply andb_true_iff in Ht2 as [Ht2 Ht3]. apply bool_decide_eq_true in Ht2. eauto.
Qed.

(** (b): otherwise a preferred cell of the run wins, whatever it holds. *)
Lemma chooseTarget_preferred_any b prefer cs pc :
  (∀ qc, qc ∈ prefer → qc ∈ cs → isNormalAt b qc = false) →
  pc ∈ prefer → pc ∈ cs →
  ∃ t, chooseTarget b prefer cs = Some t ∧ t ∈ prefer ∧ t ∈ cs.
Proof.
  intros Hnone Hp Hc. unfold chooseTarget.
  destruct (find _ prefer) as [qc|] eqn:Ha.
  { apply find_Some_elem in Ha as [Ha1 Ha2].
    apply andb_true_iff in Ha2 as [Ha2 Ha3]. apply bool_decide_eq_true in Ha2.
    rewrite Hnone in Ha3 by done. done. }
  destruct (find_is_Some (λ pc, bool_decide (pc ∈ cs)) prefer pc) as [t Ht]; [done| |].
  { by rewrite bool_decide_eq_true_2. }
  rewrite Ht. apply find_Some_elem in Ht as [Ht1 Ht2].
  apply bool_decide_eq_true in Ht2. eauto.
Qed.

(** (c): with no preferred cell in the run, the first cell holding a
    normal piece in the order middle, ..., end, start, ..., middle - 1
    wins, and the middle cell when no cell of the run is normal. *)
Lemma chooseTarget_middle b prefer cs :
  (∀ qc, qc ∈ prefer → qc ∉ cs) →
  chooseTarget b prefer cs =
    match find (isNormalAt b) (drop (length cs / 2) cs ++ take (length cs / 2) cs) with
    | Some c => Some c
    | None => cs !! (length cs / 2)%nat
    end.
Proof.
  intros Hnone. unfold chooseTarget.
  destruct (find _ prefer) as [qc|] eqn:Ha.
  { apply find_Some_elem in Ha as [Ha1 Ha2].
    apply andb_true_iff in Ha2 as [Ha2 _]. apply bool_decide_eq_true in Ha2.
    by destruct (Hnone qc). }
  destruct (find (λ pc, bool_decide (pc ∈ cs)) prefer) as [qc|] eqn:Hb.
  { apply find_Some_elem in Hb as [Hb1 Hb2]. apply bool_decide_eq_true in Hb2.
    by destruct (Hnone qc). }
  rewrite midOrder_rotate.
  destruct (find _ _); [done|].
  destruct (cs !! (length cs / 2)%nat) eqn:Hm; [done|].
  apply lookup_ge_None in Hm. destruct cs as [|c cs]; [done|].
  exfalso. assert (length (c :: cs) / 2 < length (c :: cs))%nat; [|lia].
  apply Nat.div_lt; simpl; lia.
Qed.

(** *** The creation map *)

Lemma creationAt_Some out k cr :
  creationAt out k = Some cr → cr ∈ out ∧ cr_cell cr = k.
Proof.
  unfold creationAt. intros H. apply find_Some_elem in H as [H1 H2].
  by apply bool_decide_eq_true in H2.
Qed.

Lemma creationAt_None out k : creationAt out k = None → k ∉ cr_cell <$> out.
Proof.
  unfold creationAt. intros H Hin.
  apply list_elem_of_fmap in Hin as (cr & -> & Hcr).
  pose proof (find_None_elem _ _ cr H Hcr) as Hf. simpl in Hf.
  by rewrite bool_decide_eq_true_2 in Hf.
Qed.

Lemma replaceCreation_keys out v : cr_cell <$> replaceCreation out v = cr_cell <$> out.
Proof.
  unfold replaceCreation. rewrite <- list_fmap_compose. apply list_fmap_ext.
  intros i cr _. simpl. by case_bool_decide.
Qed.

Lemma elem_of_replaceCreation out v cr :
  cr ∈ replaceCreation out v ↔
  ∃ cr0, cr0 ∈ out ∧ cr = if bool_decide (cr_cell cr0 = cr_cell v) then v else cr0.
Proof. unfold replaceCreation. rewrite list_elem_of_fmap. naive_solver. Qed.

(** The keys stay distinct. *)
Lemma mergeCreation_NoDup out v :
  NoDup (cr_cell <$> out) → NoDup (cr_cell <$> mergeCreation out v).
Proof.
  intros Hnd. unfold mergeCreation.
  destruct (creationAt out (cr_cell v)) as [ex|] eqn:Hex.
  - destruct (_ && _); [by rewrite replaceCreation_keys|done].
  - rewrite fmap_app. apply NoDup_app. split; [done|]. split.
    + intros k Hk ->%list_elem_of_singleton. by apply creationAt_None in Hex.
    + apply NoDup_singleton.
Qed.

(** Every entry after the merge is an old entry or the new value. *)
Lemma mergeCreation_from out v cr :
  cr ∈ mergeCreation out v → cr ∈ out ∨ cr = v.
Proof.
  unfold mergeCreation.
  destruct (creationAt out (cr_cell v)) as [ex|] eqn:Hex.
  - destruct (_ && _); [|by left].
    rewrite elem_of_replaceCreation. intros (cr0 & H0 & ->).
    case_bool_decide; [by right|by left].
  - rewrite elem_of_app, list_elem_of_singleton. done.
Qed.

(** The cell of the new value has an entry after the merge, and a Bomb
    stays or becomes a Bomb. *)
Lemma mergeCreation_new out v :
  (∀ cr, cr ∈ out → cr_kind cr ≠ NORMAL) →
  ∃ cr, cr ∈ mergeCreation out v ∧ cr_cell cr = cr_cell v ∧
        (cr_kind v = BOMB → cr_kind cr = BOMB).
Proof.
  intros Hk. unfold mergeCreation.
  destruct (creationAt out (cr_cell v)) as [ex|] eqn:Hex.
  - apply creationAt_Some in Hex as [Hex1 Hex2].
    destruct (bool_decide (cr_kind ex = ROCKET) && bool_decide (cr_kind v = BOMB)) eqn:Hc.
    + exists v. split; [|done]. apply elem_of_replaceCreation.
      exists ex. by rewrite bool_decide_eq_true_2.
    + exists ex. split; [done|]. split; [done|]. intros Hv.
      rewrite (bool_decide_eq_true_2 _ Hv), andb_true_r in Hc.
      apply bool_decide_eq_false in Hc. specialize (Hk ex Hex1).
      by destruct (cr_kind ex).
  - exists v. split; [|done]. rewrite elem_of_app, list_elem_of_singleton. by right.
Qed.

(** An old entry keeps its cell, and a Bomb stays a Bomb. *)
Lemma mergeCreation_old out v cr :
  cr ∈ out →
  ∃ cr', cr' ∈ mergeCreation out v ∧ cr_cell cr' = cr_cell cr ∧
         (cr_kind cr = BOMB → cr_kind cr' = BOMB).
Proof.
  intros Hcr. unfold mergeCreation.
  destruct (creationAt out (cr_cell v)) as [ex|] eqn:Hex.
  - destruct (bool_decide (cr_kind ex = ROCKET) && bool_decide (cr_kind v = BOMB)) eqn:Hc;
      [|by exists cr].
    apply andb_true_iff in Hc as [_ Hv%bool_decide_eq_true].
    destruct (decide (cr_cell cr = cr_cell v)) as [He|He].
    + exists v. split; [|by split].
      apply elem_of_replaceCreation. exists cr. by rewrite bool_decide_eq_true_2.
    + exists cr. split; [|done].
      apply elem_of_replaceCreation. exists cr. by rewrite bool_decide_eq_false_2.
  - exists cr. split; [|done]. rewrite elem_of_app. by left.
Qed.

Lemma segmentCreation_Some b prefer seg v :
  segmentCreation b prefer seg = Some v →
  (4 ≤ length (cells seg))%nat ∧
  chooseTarget b prefer (cells seg) = Some (cr_cell v) ∧
  cr_kind v = (if bool_decide (5 ≤ length (cells seg))%nat then BOMB else ROCKET) ∧
  cr_color v = seg_color seg ∧ cr_kind v ≠ NORMAL.
Proof.
  unfold segmentCreation.
  destruct (Nat.ltb_spec (length (cells seg)) 4); [done|].
  destruct (chooseTarget b prefer (cells seg)) as [t|]; [|done].
  destruct (Nat.leb_spec 5 (length (cells seg))); intros [= <-];
    cbn [cr_cell cr_kind cr_color]; (split; [done|]); (split; [done|]).
  - rewrite bool_decide_eq_true_2 by done. done.
  - rewrite bool_decide_eq_false_2 by lia. done.
Qed.

Lemma segmentCreation_short b prefer seg :
  (length (cells seg) < 4)%nat → segmentCreation b prefer seg = None.
Proof.
  intros H. unfold segmentCreation.
  by destruct (Nat.ltb_spec (length (cells seg)) 4); [|lia].
Qed.

Lemma segmentCreation_long b prefer seg :
  (4 ≤ length (cells seg))%nat →
  ∃ t, chooseTarget b prefer (cells seg) = Some t ∧ t ∈ cells seg ∧
       segmentCreation b prefer seg =
         Some (mkCreation t
                 (if bool_decide (5 ≤ length (cells seg))%nat then BOMB else ROCKET)
                 (seg_color seg)).
Proof.
  intros H. destruct (chooseTarget_in b prefer (cells seg)) as (t & Ht & Hin).
  { intros Hnil. rewrite Hnil in H. simpl in H. lia. }
  exists t. split; [done|]. split; [done|]. unfold segmentCreation.
  destruct (Nat.ltb_spec (length (cells seg)) 4); [lia|]. rewrite Ht.
  destruct (Nat.leb_spec 5 (length (cells seg))).
  - by rewrite bool_decide_eq_true_2.
  - by rewrite bool_decide_eq_false_2 by lia.
Qed.

(** What the loop over the runs has built when it ends. *)
Lemma computeSpecialCreations_inv b segs prefs :
  let prefer := preferList prefs in
  let out := computeSpecialCreations b segs prefs in
  NoDup (cr_cell <$> out) ∧
  (∀ cr, cr ∈ out → ∃ seg, seg ∈ segs ∧ segmentCreation b prefer seg = Some cr) ∧
  (∀ seg v, seg ∈ segs → segmentCreation b prefer seg = Some v →
     ∃ cr, cr ∈ out ∧ cr_cell cr = cr_cell v ∧ (cr_kind v = BOMB → cr_kind cr = BOMB)) ∧
  (length out ≤ length segs)%nat.
Proof.
  intros prefer. unfold computeSpecialCreations. fold prefer.
  apply (fold_left_inv (λ out pre,
    NoDup (cr_cell <$> out) ∧
    (∀ cr, cr ∈ out → ∃ seg, seg ∈ pre ∧ segmentCreation b prefer seg = Some cr) ∧
    (∀ seg v, seg ∈ pre → segmentCreation b prefer seg = Some v →
       ∃ cr, cr ∈ out ∧ cr_cell cr = cr_cell v ∧ (cr_kind v = BOMB → cr_kind cr = BOMB)) ∧
    (length out ≤ length pre)%nat)).
  - split; [constructor|]. split; [by intros cr Hcr%elem_of_nil|].
    split; [by intros seg v Hs%elem_of_nil|done].
  - intros out pre seg suf _ (Hnd & Hfrom & Hto & Hlen).
    assert (Hkinds : ∀ cr, cr ∈ out → cr_kind cr ≠ NORMAL).
    { intros cr Hcr. destruct (Hfrom cr Hcr) as (s0 & _ & Hs0).
      by apply segmentCreation_Some in Hs0 as (_ & _ & _ & _ & ?). }
    destruct (segmentCreation b prefer seg) as [v|] eqn:Hv.
    + split; [by apply mergeCreation_NoDup|]. split; [|split].
      * intros cr Hcr. apply mergeCreation_from in Hcr as [Hcr| ->].
        -- destruct (Hfrom cr Hcr) as (s0 & Hs0 & Hs0'). exists s0.
           split; [|done]. rewrite elem_of_app. by left.
        -- exists seg. split; [|done]. rewrite elem_of_app, list_elem_of_singleton.
           by right.
      * intros s0 v0 Hs0 Hv0.
        apply elem_of_app in Hs0 as [Hs0| ->%list_elem_of_singleton].
        -- destruct (Hto s0 v0 Hs0 Hv0) as (cr & Hcr & Hcell & Hbomb).
           destruct (mergeCreation_old out v cr Hcr) as (cr' & Hcr' & Hcell' & Hbomb').
           exists cr'. split; [done|]. split; [congruence|]. auto.
        -- rewrite Hv in Hv0. injection Hv0 as <-.
           by apply mergeCreation_new.
      * rewrite length_app. simpl. unfold mergeCreation.
        destruct (creationAt out (cr_cell v)).
        -- destruct (_ && _); [|lia].
           unfold replaceCreation. rewrite length_fmap. lia.
        -- rewrite length_app. simpl. lia.
    + split; [done|]. split; [|split].
      * intros cr Hcr. destruct (Hfrom cr Hcr) as (s0 & Hs0 & Hs0'). exists s0.
        split; [|done]. rewrite elem_of_app. by left.
      * intros s0 v0 Hs0 Hv0.
        apply elem_of_app in Hs0 as [Hs0| ->%list_elem_of_singleton]; [by eapply Hto|].
        congruence.
      * rewrite length_app. simpl. lia.
Qed.

Lemma one_entry_per_key (out : list Creation) cr t :
  NoDup (cr_cell <$> out) → cr ∈ out → cr_cell cr = t →
  length (filter (λ c, cr_cell c = t) out) = 1%nat.
Proof.
  induction out as [|c0 out IH]; intros Hnd Hcr Ht; [by apply elem_of_nil in Hcr|].
  rewrite fmap_cons in Hnd. apply NoDup_cons in Hnd as [Hc0 Hnd].
  assert (Hkey : ∀ c, c ∈ out → cr_cell c ∈ cr_cell <$> out)
    by (intros; by apply list_elem_of_fmap_2).
  apply elem_of_cons in Hcr as [->|Hcr].
  - rewrite filter_cons_True by done. simpl. f_equal.
    destruct (filter (λ c, cr_cell c = t) out) as [|c l] eqn:Hf; [done|].
    assert (c ∈ filter (λ c, cr_cell c = t) out) as Hc by (rewrite Hf; left).
    apply list_elem_of_filter in Hc as [Hc1 Hc2].
    exfalso. apply Hc0. rewrite Ht, <- Hc1. by apply Hkey.
  - rewrite filter_cons_False; [by apply IH|].
    intros Hc0t. apply Hc0. rewrite Hc0t, <- Ht. by apply Hkey.
Qed.

(** ** C6: which runs create which special piece *)

Lemma same_key_same_entry (out : list Creation) cr cr' :
  NoDup (cr_cell <$> out) → cr ∈ out → cr' ∈ out → cr_cell cr = cr_cell cr' → cr = cr'.
Proof.
  induction out as [|c0 out IH]; intros Hnd H1 H2 Hk; [by apply elem_of_nil in H1|].
  rewrite fmap_cons in Hnd. apply NoDup_cons in Hnd as [Hc0 Hnd].
  apply elem_of_cons in H1 as [->|H1]; apply elem_of_cons in H2 as [->|H2].
  - done.
  - exfalso. apply Hc0. rewrite Hk. by apply list_elem_of_fmap_2.
  - exfalso. apply Hc0. rewrite <- Hk. by apply list_elem_of_fmap_2.
  - by apply IH.
Qed.

(** C6, as the code has it.  In the loop over the runs of a pass, a run
    of 3 cells proposes no creation, a run of exactly 4 cells proposes
    exactly one creation, a Rocket of the color of the run on a cell of
    the run, and a run of 5 or more cells proposes exactly one creation,
    a Bomb; a pass whose only run it is gets exactly that creation, and
    a pass of runs of 3 cells gets none.  In any pass the creation map
    holds exactly one entry for the cell [t] a run of 4 or more cells
    targets; that entry is a Bomb if a run of 5 or more cells of the pass
    targets [t] and a Rocket otherwise; it is the creation the run
    proposes when no other run of 4 or more cells targets [t].  Every
    entry of the map comes from a run of 4 or more cells that targets its
    cell, and is a Bomb exactly if a run of 5 or more cells does. *)
Theorem run_length_decides_creation b prefs seg :
  let prefer := preferList prefs in
  let len := length (cells seg) in
  (len = 3%nat →
     segmentCreation b prefer seg = None ∧
     computeSpecialCreations b [seg] prefs = []) ∧
  (len = 4%nat →
     ∃ t, t ∈ cells seg ∧
       segmentCreation b prefer seg = Some (mkCreation t ROCKET (seg_color seg)) ∧
       computeSpecialCreations b [seg] prefs = [mkCreation t ROCKET (seg_color seg)]) ∧
  ((5 ≤ len)%nat →
     ∃ t, t ∈ cells seg ∧
       segmentCreation b prefer seg = Some (mkCreation t BOMB (seg_color seg)) ∧
       computeSpecialCreations b [seg] prefs = [mkCreation t BOMB (seg_color seg)]) ∧
  (∀ segs, seg ∈ segs → (4 ≤ len)%nat →
     ∃ t cr, chooseTarget b prefer (cells seg) = Some t ∧
       cr ∈ computeSpecialCreations b segs prefs ∧ cr_cell cr = t ∧
       length (filter (λ cr, cr_cell cr = t) (computeSpecialCreations b segs prefs))
         = 1%nat ∧
       cr_kind cr =
         (if bool_decide (Exists (λ s, chooseTarget b prefer (cells s) = Some t ∧
                                       (5 ≤ length (cells s))%nat) segs)
          then BOMB else ROCKET) ∧
       ((∀ s, s ∈ segs → (4 ≤ length (cells s))%nat →
              chooseTarget b prefer (cells s) = Some t → s = seg) →
        cr = mkCreation t (if bool_decide (5 ≤ len)%nat then BOMB else ROCKET)
                        (seg_color seg))) ∧
  (∀ segs cr, cr ∈ computeSpecialCreations b segs prefs →
     (∃ s, s ∈ segs ∧ (4 ≤ length (cells s))%nat ∧
           chooseTarget b prefer (cells s) = Some (cr_cell cr)) ∧
     cr_kind cr =
       (if bool_decide (Exists (λ s, chooseTarget b prefer (cells s) = Some (cr_cell cr) ∧
                                     (5 ≤ length (cells s))%nat) segs)
        then BOMB else ROCKET)) ∧
  (∀ segs, Forall (λ s, length (cells s) = 3%nat) segs →
     computeSpecialCreations b segs prefs = []).
Proof.
  intros prefer len.
  assert (∀ segs cr, cr ∈ computeSpecialCreations b segs prefs →
            cr_kind cr =
              (if bool_decide (Exists (λ s, chooseTarget b prefer (cells s)
                                              = Some (cr_cell cr) ∧
                                            (5 ≤ length (cells s))%nat) segs)
               then BOMB else ROCKET)) as Hkind.
  { intros segs cr Hcr.
    destruct (computeSpecialCreations_inv b segs prefs) as (Hnd & Hfrom & Hto & _).
    destruct (Hfrom cr Hcr) as (s0 & Hs0 & Hc0).
    pose proof Hc0 as (H4 & Ht0 & Hk0 & _)%segmentCreation_Some.
    destruct (decide (Exists (λ s, chooseTarget b prefer (cells s) = Some (cr_cell cr) ∧
                                   (5 ≤ length (cells s))%nat) segs)) as [Hex|Hex];
      [rewrite (bool_decide_eq_true_2 _ Hex)|rewrite (bool_decide_eq_false_2 _ Hex)].
    - apply Exists_exists in Hex as (s1 & Hs1 & Ht1 & H5).
      destruct (segmentCreation_long b prefer s1 ltac:(lia)) as (t1 & Ht1' & _ & Hc1).
      rewrite Ht1 in Ht1'. injection Ht1' as <-.
      rewrite bool_decide_eq_true_2 in Hc1 by done.
      destruct (Hto s1 _ Hs1 Hc1) as (cr' & Hcr' & Hcell & Hbomb). cbn [cr_cell cr_kind] in *.
      rewrite (same_key_same_entry _ cr cr' Hnd Hcr Hcr') by done. by apply Hbomb.
    - rewrite Hk0. case_bool_decide as H5; [|done].
      exfalso. apply Hex. apply Exists_exists. by exists s0. }
  split; [|split; [|split; [|split; [|split]]]].
  - intros H3. split; [apply segmentCreation_short; fold len; lia|].
    unfold computeSpecialCreations. simpl. fold prefer.
    rewrite segmentCreation_short; [done|]. fold len. lia.
  - intros H4. destruct (segmentCreation_long b prefer seg) as (t & _ & Hin & Hc).
    { fold len. lia. }
    fold len in Hc. rewrite bool_decide_eq_false_2 in Hc by lia.
    exists t. split; [done|]. split; [done|].
    unfold computeSpecialCreations. simpl. fold prefer. by rewrite Hc.
  - intros H5. destruct (segmentCreation_long b prefer seg) as (t & _ & Hin & Hc).
    { fold len. lia. }
    fold len in Hc. rewrite bool_decide_eq_true_2 in Hc by lia.
    exists t. split; [done|]. split; [done|].
    unfold computeSpecialCreations. simpl. fold prefer. by rewrite Hc.
  - intros segs Hseg H4.
    destruct (segmentCreation_long b prefer seg H4) as (t & Ht & _ & Hc).
    destruct (computeSpecialCreations_inv b segs prefs) as (Hnd & Hfrom & Hto & _).
    destruct (Hto seg _ Hseg Hc) as (cr & Hcr & Hcell & _). cbn [cr_cell] in Hcell.
    exists t, cr. split; [done|]. split; [done|]. split; [done|].
    split; [by eapply one_entry_per_key|]. split.
    + rewrite <- Hcell. by apply Hkind.
    + intros Honly. destruct (Hfrom cr Hcr) as (s0 & Hs0 & Hc0).
      pose proof Hc0 as (H40 & Ht0 & _)%segmentCreation_Some.
      rewrite Hcell in Ht0. rewrite (Honly s0 Hs0 H40 Ht0) in Hc0.
      unfold prefer, len in *. congruence.
  - intros segs cr Hcr. split; [|by apply Hkind].
    destruct (computeSpecialCreations_inv b segs prefs) as (_ & Hfrom & _).
    destruct (Hfrom cr Hcr) as (s0 & Hs0 & Hc0).
    apply segmentCreation_Some in Hc0 as (H4 & Ht0 & _). by exists s0.
  - intros segs Hall. apply elem_of_nil_inv. intros cr Hcr.
    destruct (computeSpecialCreations_inv b segs prefs) as (_ & Hfrom & _).
    destruct (Hfrom cr Hcr) as (s0 & Hs0 & Hc0).
    apply segmentCreation_Some in Hc0 as (H4 & _).
    rewrite Forall_forall in Hall. rewrite (Hall s0 Hs0) in H4. lia.
Qed.

(** C6 as stated fails where two runs target one cell: on [crossBoard]
    the detector reports the row-2 run of 4 cells and the column-2 run of
    5 cells; both target their middle cell (2, 2), and the creation map
    holds one Bomb there and no Rocket. *)
Lemma run_of_four_can_yield_no_rocket :
  let segs := findMatchSegments crossBoard in
  let out := computeSpecialCreations crossBoard segs None in
  segs = [ mkSegment [(0, 2); (1, 2); (2, 2); (3, 2)] 0 DirH;
           mkSegment [(2, 0); (2, 1); (2, 2); (2, 3); (2, 4)] 0 DirV ] ∧
  out = [mkCreation (2, 2) BOMB 0] ∧
  filter (λ cr, cr_kind cr = ROCKET) out = [].
Proof. by vm_compute. Qed.

(** ** C5: the target cell of a run, and Bomb over Rocket *)

(** C5, as the code has it.  For a run of 4 or more cells the planner
    chooses a target cell [t] of the run: (a) when a preferred cell lies in
    the run and holds a normal piece, [t] is such a cell; (b) otherwise,
    when a preferred cell lies in the run, [t] is a preferred cell;
    (c) when no preferred cell lies in the run, [t] is the first cell
    holding a normal piece in the order middle, middle + 1, ..., end of
    the run, start of the run, ..., middle - 1 (so the middle cell itself
    when it is normal), and the middle cell when no cell of the run holds
    a normal piece.  The creation map has distinct cells, and its entry
    for [t] is a Bomb as soon as one run that chose [t] has 5 or more
    cells. *)
Theorem planner_target_precedence b prefs seg segs :
  let prefer := preferList prefs in
  let cs := cells seg in
  let mid := (length cs / 2)%nat in
  let out := computeSpecialCreations b segs prefs in
  (4 ≤ length cs)%nat → seg ∈ segs →
  ∃ t, chooseTarget b prefer cs = Some t ∧ t ∈ cs ∧
    ((∃ pc, pc ∈ prefer ∧ pc ∈ cs ∧ isNormalAt b pc = true) →
       t ∈ prefer ∧ isNormalAt b t = true) ∧
    ((∃ pc, pc ∈ prefer ∧ pc ∈ cs) → t ∈ prefer) ∧
    ((∀ pc, pc ∈ prefer → pc ∉ cs) →
       Some t = match find (isNormalAt b) (drop mid cs ++ take mid cs) with
                | Some c => Some c
                | None => cs !! mid
                end) ∧
    NoDup (cr_cell <$> out) ∧
    ∃ cr, cr ∈ out ∧ cr_cell cr = t ∧
      ∀ seg', seg' ∈ segs → chooseTarget b prefer (cells seg') = Some t →
              (5 ≤ length (cells seg'))%nat → cr_kind cr = BOMB.
Proof.
  intros prefer cs mid out Hlen Hseg.
  destruct (segmentCreation_long b prefer seg Hlen) as (t & Ht & Hin & Hc).
  fold cs in Ht, Hin. exists t. split; [done|]. split; [done|].
  destruct (computeSpecialCreations_inv b segs prefs) as (Hnd & _ & Hto & _).
  fold prefer out in Hnd, Hto.
  split; [|split; [|split; [|split; [done|]]]].
  - intros (pc & Hp & Hc' & Hn).
    destruct (chooseTarget_preferred_normal b prefer cs pc Hp Hc' Hn)
      as (t' & Ht' & ? & ? & ?).
    rewrite Ht in Ht'. by simplify_eq.
  - intros (pc & Hp & Hc').
    destruct (find (λ qc, bool_decide (qc ∈ cs) && isNormalAt b qc) prefer)
      as [qc|] eqn:Hfind.
    + apply find_Some_elem in Hfind as [Hq1 Hq2].
      apply andb_true_iff in Hq2 as [Hq2 Hq3]. apply bool_decide_eq_true in Hq2.
      destruct (chooseTarget_preferred_normal b prefer cs qc Hq1 Hq2 Hq3)
        as (t' & Ht' & ? & ? & ?).
      rewrite Ht in Ht'. by simplify_eq.
    + destruct (chooseTarget_preferred_any b prefer cs pc) as (t' & Ht' & ? & ?);
        [|done|done|].
      * intros qc Hq1 Hq2. pose proof (find_None_elem _ _ qc Hfind Hq1) as Hf.
        simpl in Hf. by rewrite bool_decide_eq_true_2 in Hf.
      * rewrite Ht in Ht'. by simplify_eq.
  - intros Hnone. rewrite <- Ht. by apply chooseTarget_middle.
  - destruct (Hto seg _ Hseg Hc) as (cr & Hcr & Hcell & _). simpl in Hcell.
    exists cr. split; [done|]. split; [done|].
    intros seg' Hseg' Ht' H5.
    destruct (segmentCreation_long b prefer seg') as (t' & Ht2 & _ & Hc'); [lia|].
    rewrite Ht' in Ht2. injection Ht2 as <-.
    rewrite bool_decide_eq_true_2 in Hc' by done.
    destruct (Hto seg' _ Hseg' Hc') as (cr' & Hcr' & Hcell' & Hb). simpl in *.
    rewrite (same_key_same_entry out cr cr'); [by apply Hb|done..|congruence].
Qed.

Lemma planner_target_precedence_witness :
  let seg := mkSegment [(0, 0); (1, 0); (2, 0); (3, 0)] 0 DirH in
  (4 ≤ length (cells seg))%nat ∧ seg ∈ findMatchSegments rocketsInRunBoard ∧
  ∃ t, chooseTarget rocketsInRunBoard [] (cells seg) = Some t ∧ t ∈ cells seg.
Proof.
  intros seg.
  assert (H4 : (4 ≤ length (cells seg))%nat) by (simpl; lia).
  assert (Hin : seg ∈ findMatchSegments rocketsInRunBoard) by (vm_compute; left).
  split; [done|]. split; [done|].
  destruct (planner_target_precedence rocketsInRunBoard None seg
              (findMatchSegments rocketsInRunBoard) H4 Hin) as (t & Ht & Hc & _).
  by exists t.
Defined.

(** C5 as stated fails where the middle of the run is special: on
    [rocketsInRunBoard] the run of columns 0 to 3 of row 0 has Rockets at
    its indices 2 (the middle) and 3; the planner targets index 0, while
    the normal cell at index 1 is nearer to the middle. *)
Lemma planner_target_not_nearest_normal :
  let b := rocketsInRunBoard in
  let seg := mkSegment [(0, 0); (1, 0); (2, 0); (3, 0)] 0 DirH in
  findMatchSegments b = [seg] ∧
  computeSpecialCreations b (findMatchSegments b) None = [mkCreation (0, 0) ROCKET 0] ∧
  isNormalAt b (2, 0) = false ∧ isNormalAt b (1, 0) = true ∧
  ¬ nearestNormalToMiddle b (cells seg) (0, 0).
Proof.
  intros b seg. split; [by vm_compute|]. split; [by vm_compute|].
  split; [by vm_compute|]. split; [by vm_compute|].
  intros (i & Hi & _ & Hmin).
  assert (i = 0%nat) as ->.
  { destruct i as [|[|[|[|i]]]]; simpl in Hi; by simplify_eq. }
  specialize (Hmin 1%nat (1, 0) eq_refl eq_refl). simpl in Hmin. lia.
Qed.

(** ** C9: the chain expander *)

Section Expansion.

Variable b : Board.
Variable prot : list Cell.

Lemma extends_refl st : extends prot st st.
Proof.
  exists []. rewrite app_nil_r. split; [done|]. split; [constructor|].
  split; [constructor|]. simpl. by rewrite orb_false_r.
Qed.

Lemma extends_trans st1 st2 st3 : extends prot st1 st2 → extends prot st2 st3 → extends prot st1 st3.
Proof.
  intros (a1 & H1 & F1 & N1 & C1) (a2 & H2 & F2 & N2 & C2).
  exists (a1 ++ a2). rewrite H2, H1, <- app_assoc. split; [done|].
  rewrite Forall_forall in F1, F2.
  split; [|split].
  - apply Forall_forall. intros c [Hc|Hc]%elem_of_app; [by apply F1|].
    destruct (F2 c Hc) as (? & ? & Hn). rewrite H1, elem_of_app in Hn. tauto.
  - apply NoDup_app. split; [done|]. split; [|done].
    intros c Hc1 Hc2. destruct (F2 c Hc2) as (_ & _ & Hn).
    rewrite H1, elem_of_app in Hn. tauto.
  - rewrite C2, C1, <- orb_assoc. f_equal.
    destruct a1, a2; done.
Qed.

Lemma extends_fold {A} (f : list Cell * bool → A → list Cell * bool) l st :
  (∀ st x, x ∈ l → extends prot st (f st x)) → extends prot st (fold_left f l st).
Proof.
  revert st. induction l as [|x l IH]; intros st Hf; [apply extends_refl|].
  simpl. eapply extends_trans; [apply Hf; left|].
  apply IH. intros st' y Hy. apply Hf. by right.
Qed.

Lemma extends_blastStep st c : extends prot st (blastStep prot st c).
Proof.
  destruct st as [cl ch]. unfold blastStep.
  destruct (inBoundsCell c) eqn:Hin; [|apply extends_refl]. simpl.
  destruct (hasKey prot c) eqn:Hp; [apply extends_refl|].
  destruct (hasKey cl c) eqn:Hc; [apply extends_refl|].
  apply hasKey_false in Hp, Hc.
  exists [c]. simpl. split; [done|]. split; [by repeat constructor|].
  split; [apply NoDup_singleton|]. by rewrite orb_true_r.
Qed.

Lemma extends_explodeStep st k : extends prot st (explodeStep b prot st k).
Proof.
  unfold explodeStep.
  destruct (hasKey prot k); [apply extends_refl|].
  destruct (negb (inBoundsCell k)); [apply extends_refl|].
  destruct (getAt b k) as [p|]; [|apply extends_refl].
  destruct (kind p); [apply extends_refl|..];
    apply extends_fold; intros; apply extends_blastStep.
Qed.

Lemma extends_sweep clear : extends prot (clear, false) (sweep b prot clear).
Proof. apply extends_fold. intros. apply extends_explodeStep. Qed.

(** A turn either changes nothing and reports so, or adds at least one
    cell. *)
Lemma sweep_cases clear :
  sweep b prot clear = (clear, false) ∨
  ∃ c added, sweep b prot clear = (clear ++ c :: added, true) ∧
             Forall (λ c, inBoundsCell c = true ∧ (c ∉ prot) ∧ (c ∉ clear)) (c :: added) ∧
             NoDup (c :: added).
Proof.
  destruct (extends_sweep clear) as (added & H1 & HF & HN & HC).
  destruct (sweep b prot clear) as [cl ch]. simpl in *. subst cl ch.
  destruct added as [|c added].
  - left. by rewrite app_nil_r.
  - right. by exists c, added.
Qed.

Lemma missing_decreases clear c added :
  inBoundsCell c = true → c ∉ clear →
  (missing (clear ++ c :: added) < missing clear)%nat.
Proof.
  intros Hin Hc. unfold missing.
  rewrite <- (list_filter_filter_l (λ x, x ∉ clear ++ c :: added) (λ x, x ∉ clear)).
  - apply (length_filter_lt _ _ c).
    + apply list_elem_of_filter. split; [done|]. by apply elem_of_allCells.
    + intros Hn. apply Hn. rewrite elem_of_app, elem_of_cons. tauto.
  - intros x Hx Hcl. apply Hx. rewrite elem_of_app. tauto.
Qed.

(** The result of the loop: a fixed point of the turn, reached by adding
    in-bounds unprotected cells. *)
Lemma expandLoop_Some fuel clear r :
  expandLoop fuel b prot clear = Some r →
  sweep b prot r = (r, false) ∧
  ∃ added, r = clear ++ added ∧
           Forall (λ c, inBoundsCell c = true ∧ (c ∉ prot) ∧ (c ∉ clear)) added ∧
           NoDup added.
Proof.
  revert clear. induction fuel as [|fuel IH]; intros clear; [done|].
  cbn [expandLoop].
  destruct (sweep_cases clear) as [Hs|(c & added & Hs & HF & HN)]; rewrite Hs.
  - intros [= <-]. split; [done|]. exists []. rewrite app_nil_r.
    repeat split; constructor.
  - intros Hr. destruct (IH _ Hr) as (Hfix & added' & -> & HF' & HN').
    split; [done|]. exists ((c :: added) ++ added'). rewrite <- app_assoc.
    split; [done|]. rewrite Forall_forall in HF, HF'. split.
    + apply Forall_forall. intros x [Hx|Hx]%elem_of_app; [by apply HF|].
      destruct (HF' x Hx) as (? & ? & Hn). rewrite elem_of_app in Hn. tauto.
    + apply NoDup_app. split; [done|]. split; [|done].
      intros x Hx1 Hx2. destruct (HF' x Hx2) as (_ & _ & Hn).
      rewrite elem_of_app in Hn. tauto.
Qed.

(** The loop ends within [missing clear + 1] turns. *)
Lemma expandLoop_terminates fuel clear :
  (missing clear < fuel)%nat → is_Some (expandLoop fuel b prot clear).
Proof.
  revert clear. induction fuel as [|fuel IH]; intros clear Hm; [lia|].
  cbn [expandLoop].
  destruct (sweep_cases clear) as [Hs|(c & added & Hs & HF & HN)]; rewrite Hs.
  - eauto.
  - apply IH. apply Forall_cons in HF as [(Hin & _ & Hc) _].
    pose proof (missing_decreases clear c added Hin Hc). lia.
Qed.

Lemma expand_total clear : is_Some (expandWithSpecialExplosions b clear prot).
Proof.
  apply expandLoop_terminates. unfold missing.
  eapply Nat.le_lt_trans; [apply length_filter|].
  assert (length allCells = 64%nat) as -> by reflexivity.
  change (Z.to_nat (GRID * GRID)) with 64%nat. lia.
Qed.

(** At a fixed point every exploding cell has its blast area in the
    clear set, up to the cells that are out of bounds or protected. *)
Lemma fold_fixed {A} (f : list Cell * bool → A → list Cell * bool) l r :
  (∀ st x, extends prot st (f st x)) →
  fold_left f l (r, false) = (r, false) →
  ∀ x, x ∈ l → f (r, false) x = (r, false).
Proof.
  intros Hext. induction l as [|y l IH]; intros Hfold x Hx; [by apply elem_of_nil in Hx|].
  simpl in Hfold.
  assert (f (r, false) y = (r, false)) as Hy.
  { destruct (Hext (r, false) y) as (a1 & H1 & _ & _ & C1).
    destruct (extends_fold f l (f (r, false) y)) as (a2 & H2 & _ & _ & C2);
      [intros; apply Hext|].
    rewrite Hfold in H2, C2. simpl in *.
    destruct (f (r, false) y) as [cl ch]. simpl in *. subst cl.
    rewrite <- app_assoc in H2.
    assert (a1 ++ a2 = []) as Hnil.
    { apply (f_equal length) in H2. rewrite !length_app in H2.
      apply length_zero_iff_nil. rewrite length_app. lia. }
    apply app_eq_nil in Hnil as [-> ->]. rewrite app_nil_r. subst ch. done. }
  apply elem_of_cons in Hx as [->|Hx]; [done|].
  apply IH; [|done]. by rewrite Hy in Hfold.
Qed.

Lemma explodeStep_special st k p :
  hasKey prot k = false → inBoundsCell k = true → getAt b k = Some p →
  explodeStep b prot st k =
    match kind p with
    | NORMAL => st
    | ROCKET => fold_left (blastStep prot) (rocketArea k) st
    | BOMB => fold_left (blastStep prot) (bombArea k) st
    end.
Proof. intros Hk Hin Hp. unfold explodeStep. by rewrite Hk, Hin, Hp. Qed.

Lemma blastStep_fixed r c :
  blastStep prot (r, false) c = (r, false) →
  inBoundsCell c = true → c ∉ prot → c ∈ r.
Proof.
  intros Hb Hcin Hcp. unfold blastStep in Hb.
  apply hasKey_false in Hcp. rewrite Hcin, Hcp in Hb. cbn [negb] in Hb.
  destruct (hasKey r c) eqn:Hr; [by apply hasKey_true|done].
Qed.

Lemma sweep_fixed_closed r k p c :
  sweep b prot r = (r, false) →
  k ∈ r → k ∉ prot → inBoundsCell k = true → getAt b k = Some p →
  c ∈ match kind p with
      | NORMAL => []
      | ROCKET => rocketArea k
      | BOMB => bombArea k
      end →
  inBoundsCell c = true → c ∉ prot → c ∈ r.
Proof.
  intros Hfix Hk Hkp Hkin Hp Hc Hcin Hcp.
  pose proof (fold_fixed (explodeStep b prot) r r
                (λ st x, extends_explodeStep st x) Hfix k Hk) as Hstep.
  apply hasKey_false in Hkp.
  rewrite (explodeStep_special _ _ p Hkp Hkin Hp) in Hstep.
  assert (∀ area, c ∈ area →
            fold_left (blastStep prot) area (r, false) = (r, false) → c ∈ r) as Harea.
  { intros area Hca Hfold. apply blastStep_fixed; [|done..].
    by apply (fold_fixed (blastStep prot) area r
                (λ st x, extends_blastStep st x) Hfold c Hca). }
  destruct (kind p); [by apply elem_of_nil in Hc|by eapply Harea..].
Qed.

(** The content of the protected cells plays no part. *)
Lemma expandLoop_protected_irrelevant b' fuel clear :
  (∀ c, c ∉ prot → getAt b' c = getAt b c) →
  expandLoop fuel b' prot clear = expandLoop fuel b prot clear.
Proof.
  intros Hagree.
  assert (∀ st k, explodeStep b' prot st k = explodeStep b prot st k) as Hstep.
  { intros st k. unfold explodeStep. destruct (hasKey prot k) eqn:Hk; [done|].
    apply hasKey_false in Hk. by rewrite Hagree. }
  assert (∀ cl, sweep b' prot cl = sweep b prot cl) as Hsweep.
  { intros cl. unfold sweep. generalize (cl, false).
    induction cl as [|x l IH]; intros st; [done|]. cbn [fold_left].
    by rewrite Hstep, IH. }
  revert clear. induction fuel as [|fuel IH]; intros clear; [done|].
  cbn [expandLoop]. rewrite Hsweep.
  destruct (sweep b prot clear) as [cl [|]]; [apply IH|done].
Qed.

End Expansion.

(** C9.  For every initial clear set and every set of protected cells the
    chain expander returns a clear set [r] that is a fixed point: one more
    turn of its loop adds nothing, so running the expander on [r] returns
    [r], and every unprotected special piece in [r] has the in-bounds
    unprotected cells of its blast area in [r].  [r] is the initial set
    followed by added cells, none of which is protected; and the pieces
    on protected cells play no part (any other content of the protected
    cells gives the same result). *)
Theorem chain_expansion_fixed_point b clearKeys protectedKeys :
  ∃ r, expandWithSpecialExplosions b clearKeys protectedKeys = Some r ∧
    sweep b protectedKeys r = (r, false) ∧
    expandWithSpecialExplosions b r protectedKeys = Some r ∧
    (∃ added, r = clearKeys ++ added ∧
       Forall (λ c, inBoundsCell c = true ∧ (c ∉ protectedKeys) ∧ (c ∉ clearKeys)) added) ∧
    (∀ c, c ∈ r → c ∈ protectedKeys → c ∈ clearKeys) ∧
    (∀ k p c, k ∈ r → k ∉ protectedKeys → inBoundsCell k = true →
       getAt b k = Some p →
       c ∈ match kind p with
           | NORMAL => []
           | ROCKET => rocketArea k
           | BOMB => bombArea k
           end →
       inBoundsCell c = true → c ∉ protectedKeys → c ∈ r) ∧
    (∀ b', (∀ c, c ∉ protectedKeys → getAt b' c = getAt b c) →
       expandWithSpecialExplosions b' clearKeys protectedKeys = Some r).
Proof.
  destruct (expand_total b protectedKeys clearKeys) as [r Hr].
  exists r. split; [done|].
  destruct (expandLoop_Some b protectedKeys _ _ _ Hr) as (Hfix & added & -> & HF & HN).
  split; [done|]. split; [|split; [|split; [|split]]].
  - unfold expandWithSpecialExplosions. cbn [expandLoop]. by rewrite Hfix.
  - exists added. done.
  - intros c [Hc|Hc]%elem_of_app Hp; [done|].
    rewrite Forall_forall in HF. destruct (HF c Hc) as (_ & Hn & _). done.
  - intros k p c. by apply sweep_fixed_closed.
  - intros b' Hagree. unfold expandWithSpecialExplosions.
    by rewrite (expandLoop_protected_irrelevant b protectedKeys b').
Qed.

(** ** Run detector *)

Section ScanLine.

Variable getc : Z → option nat.
Variable mk : Z → Cell.
Variable d : Dir.

Lemma validRun_mono bound bound' r : bound ≤ bound' → validRun getc bound r → validRun getc bound' r.
Proof. destruct r as [[s len] c]. unfold validRun. intros ? (? & ? & ? & ?). repeat split; [lia..|done]. Qed.

Lemma runIndices_bound bound runs j :
  Forall (validRun getc bound) runs → j ∈ runIndices runs → 0 ≤ j < bound.
Proof.
  unfold runIndices. rewrite Forall_forall. intros Hv Hj.
  apply list_elem_of_bind in Hj as ([[s len] c] & Hj & Hr). simpl in Hj.
  apply elem_of_seqZ in Hj. destruct (Hv _ Hr) as (? & ? & ? & _). lia.
Qed.

Lemma scanStep_inv segs0 i st :
  0 ≤ i → scanInv getc mk d segs0 i st → scanInv getc mk d segs0 (i + 1) (scanStep getc mk d st i).
Proof.
  destruct st as [[rc rs] segs]. intros Hi (Hrs & Hcol & runs & Hsegs & Hval & Hnd).
  unfold scanStep. fold (scanColor getc i).
  case_bool_decide as Hc.
  - split; [lia|]. split; [|by exists runs].
    intros j Hj. destruct (decide (j = i)) as [->|]; [done|]. apply Hcol. lia.
  - split; [lia|]. split.
    { intros j Hj. by replace j with i by lia. }
    destruct rc as [c0|].
    + destruct (Z.leb_spec 3 (i - rs)) as [Hlen|Hlen].
      * exists (runs ++ [(rs, i - rs, c0)]).
        rewrite fmap_app, app_assoc, Hsegs. split; [done|]. split.
        -- apply Forall_app. split.
           ++ eapply Forall_impl; [exact Hval|]. intros r. apply validRun_mono. lia.
           ++ apply Forall_singleton. repeat split; [lia..|].
              intros j Hj. apply Hcol. lia.
        -- unfold runIndices. rewrite bind_app. apply NoDup_app.
           split; [done|]. split.
           ++ intros j Hj1 Hj2. pose proof (runIndices_bound _ _ _ Hval Hj1).
              simpl in Hj2. rewrite app_nil_r in Hj2. apply elem_of_seqZ in Hj2. lia.
           ++ simpl. rewrite app_nil_r. apply NoDup_seqZ.
      * exists runs. split; [done|]. split; [|done].
        eapply Forall_impl; [exact Hval|]. intros r. apply validRun_mono. lia.
    + exists runs. split; [done|]. split; [|done].
      eapply Forall_impl; [exact Hval|]. intros r. apply validRun_mono. lia.
Qed.

(** What one scan of a line appends: runs of at least 3 cells of one
    color, inside the line, on disjoint ranges of indices. *)
Lemma scanLine_spec segs0 :
  ∃ runs, scanLine getc mk d segs0 = segs0 ++ (segmentOfRun mk d <$> runs) ∧
          Forall (validRun getc GRID) runs ∧ NoDup (runIndices runs).
Proof.
  unfold scanLine.
  assert (scanInv getc mk d segs0 (GRID + 1)
            (fold_left (scanStep getc mk d) (seqZ 0 (GRID + 1)) (None, 0, segs0))) as Hinv.
  { assert (∀ n : nat, scanInv getc mk d segs0 (Z.of_nat n)
              (fold_left (scanStep getc mk d) (seqZ 0 (Z.of_nat n)) (None, 0, segs0))) as Hn.
    { induction n as [|n IH].
      - simpl. split; [lia|]. split; [intros; lia|].
        exists []. rewrite app_nil_r. repeat split; constructor.
      - rewrite seqZ_S, fold_left_app. cbn [fold_left].
        replace (Z.of_nat (S n)) with (Z.of_nat n + 1) by lia.
        rewrite Z.add_0_l. apply scanStep_inv; [lia|done]. }
    apply (Hn 9%nat). }
  destruct (fold_left _ _ _) as [[rc rs] segs].
  destruct Hinv as (Hrs & Hcol & runs & -> & Hval & Hnd).
  exists runs. split; [done|]. split; [|done].
  eapply Forall_impl; [exact Hval|]. intros [[s len] c] (? & ? & ? & Hc).
  repeat split; [lia..| |done].
  specialize (Hc (s + len - 1)). unfold scanColor in Hc.
  destruct (Z.ltb_spec (s + len - 1) GRID); [lia|]. discriminate Hc. lia.
Qed.

End ScanLine.

Section ScanLines.

(** [getc k j] is the color at index [j] of line [k], [mk k j] its cell. *)
Variable getc : Z → Z → option nat.
Variable mk : Z → Z → Cell.
Variable d : Dir.
Hypothesis mk_inj : ∀ k j k' j', mk k j = mk k' j' → k = k' ∧ j = j'.

Lemma cells_segmentOfRun k runs :
  (segmentOfRun (mk k) d <$> runs) ≫= cells = mk k <$> runIndices runs.
Proof.
  unfold runIndices. induction runs as [|[[s len] c] runs IH]; [done|].
  rewrite fmap_cons, !bind_cons, fmap_app, IH. done.
Qed.

Lemma scanLines_spec segs0 :
  ∃ new, fold_left (λ segs k, scanLine (getc k) (mk k) d segs) (seqZ 0 GRID) segs0
           = segs0 ++ new ∧
         Forall (lineRun getc mk d) new ∧ NoDup (new ≫= cells).
Proof.
  assert (∀ n : nat, (n ≤ 8)%nat → ∃ new,
            fold_left (λ segs k, scanLine (getc k) (mk k) d segs)
                      (seqZ 0 (Z.of_nat n)) segs0 = segs0 ++ new ∧
            Forall (lineRun getc mk d) new ∧ NoDup (new ≫= cells) ∧
            ∀ c, c ∈ new ≫= cells → ∃ k j, c = mk k j ∧ 0 ≤ k < Z.of_nat n) as Hn.
  { induction n as [|n IH]; intros Hle.
    - exists []. rewrite app_nil_r. simpl. split; [done|]. split; [constructor|].
      split; [constructor|]. intros c Hc. by apply elem_of_nil in Hc.
    - destruct IH as (new & Hfold & Hruns & Hnd & Hk); [lia|].
      rewrite seqZ_S, fold_left_app, Hfold, Z.add_0_l. cbn [fold_left].
      destruct (scanLine_spec (getc (Z.of_nat n)) (mk (Z.of_nat n)) d (segs0 ++ new))
        as (runs & -> & Hval & Hndr).
      exists (new ++ (segmentOfRun (mk (Z.of_nat n)) d <$> runs)).
      rewrite app_assoc. split; [done|]. split; [|split].
      + apply Forall_app. split; [done|]. apply Forall_fmap.
        eapply Forall_impl; [exact Hval|]. intros [[s len] c] (? & ? & ? & Hc).
        exists (Z.of_nat n), s, len, c. unfold GRID in *.
        repeat split; [lia..|].
        intros j Hj. specialize (Hc j Hj). unfold scanColor in Hc.
        by destruct (j <? GRID).
      + rewrite bind_app, cells_segmentOfRun. apply NoDup_app. split; [done|]. split.
        * intros c Hc1 Hc2. destruct (Hk c Hc1) as (k & j & -> & Hkn).
          apply list_elem_of_fmap in Hc2 as (j' & Heq & _).
          apply mk_inj in Heq. lia.
        * apply NoDup_fmap_2_strong; [|done].
          intros j j' _ _ Heq. apply mk_inj in Heq. tauto.
      + intros c. rewrite bind_app, cells_segmentOfRun.
        intros [Hc|Hc]%elem_of_app.
        * destruct (Hk c Hc) as (k & j & -> & Hkn). exists k, j. split; [done|lia].
        * apply list_elem_of_fmap in Hc as (j & -> & _).
          exists (Z.of_nat n), j. split; [done|lia]. }
  destruct (Hn 8%nat) as (new & Hfold & Hruns & Hnd & _); [lia|].
  exists new. done.
Qed.

End ScanLines.

(** The detector returns horizontal runs followed by vertical runs; the
    horizontal runs are pairwise disjoint, and so are the vertical ones. *)
Lemma findMatchSegments_spec b :
  ∃ hs vs, findMatchSegments b = hs ++ vs ∧
           Forall (rowRun b) hs ∧ Forall (colRun b) vs ∧
           NoDup (hs ≫= cells) ∧ NoDup (vs ≫= cells).
Proof.
  unfold findMatchSegments, scanRows, scanCols.
  destruct (scanLines_spec (λ y x, colorAt b x y) (λ y x, (x, y)) DirH) with (segs0 := @nil MatchSegment)
    as (hs & Hh & Hhr & Hhn).
  { intros k j k' j' [= -> ->]. done. }
  rewrite app_nil_l in Hh. rewrite Hh.
  destruct (scanLines_spec (λ x y, colorAt b x y) (λ x y, (x, y)) DirV) with (segs0 := hs)
    as (vs & Hv & Hvr & Hvn).
  { intros k j k' j' [= -> ->]. done. }
  rewrite Hv. by exists hs, vs.
Qed.

(** The cells of a run are cells of the grid that hold a piece of the
    color of the run, and there are at least 3 of them. *)
Lemma run_cells b seg :
  rowRun b seg ∨ colRun b seg →
  (3 ≤ length (cells seg))%nat ∧
  ∀ c, c ∈ cells seg →
       inBoundsCell c = true ∧ color <$> getAt b c = Some (seg_color seg).
Proof.
  intros [(k & s & len & c0 & Hk & Hs & Hlen & Hb & -> & Hc)
         |(k & s & len & c0 & Hk & Hs & Hlen & Hb & -> & Hc)]; simpl.
  - rewrite length_fmap, length_seqZ. split; [lia|].
    intros c (j & -> & Hj%elem_of_seqZ)%list_elem_of_fmap.
    split; [apply inBoundsCell_spec; simpl; lia|]. by apply Hc.
  - rewrite length_fmap, length_seqZ. split; [lia|].
    intros c (j & -> & Hj%elem_of_seqZ)%list_elem_of_fmap.
    split; [apply inBoundsCell_spec; simpl; lia|]. by apply Hc.
Qed.

(** ** Collapse and refill *)

Lemma shapeOf_emptyBoard_inRange next x y :
  shapeOf next = shapeOf emptyBoard → isInBounds x y = true → inRange next x y.
Proof.
  intros Hs Hin. apply isInBounds_spec in Hin as [Hx Hy]. unfold GRID in *.
  eapply inRange_shape; [symmetry; exact Hs|].
  split; [lia|]. split; [lia|].
  exists (replicate (Z.to_nat GRID) None). split.
  - unfold emptyBoard. apply lookup_replicate_2. unfold GRID. lia.
  - rewrite length_replicate. unfold GRID. lia.
Qed.

Section Collapse.

Variable rand : nat → nat.

(** The first inner loop of column [x]: the cells below [writeY] down to
    the bottom row are occupied, the other columns are untouched. *)
Lemma dropLoop_spec bd x next :
  0 ≤ x < GRID → shapeOf next = shapeOf emptyBoard →
  ∃ next1 writeY,
    fold_left (dropStep bd x) (reverse (seqZ 0 GRID)) (next, GRID - 1) = (next1, writeY) ∧
    -1 ≤ writeY ≤ GRID - 1 ∧
    shapeOf next1 = shapeOf emptyBoard ∧
    (∀ y, writeY < y < GRID → is_Some (getCell next1 x y)) ∧
    (∀ x' y, x' ≠ x → getCell next1 x' y = getCell next x' y).
Proof.
  intros Hx Hshape.
  pose (P := λ (st : Board * Z) (pre : list Z),
    GRID - 1 - Z.of_nat (length pre) ≤ st.2 ≤ GRID - 1 ∧
    shapeOf st.1 = shapeOf emptyBoard ∧
    (∀ y, st.2 < y < GRID → is_Some (getCell st.1 x y)) ∧
    (∀ x' y, x' ≠ x → getCell st.1 x' y = getCell next x' y)).
  assert (P (fold_left (dropStep bd x) (reverse (seqZ 0 GRID)) (next, GRID - 1))
            (reverse (seqZ 0 GRID))) as HP.
  { apply fold_left_inv.
    - unfold P. simpl. split; [lia|]. split; [done|]. split; [intros; lia|done].
    - intros [nx wy] pre y suf Hl (Hwy & Hsh & Hfull & Hother). simpl in *.
      assert (length pre < 8)%nat as Hpre.
      { apply (f_equal length) in Hl.
        rewrite length_reverse, length_seqZ, length_app in Hl. simpl in Hl.
        unfold GRID in Hl. lia. }
      unfold P, dropStep. rewrite length_app. simpl.
      destruct (getCell bd x y) as [p|]; simpl.
      + unfold GRID in *. split; [lia|]. split; [by rewrite shapeOf_setCell|].
        split.
        * intros y' Hy'. destruct (decide (y' = wy)) as [->|Hne].
          -- rewrite getCell_setCell_eq; [eauto|].
             apply shapeOf_emptyBoard_inRange; [done|].
             apply isInBounds_spec. unfold GRID. lia.
          -- rewrite getCell_setCell_ne by congruence. apply Hfull. lia.
        * intros x' y' Hx'. rewrite getCell_setCell_ne by congruence. by apply Hother.
      + split; [lia|]. split; [done|]. split; [done|done]. }
  destruct (fold_left _ _ _) as [next1 writeY]. destruct HP as (Hwy & Hsh & Hfull & Hother).
  rewrite length_reverse, length_seqZ in Hwy.
  cbn [fst snd] in *. exists next1, writeY. split; [done|]. split; [|done].
  unfold GRID in *. lia.
Qed.

(** The second inner loop of column [x]: the cells from [writeY] up to
    the top row get a piece. *)
Lemma fillLoop_spec x writeY next g :
  0 ≤ x < GRID → -1 ≤ writeY ≤ GRID - 1 → shapeOf next = shapeOf emptyBoard →
  ∃ next2 g2,
    fold_left (fillStep rand x) (reverse (seqZ 0 (writeY + 1))) (next, g) = (next2, g2) ∧
    shapeOf next2 = shapeOf emptyBoard ∧
    (∀ y, 0 ≤ y ≤ writeY → is_Some (getCell next2 x y)) ∧
    (∀ x' y, (x' ≠ x ∨ writeY < y) → getCell next2 x' y = getCell next x' y).
Proof.
  intros Hx Hwy Hshape.
  pose (P := λ (st : Board * Game) (pre : list Z),
    shapeOf st.1 = shapeOf emptyBoard ∧
    (∀ y, y ∈ pre → is_Some (getCell st.1 x y)) ∧
    (∀ x' y, (x' ≠ x ∨ y ∉ pre) → getCell st.1 x' y = getCell next x' y)).
  assert (P (fold_left (fillStep rand x) (reverse (seqZ 0 (writeY + 1))) (next, g))
            (reverse (seqZ 0 (writeY + 1)))) as HP.
  { apply fold_left_inv.
    - unfold P. simpl. split; [done|]. split; [|done].
      intros y Hy. by apply elem_of_nil in Hy.
    - intros [nx g1] pre y suf Hl (Hsh & Hfull & Hother). simpl in *.
      assert (0 ≤ y ≤ writeY) as Hy.
      { assert (y ∈ reverse (seqZ 0 (writeY + 1))) as Hin
          by (rewrite Hl, elem_of_app, elem_of_cons; tauto).
        apply elem_of_reverse, elem_of_seqZ in Hin. lia. }
      unfold P, fillStep. simpl.
      split; [by rewrite shapeOf_setCell|]. split.
      + intros y' [Hy'| ->%list_elem_of_singleton]%elem_of_app.
        * destruct (decide (y' = y)) as [->|Hne].
          -- rewrite getCell_setCell_eq; [eauto|].
             apply shapeOf_emptyBoard_inRange; [done|].
             apply isInBounds_spec. unfold GRID in *. lia.
          -- rewrite getCell_setCell_ne by congruence. by apply Hfull.
        * rewrite getCell_setCell_eq; [eauto|].
          apply shapeOf_emptyBoard_inRange; [done|].
          apply isInBounds_spec. unfold GRID in *. lia.
      + intros x' y' Hxy. rewrite getCell_setCell_ne.
        * apply Hother. rewrite elem_of_app, list_elem_of_singleton in Hxy. tauto.
        * rewrite elem_of_app, list_elem_of_singleton in Hxy.
          intros [= -> ->]. tauto. }
  destruct (fold_left _ _ _) as [next2 g2]. destruct HP as (Hsh & Hfull & Hother).
  simpl in *. exists next2, g2. split; [done|]. split; [done|]. split.
  - intros y Hy. apply Hfull. apply elem_of_reverse, elem_of_seqZ. lia.
  - intros x' y Hxy. apply Hother. destruct Hxy as [?|Hy]; [by left|right].
    rewrite elem_of_reverse, elem_of_seqZ. lia.
Qed.

(** One column: afterwards the whole column is occupied and the other
    columns are as before. *)
Lemma collapseColumn_spec bd x next g :
  0 ≤ x < GRID → shapeOf next = shapeOf emptyBoard →
  ∃ next2 g2,
    collapseColumn rand bd (next, g) x = (next2, g2) ∧
    shapeOf next2 = shapeOf emptyBoard ∧
    (∀ y, 0 ≤ y < GRID → is_Some (getCell next2 x y)) ∧
    (∀ x' y, x' ≠ x → getCell next2 x' y = getCell next x' y).
Proof.
  intros Hx Hshape. unfold collapseColumn.
  destruct (dropLoop_spec bd x next Hx Hshape)
    as (next1 & writeY & -> & Hwy & Hsh1 & Hfull1 & Hother1).
  destruct (fillLoop_spec x writeY next1 g Hx Hwy Hsh1)
    as (next2 & g2 & -> & Hsh2 & Hfull2 & Hother2).
  exists next2, g2. split; [done|]. split; [done|]. split.
  - intros y Hy. destruct (decide (y ≤ writeY)) as [Hle|Hgt].
    + apply Hfull2. lia.
    + rewrite Hother2 by (right; lia). apply Hfull1. lia.
  - intros x' y Hx'. rewrite Hother2 by (by left). by apply Hother1.
Qed.

(** Whatever the board was, after [collapseAndFillAnimated]
    the board has [GRID] rows of [GRID] cells and every cell holds a
    piece. *)
Lemma collapseAndFillAnimated_full g :
  shapeOf (board (collapseAndFillAnimated rand g)) = shapeOf emptyBoard ∧
  fullBoard (board (collapseAndFillAnimated rand g)).
Proof.
  unfold collapseAndFillAnimated.
  pose (P := λ (st : Board * Game) (pre : list Z),
    shapeOf st.1 = shapeOf emptyBoard ∧
    ∀ x y, x ∈ pre → 0 ≤ y < GRID → is_Some (getCell st.1 x y)).
  assert (P (fold_left (collapseColumn rand (board g)) (seqZ 0 GRID) (emptyBoard, g))
            (seqZ 0 GRID)) as HP.
  { apply fold_left_inv.
    - split; [done|]. intros x y Hx. by apply elem_of_nil in Hx.
    - intros [nx g1] pre x suf Hl (Hsh & Hfull). cbn [fst snd] in *.
      assert (0 ≤ x < GRID) as Hx.
      { assert (x ∈ seqZ 0 GRID) as Hin
          by (rewrite Hl, elem_of_app, elem_of_cons; tauto).
        apply elem_of_seqZ in Hin. lia. }
      destruct (collapseColumn_spec (board g) x nx g1 Hx Hsh)
        as (next2 & g2 & Heq & Hsh2 & Hfull2 & Hother2).
      unfold P. rewrite Heq. cbn [fst snd].
      split; [done|].
      intros x' y [Hx'| ->%list_elem_of_singleton]%elem_of_app Hy.
      + destruct (decide (x' = x)) as [->|Hne]; [by apply Hfull2|].
        rewrite Hother2 by done. by apply Hfull.
      + by apply Hfull2. }
  destruct (fold_left _ _ _) as [next g1]. destruct HP as [Hsh Hfull].
  cbn [fst snd board withBoard] in *.
  split; [done|]. intros x y Hin. apply isInBounds_spec in Hin as [Hx Hy].
  apply Hfull; [|done]. apply elem_of_seqZ. lia.
Qed.

End Collapse.

(** ** The clear set of a pass is never empty *)

Lemma clearKeysOfSegments_spec segs prot :
  NoDup (clearKeysOfSegments segs prot) ∧
  ∀ k, k ∈ clearKeysOfSegments segs prot ↔ k ∈ segs ≫= cells ∧ k ∉ prot.
Proof.
  unfold clearKeysOfSegments.
  apply (fold_left_inv (λ ck pre, NoDup ck ∧ ∀ k, k ∈ ck ↔ k ∈ pre ≫= cells ∧ k ∉ prot)).
  - split; [constructor|]. intros k. simpl. rewrite elem_of_nil. tauto.
  - intros ck pre seg suf _ [Hnd Hin]. rewrite bind_app. simpl. rewrite app_nil_r.
    revert ck Hnd Hin. generalize (pre ≫= cells) as done_. 
    induction (cells seg) as [|c cs IH]; intros done_ ck Hnd Hin.
    + simpl. rewrite app_nil_r. done.
    + cbn [fold_left].
      replace (done_ ++ c :: cs) with ((done_ ++ [c]) ++ cs) by (by rewrite <- app_assoc).
      apply IH.
      * destruct (hasKey prot c); [done|by apply NoDup_addKey].
      * intros k. rewrite elem_of_app, list_elem_of_singleton.
        destruct (hasKey prot c) eqn:Hp.
        -- apply hasKey_true in Hp. rewrite Hin. split; [tauto|].
           intros [[?| ->] ?]; tauto.
        -- apply hasKey_false in Hp. rewrite addKey_spec, Hin. split.
           ++ intros [[? ?]| ->]; tauto.
           ++ intros [[?| ->] ?]; tauto.
Qed.

Lemma length_bind_cells (segs : list MatchSegment) :
  Forall (λ seg, (3 ≤ length (cells seg))%nat) segs →
  (3 * length segs ≤ length (segs ≫= cells))%nat.
Proof.
  induction 1 as [|seg segs Hseg _ IH]; [done|].
  rewrite bind_cons, length_app. simpl. lia.
Qed.

(** There are more cells in the runs than creations: some cell of a run
    is not protected. *)
Lemma some_run_cell_unprotected b prefs :
  findMatchSegments b ≠ [] →
  ∃ c, c ∈ findMatchSegments b ≫= cells ∧
       c ∉ cr_cell <$> computeSpecialCreations b (findMatchSegments b) prefs.
Proof.
  intros Hne.
  destruct (findMatchSegments_spec b) as (hs & vs & Hsegs & Hh & Hv & Hhn & Hvn).
  destruct (computeSpecialCreations_inv b (findMatchSegments b) prefs) as (_ & _ & _ & Hlen).
  set (prot := cr_cell <$> computeSpecialCreations b (findMatchSegments b) prefs).
  assert (length prot ≤ length hs + length vs)%nat as Hprot.
  { unfold prot. rewrite length_fmap.
    assert (length (findMatchSegments b) = length hs + length vs)%nat
      by (by rewrite Hsegs, length_app).
    lia. }
  destruct (decide (Forall (λ c, c ∈ prot) (findMatchSegments b ≫= cells)))
    as [Hall|Hnot].
  - exfalso. rewrite Hsegs, bind_app, Forall_app in Hall. destruct Hall as [Hah Hav].
    rewrite Forall_forall in Hah, Hav.
    assert (3 * length hs ≤ length prot)%nat as H1.
    { etrans; [apply length_bind_cells|].
      - eapply Forall_impl; [exact Hh|]. intros seg Hs.
        by destruct (run_cells b seg (or_introl Hs)).
      - apply submseteq_length, NoDup_submseteq; done. }
    assert (3 * length vs ≤ length prot)%nat as H2.
    { etrans; [apply length_bind_cells|].
      - eapply Forall_impl; [exact Hv|]. intros seg Hs.
        by destruct (run_cells b seg (or_intror Hs)).
      - apply submseteq_length, NoDup_submseteq; done. }
    apply Hne. rewrite Hsegs.
    assert (length hs = 0%nat) as ->%length_zero_iff_nil by lia.
    assert (length vs = 0%nat) as ->%length_zero_iff_nil by lia.
    done.
  - apply not_Forall_Exists in Hnot; [|apply _].
    apply Exists_exists in Hnot as (c & Hc & Hn). by exists c.
Qed.

Lemma findMatchSegments_cells b c :
  c ∈ findMatchSegments b ≫= cells → inBoundsCell c = true ∧ is_Some (getAt b c).
Proof.
  intros (seg & Hc & Hseg)%list_elem_of_bind.
  destruct (findMatchSegments_spec b) as (hs & vs & Hsegs & Hh & Hv & _).
  rewrite Hsegs, elem_of_app in Hseg. rewrite Forall_forall in Hh, Hv.
  assert (rowRun b seg ∨ colRun b seg) as Hrun by (destruct Hseg; [left|right]; auto).
  destruct (run_cells b seg Hrun) as [_ Hcells].
  destruct (Hcells c Hc) as [Hin Hcol]. split; [done|].
  destruct (getAt b c); [eauto|done].
Qed.

(** The pieces on the grid before and after cells are emptied. *)
Lemma pieceCount_emptied b b' :
  (∀ c, is_Some (getAt b' c) → is_Some (getAt b c)) →
  pieceCount b = (pieceCount b' + length (emptiedCells b b'))%nat.
Proof.
  intros Hsub. unfold pieceCount, emptiedCells.
  induction allCells as [|c l IH]; [done|].
  rewrite !filter_cons.
  destruct (decide (is_Some (getAt b c))) as [Hb|Hb];
    destruct (decide (is_Some (getAt b' c))) as [Hb'|Hb'];
    destruct (decide (is_Some (getAt b c) ∧ getAt b' c = None)) as [Hd|Hd];
    simpl; try lia; try (exfalso; apply Hb; by apply Hsub); try tauto.
  - destruct Hd as [_ Hn]. rewrite Hn in Hb'. by destruct Hb'.
  - exfalso. apply Hd. split; [done|]. destruct (getAt b' c); [|done].
    exfalso. apply Hb'. eauto.
Qed.

(** ** One pass of the cascade *)

Section Cascade.

Variable rand : nat → nat.

(** A pass either finds no run and breaks, or clears at least one piece
    and goes on; the break on an empty [willClear] is never taken. *)
Lemma resolvePass_cases prefs g :
  (findMatchSegments (board g) = [] ∧ resolvePass rand prefs g = Some (PassBreak g)) ∨
  (findMatchSegments (board g) ≠ [] ∧
   ∃ keys creations,
     NoDup keys ∧ (1 ≤ length (willClearOf (board g) keys))%nat ∧
     resolvePass rand prefs g =
       Some (PassAgain (afterPass rand g (willClearOf (board g) keys) creations))).
Proof.
  unfold resolvePass.
  destruct (findMatchSegments (board g)) as [|s0 segs0] eqn:Hsegs.
  { left. done. }
  right. split; [done|]. rewrite <- Hsegs.
  rewrite bool_decide_eq_false_2 by (by rewrite Hsegs).
  set (creations := computeSpecialCreations (board g) (findMatchSegments (board g)) prefs).
  set (prot := cr_cell <$> creations).
  set (clear0 := clearKeysOfSegments (findMatchSegments (board g)) prot).
  destruct (expand_total (board g) prot clear0) as [r Hr]. rewrite Hr.
  destruct (expandLoop_Some (board g) prot _ _ _ Hr) as (_ & added & -> & HF & HN).
  destruct (clearKeysOfSegments_spec (findMatchSegments (board g)) prot) as [Hnd0 Hin0].
  fold clear0 in Hnd0, Hin0.
  assert (NoDup (clear0 ++ added)) as Hnd.
  { apply NoDup_app. split; [done|]. split; [|done].
    intros c Hc1 Hc2. rewrite Forall_forall in HF. by destruct (HF c Hc2) as (_ & _ & ?). }
  assert (1 ≤ length (willClearOf (board g) (clear0 ++ added)))%nat as Hlen.
  { destruct (some_run_cell_unprotected (board g) prefs) as (c & Hc & Hp);
      [by rewrite Hsegs|].
    fold creations prot in Hp.
    destruct (findMatchSegments_cells (board g) c Hc) as [Hcin Hocc].
    rewrite length_willClearOf.
    assert (c ∈ filter (clearable (board g)) (clear0 ++ added)) as Hcf.
    { apply list_elem_of_filter. split; [done|].
      rewrite elem_of_app. left. by apply Hin0. }
    destruct (filter _ _); [by apply elem_of_nil in Hcf|simpl; lia]. }
  exists (clear0 ++ added), creations. split; [done|]. split; [done|].
  rewrite bool_decide_eq_false_2 by lia. unfold afterPass. reflexivity.
Qed.

Lemma board_applyCreations_shape creations g :
  shapeOf (board (applyCreations creations g)) = shapeOf (board g).
Proof.
  unfold applyCreations. revert g.
  induction creations as [|cr crs IH]; intros g; [done|]. cbn [fold_left].
  rewrite IH. destruct (inBoundsCell (cr_cell cr)); [|done]. simpl.
  apply shapeOf_setAt.
Qed.

Lemma afterPass_full g willClear creations :
  shapeOf (board (afterPass rand g willClear creations)) = shapeOf emptyBoard ∧
  fullBoard (board (afterPass rand g willClear creations)).
Proof. apply collapseAndFillAnimated_full. Qed.

(** The loop returns only on a board without runs. *)
Lemma resolve_match_free fuel prefs g g' :
  resolveMatchesAnimated rand fuel prefs g = Some g' →
  findMatchSegments (board g') = [].
Proof.
  revert prefs g. induction fuel as [|fuel IH]; intros prefs g; [done|].
  cbn [resolveMatchesAnimated].
  destruct (resolvePass_cases prefs g) as [[Hq ->]|(_ & keys & crs & _ & _ & ->)].
  - by intros [= <-].
  - apply IH.
Qed.

(** After at least one pass the board is full; without a pass it is the
    board the loop was given. *)
Lemma resolve_full fuel prefs g g' :
  resolveMatchesAnimated rand fuel prefs g = Some g' →
  (findMatchSegments (board g) = [] ∧ g' = g) ∨
  (findMatchSegments (board g) ≠ [] ∧
   shapeOf (board g') = shapeOf emptyBoard ∧ fullBoard (board g')).
Proof.
  revert prefs g. induction fuel as [|fuel IH]; intros prefs g; [done|].
  cbn [resolveMatchesAnimated].
  destruct (resolvePass_cases prefs g) as [[Hq ->]|(Hne & keys & crs & _ & _ & ->)].
  - intros [= <-]. by left.
  - intros Hr. right. split; [done|].
    destruct (IH _ _ Hr) as [[_ ->]|(_ & ? & ?)]; [|done].
    apply afterPass_full.
Qed.

(** More fuel does not change a result. *)
Lemma resolve_fuel_mono fuel fuel' prefs g g' :
  (fuel ≤ fuel')%nat →
  resolveMatchesAnimated rand fuel prefs g = Some g' →
  resolveMatchesAnimated rand fuel' prefs g = Some g'.
Proof.
  revert fuel' prefs g. induction fuel as [|fuel IH]; intros fuel' prefs g Hle; [done|].
  destruct fuel' as [|fuel']; [lia|]. cbn [resolveMatchesAnimated].
  destruct (resolvePass rand prefs g) as [[g1|g1]|]; [done| |done].
  apply IH. lia.
Qed.

End Cascade.

(** ** The board factory makes no run *)

Lemma noTriple_no_segments b : noTriple b → findMatchSegments b = [].
Proof.
  intros [Hh Hv].
  destruct (findMatchSegments_spec b) as (hs & vs & -> & Hhs & Hvs & _).
  destruct hs as [|seg hs].
  - destruct vs as [|seg vs]; [done|]. exfalso.
    apply Forall_cons in Hvs as [(k & s & len & c & _ & _ & Hlen & _ & _ & Hc) _].
    apply (Hv k (s + 2) c).
    + replace (s + 2 - 2) with s by lia. apply Hc. lia.
    + replace (s + 2 - 1) with (s + 1) by lia. apply Hc. lia.
    + apply Hc. lia.
  - exfalso.
    apply Forall_cons in Hhs as [(k & s & len & c & _ & _ & Hlen & _ & _ & Hc) _].
    apply (Hh (s + 2) k c).
    + replace (s + 2 - 2) with s by lia. apply Hc. lia.
    + replace (s + 2 - 1) with (s + 1) by lia. apply Hc. lia.
    + apply Hc. lia.
Qed.

Lemma getRow_Some_range row x p : getRow row x = Some p → 0 ≤ x < Z.of_nat (length row).
Proof.
  unfold getRow. destruct (Z.ltb_spec x 0); [done|].
  destruct (row !! Z.to_nat x) eqn:Hx; [|done]. intros _.
  apply lookup_lt_Some in Hx. lia.
Qed.

Lemma getRow_snoc row v x :
  getRow (row ++ [v]) x =
    if decide (x = Z.of_nat (length row)) then v else getRow row x.
Proof.
  unfold getRow. destruct (Z.ltb_spec x 0).
  - destruct (decide _); [lia|done].
  - destruct (decide (x = Z.of_nat (length row))) as [->|Hne].
    + rewrite Nat2Z.id, lookup_app_r by lia. by rewrite Nat.sub_diag.
    + destruct (decide (Z.to_nat x < length row)%nat).
      * by rewrite lookup_app_l.
      * rewrite !lookup_ge_None_2; [done|lia|]. rewrite length_app. simpl. lia.
Qed.

Lemma getCell_Some_range b x y p : getCell b x y = Some p → 0 ≤ y < Z.of_nat (length b).
Proof.
  unfold getCell. destruct (Z.ltb_spec y 0); [done|].
  destruct (b !! Z.to_nat y) eqn:Hy; [|done]. intros _.
  apply lookup_lt_Some in Hy. lia.
Qed.

Lemma getCell_snoc b row x y :
  getCell (b ++ [row]) x y =
    if decide (y = Z.of_nat (length b)) then getRow row x else getCell b x y.
Proof.
  unfold getCell. destruct (Z.ltb_spec y 0).
  - destruct (decide _); [lia|done].
  - destruct (decide (y = Z.of_nat (length b))) as [->|Hne].
    + rewrite Nat2Z.id, lookup_app_r by lia. by rewrite Nat.sub_diag.
    + destruct (decide (Z.to_nat y < length b)%nat).
      * by rewrite lookup_app_l.
      * rewrite !lookup_ge_None_2; [done|lia|]. rewrite length_app. simpl. lia.
Qed.

Lemma elem_of_forbidAdd forbid p1 p2 k :
  k ∈ forbidAdd forbid p1 p2 ↔
  k ∈ forbid ∨ ∃ a c, p1 = Some a ∧ p2 = Some c ∧ color a = color c ∧ k = color a.
Proof.
  unfold forbidAdd. destruct p1 as [a|], p2 as [c|]; try naive_solver.
  case_bool_decide as Heq; [|naive_solver].
  case_bool_decide as Hin.
  - split; [tauto|]. intros [?|(a' & c' & ? & ? & ? & ->)]; [done|]. by simplify_eq.
  - rewrite elem_of_app, list_elem_of_singleton. naive_solver.
Qed.

Lemma length_forbidAdd forbid p1 p2 :
  (length (forbidAdd forbid p1 p2) ≤ S (length forbid))%nat.
Proof.
  unfold forbidAdd. destruct p1, p2; try lia.
  repeat case_bool_decide; rewrite ?length_app; simpl; lia.
Qed.

Lemma length_forbidFor b row x y : (length (forbidFor b row x y) ≤ 2)%nat.
Proof.
  unfold forbidFor.
  pose proof (length_forbidAdd [] (getRow row (x - 1)) (getRow row (x - 2))) as H1.
  destruct (2 <=? x), (2 <=? y); simpl in *;
    try (etrans; [apply length_forbidAdd|]); simpl; lia.
Qed.

Lemma forbidFor_row b row x y k :
  color <$> getRow row (x - 2) = Some k → color <$> getRow row (x - 1) = Some k →
  k ∈ forbidFor b row x y.
Proof.
  intros H2 H1. unfold forbidFor.
  destruct (getRow row (x - 2)) as [p2|] eqn:Hp2; [|done].
  destruct (getRow row (x - 1)) as [p1|] eqn:Hp1; [|done].
  simpl in H1, H2. injection H1 as H1. injection H2 as H2.
  pose proof (getRow_Some_range _ _ _ Hp2).
  destruct (Z.leb_spec 2 x); [|lia].
  assert (k ∈ forbidAdd [] (Some p1) (Some p2)) as Hin.
  { apply elem_of_forbidAdd. right. exists p1, p2.
    repeat split; congruence. }
  destruct (2 <=? y); [|done]. apply elem_of_forbidAdd. by left.
Qed.

Lemma forbidFor_col b row x y k :
  colorAt b x (y - 2) = Some k → colorAt b x (y - 1) = Some k →
  k ∈ forbidFor b row x y.
Proof.
  unfold colorAt. intros H2 H1. unfold forbidFor.
  destruct (getCell b x (y - 2)) as [p2|] eqn:Hp2; [|done].
  destruct (getCell b x (y - 1)) as [p1|] eqn:Hp1; [|done].
  simpl in H1, H2. injection H1 as H1. injection H2 as H2.
  pose proof (getCell_Some_range _ _ _ _ Hp2).
  destruct (Z.leb_spec 2 y); [|lia].
  apply elem_of_forbidAdd. right. exists p1, p2.
  repeat split; congruence.
Qed.

Section Factory.

Variable rand : nat → nat.

(** The color picked for a cell is not one of the at most two forbidden
    colors: there are six colors, so the fallback always finds one. *)
Lemma pickColor_not_forbidden forbid g :
  (length forbid ≤ 2)%nat → (pickColor rand forbid g).1 ∉ forbid.
Proof.
  intros Hlen. unfold pickColor.
  destruct (randInt rand COLORS_length g) as [c g1].
  case_bool_decide as Hnil; [subst; simpl; by intros ?%elem_of_nil|].
  destruct (retryColor rand 12 forbid c g1) as [c2 g2].
  case_bool_decide as Hc2; [|done]. cbn [fst].
  destruct (find _ _) as [c3|] eqn:Hfind.
  - apply find_Some_elem in Hfind as [_ Hf].
    apply negb_true_iff, bool_decide_eq_false in Hf. done.
  - exfalso.
    assert (∀ n, (n < 6)%nat → n ∈ forbid) as Hall.
    { intros n Hn.
      assert (n ∈ seq 0 COLORS_length) as Hin by (apply elem_of_seq; unfold COLORS_length; lia).
      pose proof (find_None_elem _ _ n Hfind Hin) as Hf. simpl in Hf.
      apply negb_false_iff, bool_decide_eq_true in Hf. done. }
    pose proof (Hall 0%nat ltac:(lia)) as H0.
    pose proof (Hall 1%nat ltac:(lia)) as H1.
    pose proof (Hall 2%nat ltac:(lia)) as H2.
    destruct forbid as [|a [|a' [|a'' l]]]; simpl in Hlen; [done| | |lia];
      rewrite ?elem_of_cons, ?elem_of_nil in H0, H1, H2; lia.
Qed.

Lemma makeRow_inv b y g : rowInv b y (makeRow rand b y g).1.
Proof.
  unfold makeRow.
  apply (fold_left_inv (λ (st : Row * Game) (pre : list Z),
           length st.1 = length pre ∧ rowInv b y st.1)).
  - split; [done|]. split; intros i k; simpl; unfold getRow;
      destruct (_ <? 0); simpl; done.
  - intros [row g1] pre x suf Hl [Hlen [Hh Hv]]. cbn [fst snd] in *.
    assert (x = Z.of_nat (length row)) as Hx.
    { assert (seqZ 0 GRID !! length pre = Some x) as Hlk
        by (rewrite Hl, lookup_app_r, Nat.sub_diag by lia; done).
      apply lookup_seqZ in Hlk. lia. }
    pose proof (pickColor_not_forbidden (forbidFor b row x y) g1
                  (length_forbidFor b row x y)) as Hpick.
    destruct (pickColor rand (forbidFor b row x y) g1) as [c g2].
    destruct (makePiece c NORMAL g2) as [p g3] eqn:Hp.
    assert (color p = c) as Hpc by (unfold makePiece in Hp; by simplify_eq).
    cbn [fst snd] in *. split; [rewrite !length_app; simpl; lia|]. split.
    + intros i k. rewrite !getRow_snoc, <- Hx.
      destruct (decide (i = x)) as [->|Hi].
      * destruct (decide (x - 2 = x)); [lia|]. destruct (decide (x - 1 = x)); [lia|].
        intros H2 H1 H0. simpl in H0. simplify_eq.
        apply Hpick. by apply forbidFor_row.
      * assert (is_Some (getRow row i) → 0 ≤ i < Z.of_nat (length row)) as Hr
          by (intros [q Hq]; by eapply getRow_Some_range).
        destruct (decide (i - 2 = x)), (decide (i - 1 = x)).
        -- lia.
        -- intros _ _ H0. destruct (getRow row i); [|done]. destruct Hr; [eauto|lia].
        -- intros _ _ H0. destruct (getRow row i); [|done]. destruct Hr; [eauto|lia].
        -- apply Hh.
    + intros i k. rewrite getRow_snoc, <- Hx.
      destruct (decide (i = x)) as [->|Hi].
      * intros H2 H1 H0. simpl in H0. simplify_eq.
        apply Hpick. by apply forbidFor_col.
      * intros H2 H1 H0. by eapply Hv.
Qed.

Lemma makeBoard_noTriple g : noTriple (makeBoard rand g).1.
Proof.
  unfold makeBoard.
  apply (fold_left_inv (λ (st : Board * Game) (pre : list Z),
           length st.1 = length pre ∧ noTriple st.1)).
  - split; [done|]. split; intros x y k; unfold colorAt, getCell;
      destruct (_ <? 0); simpl; done.
  - intros [b g1] pre y suf Hl [Hlen [Hh Hv]]. cbn [fst snd] in *.
    assert (y = Z.of_nat (length b)) as Hy.
    { assert (seqZ 0 GRID !! length pre = Some y) as Hlk
        by (rewrite Hl, lookup_app_r, Nat.sub_diag by lia; done).
      apply lookup_seqZ in Hlk. lia. }
    pose proof (makeRow_inv b y g1) as [Hrh Hrv].
    destruct (makeRow rand b y g1) as [row g2]. cbn [fst snd] in *.
    split; [rewrite !length_app; simpl; lia|]. split.
    + intros x y' k. unfold colorAt. rewrite !getCell_snoc, <- Hy.
      destruct (decide (y' = y)) as [->|Hne]; [apply Hrh|apply Hh].
    + intros x y' k. unfold colorAt. rewrite !getCell_snoc, <- Hy.
      destruct (decide (y' = y)) as [->|Hne].
      * destruct (decide (y - 2 = y)); [lia|]. destruct (decide (y - 1 = y)); [lia|].
        apply Hrv.
      * assert (is_Some (getCell b x y') → 0 ≤ y' < Z.of_nat (length b)) as Hr
          by (intros [q Hq]; by eapply getCell_Some_range).
        destruct (decide (y' - 2 = y)), (decide (y' - 1 = y)).
        -- lia.
        -- intros _ _ H0. destruct (getCell b x y'); [|done]. destruct Hr; [eauto|lia].
        -- intros _ _ H0. destruct (getCell b x y'); [|done]. destruct Hr; [eauto|lia].
        -- apply Hv.
Qed.

Lemma board_newGame g : board (newGame rand g) = (makeBoard rand g).1.
Proof. unfold newGame. by destruct (makeBoard rand g). Qed.

Lemma newGame_match_free g : findMatchSegments (board (newGame rand g)) = [].
Proof. rewrite board_newGame. apply noTriple_no_segments, makeBoard_noTriple. Qed.

End Factory.

(** ** C1: a resting board has no run *)

Lemma board_attemptSwap rand fuel origin target g g' :
  attemptSwap rand fuel origin target g = Some g' →
  board g' = board g ∨ findMatchSegments (board g') = [].
Proof.
  unfold attemptSwap.
  destruct (isBusy g); [intros [= <-]; by left|].
  destruct (negb (inBoundsCell origin) || negb (inBoundsCell target));
    [intros [= <-]; by left|].
  destruct (negb (manhattan origin target =? 1)); [intros [= <-]; by left|].
  destruct (getAt (board g) origin) as [a|] eqn:Ha; [|intros [= <-]; by left].
  destruct (getAt (board g) target) as [c|] eqn:Hc; [|intros [= <-]; by left].
  cbn [board playSfx withBoard withBusy].
  case_bool_decide as Hseg.
  - intros [= <-]. left.
    cbn [board playSfx withBoard withBusy setHint withHint].
    apply swapCells_involutive; by eapply getCell_Some_inRange.
  - destruct (resolveMatchesAnimated rand fuel _ _) as [g5|] eqn:Hr; [|done].
    intros [= <-]. right. cbn [board withBusy]. by eapply resolve_match_free.
Qed.

Lemma board_detonateSpecial rand fuel g g' :
  detonateSpecial rand fuel g = Some g' →
  board g' = board g ∨ findMatchSegments (board g') = [].
Proof.
  unfold detonateSpecial.
  destruct (detonateClear g) as [g5|]; [|intros [= <-]; by left].
  destruct (resolveMatchesAnimated rand fuel _ _) as [g7|] eqn:Hr; [|done].
  intros [= <-]. right. cbn [board withBusy]. by eapply resolve_match_free.
Qed.

(** When actions run one after the other (every state of [resting] is
    reached by whole actions), the run detector finds no run in a resting
    state. *)
Lemma resting_board_has_no_run rand g :
  resting rand g → findMatchSegments (board g) = [].
Proof.
  induction 1 as [g|g fuel o t g' _ IH Hs|g o t _ IH|g _ IH|g fuel g' _ IH Hd|g v _ IH].
  - apply newGame_match_free.
  - destruct (board_attemptSwap _ _ _ _ _ _ Hs) as [->|]; done.
  - done.
  - done.
  - destruct (board_detonateSpecial _ _ _ _ Hd) as [->|]; done.
  - done.
Qed.

(** [attemptSwap] is its part before the first [await] followed by its
    part after it. *)
Lemma attemptSwap_split rand fuel origin target g :
  attemptSwap rand fuel origin target g =
    match attemptSwapStart origin target g with
    | None => Some g
    | Some g3 => attemptSwapResume rand fuel origin target g3
    end.
Proof.
  unfold attemptSwap, attemptSwapStart, attemptSwapResume.
  destruct (isBusy g); [done|].
  destruct (negb (inBoundsCell origin) || negb (inBoundsCell target)); [done|].
  destruct (negb (manhattan origin target =? 1)); [done|].
  destruct (getAt (board g) origin); [|done].
  destruct (getAt (board g) target); reflexivity.
Qed.

(** C1 fails where [newGame] runs while a swap attempt is suspended.  The
    New Game button is not guarded by [isBusy] (the swap, the activation
    and the pointer handler are).  On the new board [g0], whose colors
    are those of [swapBoard], the player swaps (2, 1) with (2, 0); at the
    first [await] of [attemptSwap] the button is clicked and deals the
    same colors again; the resumed [attemptSwap] finds no run on the new
    board, takes its swap back on that board, and clears the busy flag:
    the game rests, not busy, on a board whose row 0 has a run of four. *)
Theorem newGame_during_swap_leaves_a_run :
  let rand := dealRand swapColors in
  let g0 := newGame rand (gameOf []) in
  resting rand g0 ∧ findMatchSegments (board g0) = [] ∧
  ∃ g1 g3,
    attemptSwapStart (2, 1) (2, 0) g0 = Some g1 ∧
    findMatchSegments (board (clickNewGame rand g1)) = [] ∧
    attemptSwapResume rand 0 (2, 1) (2, 0) (clickNewGame rand g1) = Some g3 ∧
    isBusy g3 = false ∧
    findMatchSegments (board g3)
      = [mkSegment [(0, 0); (1, 0); (2, 0); (3, 0)] 0 DirH].
Proof.
  intros rand g0. split; [apply resting_newGame|]. split; [by vm_compute|].
  eexists. eexists. split; [vm_compute; reflexivity|].
  split; [by vm_compute|]. split; [vm_compute; reflexivity|]. by vm_compute.
Qed.

(** ** C8: a completed resolution leaves no empty cell *)

(** C8.  After a swap that was committed (it made a run) and whose cascade
    has returned, and after the activation of a special piece whose
    cascade has returned, the board has [GRID] rows of [GRID] cells, every
    cell holds a piece, and the game is no longer busy. *)
Theorem completed_resolution_leaves_full_board rand fuel g g' :
  (∃ origin target,
      isBusy g = false ∧ inBoundsCell origin = true ∧ inBoundsCell target = true ∧
      manhattan origin target = 1 ∧
      is_Some (getAt (board g) origin) ∧ is_Some (getAt (board g) target) ∧
      findMatchSegments (swapCells origin target (board g)) ≠ [] ∧
      attemptSwap rand fuel origin target g = Some g') ∨
  (is_Some (detonateClear g) ∧ detonateSpecial rand fuel g = Some g') →
  fullBoard (board g') ∧ shapeOf (board g') = shapeOf emptyBoard ∧ isBusy g' = false.
Proof.
  intros [(o & t & Hbusy & Ho & Ht & Hm & [a Ha] & [c Hc] & Hseg & Hs)|[[g5 Hd] Hs]].
  - unfold attemptSwap in Hs. rewrite Hbusy, Ho, Ht in Hs. cbn [negb orb] in Hs.
    rewrite Hm in Hs. change (negb (1 =? 1)) with false in Hs. cbv iota in Hs.
    rewrite Ha, Hc in Hs. cbn [board playSfx withBoard withBusy] in Hs.
    rewrite bool_decide_eq_false_2 in Hs.
    2:{ intros Hl. by apply length_zero_iff_nil in Hl. }
    destruct (resolveMatchesAnimated rand fuel _ _) as [g7|] eqn:Hr; [|done].
    injection Hs as <-. cbn [board isBusy withBusy].
    destruct (resolve_full _ _ _ _ _ Hr) as [[Hq _]|(_ & Hsh & Hfull)]; [|done].
    exfalso. by apply Hseg.
  - unfold detonateSpecial in Hs. rewrite Hd in Hs.
    destruct (resolveMatchesAnimated rand fuel _ _) as [g7|] eqn:Hr; [|done].
    injection Hs as <-. cbn [board isBusy withBusy].
    destruct (resolve_full _ _ _ _ _ Hr) as [[_ ->]|(_ & Hsh & Hfull)]; [|done].
    destruct (collapseAndFillAnimated_full rand g5). done.
Qed.

Lemma completed_resolution_leaves_full_board_witness :
  (∃ g', attemptSwap countRand 5 (2, 1) (2, 0) (gameOf swapBoard) = Some g' ∧
         fullBoard (board g') ∧ isBusy g' = false) ∧
  (∃ g', detonateSpecial countRand 5 bombGame = Some g' ∧
         fullBoard (board g') ∧ isBusy g' = false).
Proof.
  split.
  - destruct (attemptSwap countRand 5 (2, 1) (2, 0) (gameOf swapBoard)) as [g'|] eqn:Hs.
    2:{ vm_compute in Hs. discriminate Hs. }
    exists g'. split; [reflexivity|].
    assert (findMatchSegments (swapCells (2, 1) (2, 0) (board (gameOf swapBoard))) ≠ [])
      as Hrun by (vm_compute; discriminate).
    assert (is_Some (getAt (board (gameOf swapBoard)) (2, 1))) as Ho
      by (vm_compute; eexists; reflexivity).
    assert (is_Some (getAt (board (gameOf swapBoard)) (2, 0))) as Ht
      by (vm_compute; eexists; reflexivity).
    destruct (completed_resolution_leaves_full_board countRand 5 (gameOf swapBoard) g')
      as (Hfull & _ & Hbusy).
    { left. exists (2, 1), (2, 0).
      split; [reflexivity|]. split; [reflexivity|]. split; [reflexivity|].
      split; [reflexivity|]. split; [exact Ho|]. split; [exact Ht|].
      split; [exact Hrun|exact Hs]. }
    exact (conj Hfull Hbusy).
  - destruct (detonateSpecial countRand 5 bombGame) as [g'|] eqn:Hs.
    2:{ vm_compute in Hs. discriminate Hs. }
    exists g'. split; [reflexivity|].
    assert (is_Some (detonateClear bombGame)) as Hd
      by (vm_compute; eexists; reflexivity).
    destruct (completed_resolution_leaves_full_board countRand 5 bombGame g')
      as (Hfull & _ & Hbusy).
    { right. exact (conj Hd Hs). }
    exact (conj Hfull Hbusy).
Defined.

(** ** C2: the cascade loop *)

(** C2, as the code has it.  A pass that finds no run ends the loop at
    once.  A pass that finds a run always clears at least one piece (its
    clear set is never empty), so that the board holds strictly fewer
    pieces after the clear; the collapse then refills the board
    completely with new pieces of random colors, and the loop goes on
    from the refilled board.  The loop therefore ends exactly at the
    first pass whose board has no run. *)
Theorem cascade_pass_clears_then_refills rand prefs g :
  (findMatchSegments (board g) = [] ∧
   ∀ fuel, resolveMatchesAnimated rand (S fuel) prefs g = Some g) ∨
  (findMatchSegments (board g) ≠ [] ∧
   ∃ willClear creations,
     (1 ≤ length willClear)%nat ∧
     pieceCount (board g)
       = (pieceCount (applyClear willClear (board g)) + length willClear)%nat ∧
     fullBoard (board (afterPass rand g willClear creations)) ∧
     resolvePass rand prefs g = Some (PassAgain (afterPass rand g willClear creations)) ∧
     ∀ fuel, resolveMatchesAnimated rand (S fuel) prefs g
             = resolveMatchesAnimated rand fuel None (afterPass rand g willClear creations)).
Proof.
  destruct (resolvePass_cases rand prefs g)
    as [[Hq Hp]|(Hne & keys & crs & Hnd & Hlen & Hp)].
  - left. split; [done|]. intros fuel. cbn [resolveMatchesAnimated]. by rewrite Hp.
  - right. split; [done|]. exists (willClearOf (board g) keys), crs.
    split; [done|]. split; [|split; [apply afterPass_full|split; [done|]]].
    + rewrite <- (emptiedCells_applyClear_NoDup (board g) keys Hnd).
      apply pieceCount_emptied. intros c.
      rewrite getAt_applyClear_willClearOf. case_bool_decide; [by intros [? ?]|done].
    + intros fuel. cbn [resolveMatchesAnimated]. by rewrite Hp.
Qed.

Lemma loop_pass k d sc busy h snd prefs :
  resolvePass zeroRand prefs (loopGame k d sc busy h snd)
  = Some (PassAgain (loopGame (3 + k) (3 + d) (Z.max 0 (sc + 3)) busy h (snd ++ [SfxMatch]))).
Proof. vm_compute. reflexivity. Qed.

Lemma loop_never_returns fuel :
  ∀ k d sc busy h snd prefs,
    resolveMatchesAnimated zeroRand fuel prefs (loopGame k d sc busy h snd) = None.
Proof.
  induction fuel as [|fuel IH]; intros k d sc busy h snd prefs; [done|].
  cbn [resolveMatchesAnimated]. rewrite loop_pass. apply IH.
Qed.

(** C2 as stated fails: when every random draw is 0, the cascade started
    on [loopBoard] clears the three pieces of the column run and gets
    three new pieces of color 0 in the same cells, pass after pass; no
    amount of fuel lets the loop return. *)
Lemma cascade_can_run_forever :
  ¬ ∃ fuel g', resolveMatchesAnimated zeroRand fuel None
                 (loopGame 65 0 0 true HintGood []) = Some g'.
Proof. intros (fuel & g' & Hr). by rewrite loop_never_returns in Hr. Qed.

(** * Further properties of the engine *)

(** ** Blast areas *)

(** X1.  [rocketArea] lists five distinct cells, and they are exactly the
    cells at Manhattan distance at most 1 from the center (the center and
    its four orthogonal neighbours), whether or not they lie on the
    grid. *)
Theorem rocketArea_is_plus_shape center :
  NoDup (rocketArea center) ∧ length (rocketArea center) = 5%nat ∧
  ∀ c, c ∈ rocketArea center ↔ manhattan c center ≤ 1.
Proof.
  split; [|split; [done|intros c; apply elem_of_rocketArea]].
  unfold rocketArea. destruct center as [x y]. simpl.
  repeat (apply NoDup_cons; split;
          [rewrite ?elem_of_cons, elem_of_nil; intros H;
           repeat (destruct H as [H|H]; [injection H; lia|]); done|]).
  constructor.
Qed.

(** X2.  [bombArea] lists thirteen distinct cells, and they are exactly
    the cells [(x + dx, y + dy)] with [dx² + dy² <= 4] around the center
    [(x, y)]; the rocket area of the same center is part of it. *)
Theorem bombArea_is_disc center :
  NoDup (bombArea center) ∧ length (bombArea center) = 13%nat ∧
  (∀ c, c ∈ bombArea center ↔
        (c.1 - center.1) * (c.1 - center.1) + (c.2 - center.2) * (c.2 - center.2) ≤ 4) ∧
  (∀ c, c ∈ rocketArea center → c ∈ bombArea center).
Proof.
  split; [apply NoDup_bombArea|]. split; [by rewrite bombArea_offsets|].
  split; [intros c; apply elem_of_bombArea|].
  intros c Hc. apply elem_of_rocketArea in Hc. apply elem_of_bombArea.
  destruct c as [x y], center as [cx cy]. simpl in *. nia.
Qed.

(** ** Chain expander and clear set *)

(** X3.  When no unprotected in-bounds cell of the clear set holds a
    Rocket or a Bomb, the chain expander returns the clear set as it
    is. *)
Theorem expansion_without_specials_is_identity b clearKeys protectedKeys :
  (∀ k p, k ∈ clearKeys → k ∉ protectedKeys → inBoundsCell k = true →
          getAt b k = Some p → kind p = NORMAL) →
  expandWithSpecialExplosions b clearKeys protectedKeys = Some clearKeys.
Proof.
  intros Hnormal.
  assert (∀ st k, k ∈ clearKeys → explodeStep b protectedKeys st k = st) as Hstep.
  { intros st k Hk. unfold explodeStep.
    destruct (hasKey protectedKeys k) eqn:Hp; [done|]. apply hasKey_false in Hp.
    destruct (inBoundsCell k) eqn:Hin; [|done]. cbn [negb].
    destruct (getAt b k) as [p|] eqn:Hg; [|done].
    by rewrite (Hnormal k p Hk Hp Hin Hg). }
  assert (sweep b protectedKeys clearKeys = (clearKeys, false)) as Hsweep.
  { unfold sweep.
    assert (∀ l st, (∀ k, k ∈ l → k ∈ clearKeys) →
              fold_left (explodeStep b protectedKeys) l st = st) as Hfold.
    { induction l as [|k l IH]; intros st Hl; [done|]. cbn [fold_left].
      rewrite Hstep by (apply Hl; left). apply IH. intros k' Hk'. apply Hl. by right. }
    by apply Hfold. }
  unfold expandWithSpecialExplosions. cbn [expandLoop]. by rewrite Hsweep.
Qed.

Lemma expansion_without_specials_is_identity_witness :
  expandWithSpecialExplosions quietBoard [(0, 0); (1, 0); (2, 0)] []
    = Some [(0, 0); (1, 0); (2, 0)].
Proof.
  apply (expansion_without_specials_is_identity quietBoard [(0, 0); (1, 0); (2, 0)] []).
  intros k p Hk _ _ Hp. rewrite !elem_of_cons, elem_of_nil in Hk.
  destruct Hk as [->|[->|[->|[]]]]; vm_compute in Hp; by injection Hp as <-.
Defined.

(** X4.  The initial clear set of a pass holds every cell of a run that is
    not protected, each exactly once, also where a horizontal and a
    vertical run cross; it holds nothing else. *)
Theorem initial_clear_set_is_deduplicated segments protectedKeys :
  NoDup (clearKeysOfSegments segments protectedKeys) ∧
  ∀ k, k ∈ clearKeysOfSegments segments protectedKeys ↔
       (∃ seg, seg ∈ segments ∧ k ∈ cells seg) ∧ k ∉ protectedKeys.
Proof.
  destruct (clearKeysOfSegments_spec segments protectedKeys) as [Hnd Hin].
  split; [done|]. intros k. rewrite Hin, list_elem_of_bind. naive_solver.
Qed.

(** ** Collapse and refill, cell by cell *)

Lemma sameStatus_refl g : sameStatus g g.
Proof. by repeat split. Qed.

Lemma sameStatus_trans g1 g2 g3 : sameStatus g1 g2 → sameStatus g2 g3 → sameStatus g1 g3.
Proof.
  intros (? & ? & ? & ? & ? & ?) (? & ? & ? & ? & ? & ?).
  repeat split; congruence.
Qed.

Lemma omap_snoc {A B} (f : A → option B) (l : list A) x :
  omap f (l ++ [x]) = omap f l ++ match f x with Some y => [y] | None => [] end.
Proof.
  induction l as [|a l IH]; simpl.
  - by destruct (f x).
  - change (list_omap A B f (l ++ [x])) with (omap f (l ++ [x])).
    change (list_omap A B f l) with (omap f l).
    rewrite IH. by destruct (f a).
Qed.

Lemma omap_reverse {A B} (f : A → option B) (l : list A) :
  omap f (reverse l) = reverse (omap f l).
Proof.
  induction l as [|a l IH]; [done|].
  rewrite reverse_cons, omap_snoc, IH. simpl.
  change (list_omap A B f l) with (omap f l).
  destruct (f a); [by rewrite reverse_cons|by rewrite app_nil_r].
Qed.

Lemma omap_id_fmap {A B} (f : A → option B) (l : list A) : omap (λ o, o) (f <$> l) = omap f l.
Proof.
  induction l as [|a l IH]; [done|]. csimpl. by rewrite IH.
Qed.

Lemma length_omap_le {A B} (f : A → option B) (l : list A) : (length (omap f l) ≤ length l)%nat.
Proof.
  induction l as [|a l IH]; simpl; [lia|].
  change (list_omap A B f l) with (omap f l). destruct (f a); simpl; lia.
Qed.

Lemma length_survivors b x : (length (survivors b x) ≤ 8)%nat.
Proof.
  unfold survivors, column. etrans; [apply length_omap_le|].
  by rewrite length_fmap, length_seqZ.
Qed.

Lemma lookup_reverse_seqZ n (j : nat) :
  Z.of_nat j < n → reverse (seqZ 0 n) !! j = Some (n - 1 - Z.of_nat j).
Proof.
  intros Hj. rewrite reverse_lookup by (rewrite length_seqZ; lia).
  rewrite length_seqZ, lookup_seqZ_lt by lia. f_equal. lia.
Qed.

Lemma fold_prefix_index {A} (l pre suf : list A) x :
  l = pre ++ x :: suf → l !! length pre = Some x.
Proof. intros ->. by rewrite lookup_app_r, Nat.sub_diag by lia. Qed.

Section CollapseExact.

Variable rand : nat → nat.

(** The first inner loop moves the pieces of the column to the bottom and
    keeps their order. *)
Lemma dropLoop_exact bd x next :
  0 ≤ x < GRID → shapeOf next = shapeOf emptyBoard →
  ∃ next1,
    fold_left (dropStep bd x) (reverse (seqZ 0 GRID)) (next, GRID - 1)
      = (next1, GRID - 1 - Z.of_nat (length (survivors bd x))) ∧
    shapeOf next1 = shapeOf emptyBoard ∧
    (∀ (i : nat) p, survivors bd x !! i = Some p →
       getCell next1 x (GRID - Z.of_nat (length (survivors bd x)) + Z.of_nat i) = Some p) ∧
    (∀ x' y, x' ≠ x ∨ y < GRID - Z.of_nat (length (survivors bd x)) →
       getCell next1 x' y = getCell next x' y).
Proof.
  intros Hx Hshape.
  pose (P := λ (st : Board * Z) (pre : list Z),
    let visited := omap (λ y, getCell bd x y) pre in
    st.2 = GRID - 1 - Z.of_nat (length visited) ∧
    shapeOf st.1 = shapeOf emptyBoard ∧
    (∀ (j : nat) p, visited !! j = Some p →
       getCell st.1 x (GRID - 1 - Z.of_nat j) = Some p) ∧
    (∀ x' y, x' ≠ x ∨ y ≤ st.2 → getCell st.1 x' y = getCell next x' y)).
  assert (P (fold_left (dropStep bd x) (reverse (seqZ 0 GRID)) (next, GRID - 1))
            (reverse (seqZ 0 GRID))) as HP.
  { apply fold_left_inv.
    - unfold P. cbn [fst snd]. split; [simpl; lia|]. split; [done|].
      split; [intros j p Hj; done|done].
    - intros [nx wy] pre y suf Hl (Hwy & Hsh & Hvis & Hother). cbn [fst snd] in *.
      assert (length pre < 8)%nat as Hpre.
      { apply (f_equal length) in Hl.
        rewrite length_reverse, length_seqZ, length_app in Hl. simpl in Hl.
        unfold GRID in Hl. lia. }
      pose proof (length_omap_le (λ y, getCell bd x y) pre) as Hvl.
      unfold P, dropStep. rewrite omap_snoc.
      destruct (getCell bd x y) as [p|]; cbn [fst snd].
      + rewrite length_app. simpl. unfold GRID in *.
        split; [lia|]. split; [by rewrite shapeOf_setCell|]. split.
        * intros j q Hj.
          destruct (decide (j = length (omap (λ y, getCell bd x y) pre))) as [->|Hne].
          -- rewrite lookup_app_r, Nat.sub_diag in Hj by lia. injection Hj as <-.
             rewrite <- Hwy. apply getCell_setCell_eq.
             apply shapeOf_emptyBoard_inRange; [done|].
             apply isInBounds_spec. unfold GRID. lia.
          -- assert (j < length (omap (λ y, getCell bd x y) pre))%nat as Hlt.
             { apply lookup_lt_Some in Hj. rewrite length_app in Hj. simpl in Hj. lia. }
             rewrite lookup_app_l in Hj by done.
             rewrite getCell_setCell_ne by (intros ?; simplify_eq; lia).
             by apply Hvis.
        * intros x' y' Hxy. rewrite getCell_setCell_ne by (intros ?; simplify_eq; lia).
          apply Hother. lia.
      + rewrite app_nil_r. done. }
  destruct (fold_left _ _ _) as [next1 writeY]. unfold P in HP. cbn [fst snd] in HP.
  destruct HP as (Hwy & Hsh & Hvis & Hother).
  assert (omap (λ y, getCell bd x y) (reverse (seqZ 0 GRID)) = reverse (survivors bd x))
    as Hrev by (unfold survivors, column; by rewrite omap_reverse, omap_id_fmap).
  rewrite Hrev in Hwy, Hvis. rewrite length_reverse in Hwy.
  exists next1. split; [by rewrite Hwy|]. split; [done|]. split.
  - intros i p Hi. pose proof (lookup_lt_Some _ _ _ Hi) as Hlt.
    replace (GRID - Z.of_nat (length (survivors bd x)) + Z.of_nat i)
      with (GRID - 1 - Z.of_nat (length (survivors bd x) - S i)) by lia.
    apply Hvis. rewrite reverse_lookup by lia.
    replace (length (survivors bd x) - S (length (survivors bd x) - S i))%nat with i by lia.
    done.
  - intros x' y Hxy. apply Hother. lia.
Qed.

(** The second inner loop makes the new pieces from the row below the
    survivors' top up to row 0, in that order. *)
Lemma fillLoop_exact x writeY next g :
  0 ≤ x < GRID → -1 ≤ writeY ≤ GRID - 1 → shapeOf next = shapeOf emptyBoard →
  ∃ next2 g2,
    fold_left (fillStep rand x) (reverse (seqZ 0 (writeY + 1))) (next, g) = (next2, g2) ∧
    shapeOf next2 = shapeOf emptyBoard ∧
    sameStatus g g2 ∧ board g2 = board g ∧
    nextId g2 = (nextId g + Z.to_nat (writeY + 1))%nat ∧
    draws g2 = (draws g + Z.to_nat (writeY + 1))%nat ∧
    (∀ j : nat, Z.of_nat j ≤ writeY →
       getCell next2 x (writeY - Z.of_nat j) = Some (refillPiece rand g j)) ∧
    (∀ x' y, x' ≠ x ∨ writeY < y → getCell next2 x' y = getCell next x' y).
Proof.
  intros Hx Hwy Hshape.
  pose (P := λ (st : Board * Game) (pre : list Z),
    shapeOf st.1 = shapeOf emptyBoard ∧
    sameStatus g st.2 ∧ board st.2 = board g ∧
    nextId st.2 = (nextId g + length pre)%nat ∧
    draws st.2 = (draws g + length pre)%nat ∧
    (∀ j : nat, (j < length pre)%nat →
       getCell st.1 x (writeY - Z.of_nat j) = Some (refillPiece rand g j)) ∧
    (∀ x' y, x' ≠ x ∨ y ≤ writeY - Z.of_nat (length pre) ∨ writeY < y →
       getCell st.1 x' y = getCell next x' y)).
  assert (P (fold_left (fillStep rand x) (reverse (seqZ 0 (writeY + 1))) (next, g))
            (reverse (seqZ 0 (writeY + 1)))) as HP.
  { apply fold_left_inv.
    - unfold P. cbn [fst snd length]. split; [done|]. split; [apply sameStatus_refl|].
      split; [done|]. split; [lia|]. split; [lia|]. split; [intros; lia|done].
    - intros [nx g1] pre y suf Hl (Hsh & Hst & Hbd & Hid & Hdr & Hnew & Hother).
      cbn [fst snd] in *.
      assert (Z.of_nat (length pre) < writeY + 1 ∧ y = writeY - Z.of_nat (length pre))
        as [Hpre Hy].
      { pose proof (fold_prefix_index _ _ _ _ Hl) as Hlk.
        pose proof (lookup_lt_Some _ _ _ Hlk) as Hlt.
        rewrite length_reverse, length_seqZ in Hlt.
        rewrite lookup_reverse_seqZ in Hlk by lia. injection Hlk as <-. lia. }
      unfold P, fillStep, randInt, makePiece. cbn [fst snd nextId draws board].
      rewrite length_app. cbn [length].
      split; [by rewrite shapeOf_setCell|].
      split; [destruct Hst as (? & ? & ? & ? & ? & ?); by repeat split|].
      split; [done|]. split; [lia|]. split; [lia|]. split.
      + intros j Hj. destruct (decide (j = length pre)) as [->|Hne].
        * rewrite <- Hy, getCell_setCell_eq.
          -- unfold refillPiece. by rewrite Hid, Hdr.
          -- apply shapeOf_emptyBoard_inRange; [done|].
             apply isInBounds_spec. unfold GRID in *. lia.
        * rewrite getCell_setCell_ne by (intros ?; simplify_eq; lia). apply Hnew. lia.
      + intros x' y' Hxy. rewrite getCell_setCell_ne by (intros ?; simplify_eq; lia).
        apply Hother. lia. }
  destruct (fold_left _ _ _) as [next2 g2]. unfold P in HP. cbn [fst snd] in HP.
  rewrite length_reverse, length_seqZ in HP.
  destruct HP as (Hsh & Hst & Hbd & Hid & Hdr & Hnew & Hother).
  exists next2, g2. do 6 (split; [done|]). split.
  - intros j Hj. apply Hnew. lia.
  - intros x' y Hxy. apply Hother. lia.
Qed.

(** One column: new pieces above, the survivors in their order below. *)
Lemma collapseColumn_exact bd x next g :
  0 ≤ x < GRID → shapeOf next = shapeOf emptyBoard →
  ∃ next2 g2,
    collapseColumn rand bd (next, g) x = (next2, g2) ∧
    shapeOf next2 = shapeOf emptyBoard ∧
    sameStatus g g2 ∧ board g2 = board g ∧
    nextId g2 = (nextId g + newInColumn bd x)%nat ∧
    draws g2 = (draws g + newInColumn bd x)%nat ∧
    (∀ (i : nat) p, survivors bd x !! i = Some p →
       getCell next2 x (Z.of_nat (newInColumn bd x) + Z.of_nat i) = Some p) ∧
    (∀ j : nat, (j < newInColumn bd x)%nat →
       getCell next2 x (Z.of_nat (newInColumn bd x) - 1 - Z.of_nat j)
         = Some (refillPiece rand g j)) ∧
    (∀ x' y, x' ≠ x → getCell next2 x' y = getCell next x' y).
Proof.
  intros Hx Hshape. unfold collapseColumn.
  destruct (dropLoop_exact bd x next Hx Hshape) as (next1 & -> & Hsh1 & Hsurv & Hother1).
  pose proof (length_survivors bd x) as Hk.
  assert (Z.of_nat (newInColumn bd x) = GRID - Z.of_nat (length (survivors bd x))) as Hm
    by (unfold newInColumn, GRID; lia).
  destruct (fillLoop_exact x (GRID - 1 - Z.of_nat (length (survivors bd x))) next1 g Hx)
    as (next2 & g2 & -> & Hsh2 & Hst & Hbd & Hid & Hdr & Hnew & Hother2);
    [unfold GRID; lia|done|].
  exists next2, g2. split; [done|]. split; [done|]. split; [done|]. split; [done|].
  split; [rewrite Hid; unfold newInColumn, GRID; lia|].
  split; [rewrite Hdr; unfold newInColumn, GRID; lia|].
  split; [|split].
  - intros i p Hi. rewrite Hother2 by lia. rewrite Hm. by apply Hsurv.
  - intros j Hj. rewrite Hm.
    replace (GRID - Z.of_nat (length (survivors bd x)) - 1 - Z.of_nat j)
      with (GRID - 1 - Z.of_nat (length (survivors bd x)) - Z.of_nat j) by lia.
    apply Hnew. lia.
  - intros x' y Hx'. rewrite Hother2 by (by left). apply Hother1. by left.
Qed.

Lemma newBefore_succ b (t : nat) :
  newBefore b (Z.of_nat (S t)) = (newBefore b (Z.of_nat t) + newInColumn b (Z.of_nat t))%nat.
Proof.
  unfold newBefore. rewrite seqZ_S, sum_list_with_app. simpl.
  rewrite Z.add_0_l. lia.
Qed.

Lemma collapse_exact g :
  let g' := collapseAndFillAnimated rand g in
  shapeOf (board g') = shapeOf emptyBoard ∧ sameStatus g g' ∧
  nextId g' = (nextId g + newBefore (board g) GRID)%nat ∧
  draws g' = (draws g + newBefore (board g) GRID)%nat ∧
  ∀ x, 0 ≤ x < GRID →
    (∀ (i : nat) p, survivors (board g) x !! i = Some p →
       getCell (board g') x (Z.of_nat (newInColumn (board g) x) + Z.of_nat i) = Some p) ∧
    (∀ j : nat, (j < newInColumn (board g) x)%nat →
       getCell (board g') x (Z.of_nat (newInColumn (board g) x) - 1 - Z.of_nat j)
         = Some (mkPiece (nextId g + newBefore (board g) x + j)
                         (rand (draws g + newBefore (board g) x + j)%nat mod COLORS_length)
                         NORMAL)).
Proof.
  unfold collapseAndFillAnimated.
  assert (∀ t : nat, (t ≤ 8)%nat →
    ∃ next gc,
      fold_left (collapseColumn rand (board g)) (seqZ 0 (Z.of_nat t)) (emptyBoard, g)
        = (next, gc) ∧
      shapeOf next = shapeOf emptyBoard ∧ sameStatus g gc ∧ board gc = board g ∧
      nextId gc = (nextId g + newBefore (board g) (Z.of_nat t))%nat ∧
      draws gc = (draws g + newBefore (board g) (Z.of_nat t))%nat ∧
      ∀ x, 0 ≤ x < Z.of_nat t →
        (∀ (i : nat) p, survivors (board g) x !! i = Some p →
           getCell next x (Z.of_nat (newInColumn (board g) x) + Z.of_nat i) = Some p) ∧
        (∀ j : nat, (j < newInColumn (board g) x)%nat →
           getCell next x (Z.of_nat (newInColumn (board g) x) - 1 - Z.of_nat j)
             = Some (mkPiece (nextId g + newBefore (board g) x + j)
                             (rand (draws g + newBefore (board g) x + j)%nat mod COLORS_length)
                             NORMAL))) as Hcols.
  { induction t as [|t IH]; intros Ht.
    - exists emptyBoard, g. split; [done|]. split; [done|].
      split; [apply sameStatus_refl|]. split; [done|].
      split; [unfold newBefore; simpl; lia|]. split; [unfold newBefore; simpl; lia|].
      intros x Hx. lia.
    - destruct IH as (next & gc & Hfold & Hsh & Hst & Hbd & Hid & Hdr & Hcol); [lia|].
      rewrite seqZ_S, fold_left_app, Hfold, Z.add_0_l. cbn [fold_left].
      destruct (collapseColumn_exact (board g) (Z.of_nat t) next gc)
        as (next2 & g2 & -> & Hsh2 & Hst2 & Hbd2 & Hid2 & Hdr2 & Hsurv & Hnew & Hother);
        [unfold GRID; lia|done|].
      exists next2, g2. split; [done|]. split; [done|].
      split; [by eapply sameStatus_trans|]. split; [congruence|].
      rewrite newBefore_succ. split; [lia|]. split; [lia|].
      intros x Hx. destruct (decide (x = Z.of_nat t)) as [->|Hne].
      + split; [done|]. intros j Hj. rewrite Hnew by done.
        unfold refillPiece. by rewrite Hid, Hdr.
      + destruct (Hcol x) as [Hs Hn]; [lia|]. split.
        * intros i p Hi. rewrite Hother by done. by apply Hs.
        * intros j Hj. rewrite Hother by done. by apply Hn. }
  destruct (Hcols 8%nat) as (next & gc & Hfold & Hsh & Hst & Hbd & Hid & Hdr & Hcol); [lia|].
  change (Z.of_nat 8) with GRID in *. rewrite Hfold.
  cbn [board withBoard].
  split; [done|]. split.
  { destruct Hst as (? & ? & ? & ? & ? & ?). by repeat split. }
  split; [done|]. split; [done|]. done.
Qed.

End CollapseExact.

(** X5.  Collapse is gravity, column by column.  In column [x] the pieces
    that are on the board keep their order and end up on the bottom rows;
    the [m] rows above them receive new Normal pieces, made from the
    bottom one up: the j-th of them has the j-th next id and the color of
    the j-th next draw, reduced into the six colors.  Columns are served
    from left to right, so the counters of column [x] start after the
    empty cells of the columns left of it; in all, the two counters grow
    by the number of empty cells, and nothing else of the state changes. *)
Theorem collapse_is_gravity rand g x :
  0 ≤ x < GRID →
  let b := board g in
  let g' := collapseAndFillAnimated rand g in
  let m := newInColumn b x in
  (∀ (i : nat) p, survivors b x !! i = Some p →
     getCell (board g') x (Z.of_nat (m + i)) = Some p) ∧
  (∀ j : nat, (j < m)%nat →
     getCell (board g') x (Z.of_nat (m - 1 - j))
       = Some (mkPiece (nextId g + newBefore b x + j)
                       (rand (draws g + newBefore b x + j)%nat mod COLORS_length)
                       NORMAL)) ∧
  (m + length (survivors b x) = 8)%nat ∧
  nextId g' = (nextId g + newBefore b GRID)%nat ∧
  draws g' = (draws g + newBefore b GRID)%nat ∧
  sameStatus g g'.
Proof.
  intros Hx b g' m.
  destruct (collapse_exact rand g) as (Hsh & Hst & Hid & Hdr & Hcol).
  destruct (Hcol x Hx) as [Hsurv Hnew]. fold b g' m in Hsurv, Hnew.
  split; [|split; [|split; [|done]]].
  - intros i p Hi. rewrite Nat2Z.inj_add. by apply Hsurv.
  - intros j Hj. rewrite <- (Hnew j Hj). f_equal. lia.
  - pose proof (length_survivors b x). unfold m, newInColumn, GRID. lia.
Qed.

Lemma collapse_is_gravity_witness :
  let g := gameOf (setAt quietBoard (0, 3) None) in
  let g' := collapseAndFillAnimated countRand g in
  getCell (board g') 0 0 = Some (mkPiece 65 0 NORMAL) ∧
  getCell (board g') 0 3 = getCell quietBoard 0 2.
Proof.
  intros g g'.
  destruct (collapse_is_gravity countRand g 0) as (Hsurv & Hnew & _);
    [unfold GRID; lia|].
  split.
  - exact (Hnew 0%nat ltac:(vm_compute; lia)).
  - exact (Hsurv 2%nat (mkPiece 17 4 NORMAL) eq_refl).
Defined.

Lemma inRange_emptyShape b x y :
  shapeOf b = shapeOf emptyBoard → inRange b x y → isInBounds x y = true.
Proof.
  intros Hs (Hx & Hy & row & Hrow & Hlen).
  assert (shapeOf b !! Z.to_nat y = Some (length row)) as Hl
    by (unfold shapeOf; by rewrite list_lookup_fmap, Hrow).
  rewrite Hs in Hl. unfold shapeOf, emptyBoard in Hl.
  rewrite fmap_replicate, length_replicate in Hl.
  apply lookup_replicate in Hl as [Hl1 Hl2]. apply isInBounds_spec. unfold GRID in *. lia.
Qed.

Lemma getCell_outside b x y :
  shapeOf b = shapeOf emptyBoard → isInBounds x y = false → getCell b x y = None.
Proof.
  intros Hs Hout. destruct (getCell b x y) as [p|] eqn:Hp; [|done].
  apply getCell_Some_inRange in Hp. apply (inRange_emptyShape _ _ _ Hs) in Hp. congruence.
Qed.

Lemma omap_all_Some {A} (l : list (option A)) :
  Forall is_Some l → Some <$> omap (λ o, o) l = l.
Proof.
  induction 1 as [|o l [a ->] _ IH]; [done|]. csimpl. by rewrite IH.
Qed.

Lemma lookup_column b x (i : nat) :
  (i < 8)%nat → column b x !! i = Some (getCell b x (Z.of_nat i)).
Proof.
  intros Hi. unfold column. rewrite list_lookup_fmap, lookup_seqZ_lt by (unfold GRID; lia).
  done.
Qed.

Lemma survivors_full b x :
  fullBoard b → 0 ≤ x < GRID → Some <$> survivors b x = column b x.
Proof.
  intros Hfull Hx. apply omap_all_Some. unfold column.
  rewrite Forall_fmap. apply Forall_forall. intros y Hy. apply elem_of_seqZ in Hy.
  apply Hfull. apply isInBounds_spec. lia.
Qed.

Lemma sum_list_with_zero {A} (f : A → nat) l :
  (∀ x, x ∈ l → f x = 0%nat) → sum_list_with f l = 0%nat.
Proof.
  induction l as [|a l IH]; intros H; [done|]. simpl.
  rewrite (H a) by left. rewrite IH; [done|]. intros x Hx. apply H. by right.
Qed.

Lemma fullBoard_allCells b : Forall (λ c, is_Some (getAt b c)) allCells → fullBoard b.
Proof.
  intros H x y Hin. rewrite Forall_forall in H.
  apply (H (x, y)). by apply elem_of_allCells.
Qed.

(** X6.  On a board of 8 rows of 8 cells that has no empty cell the
    collapse changes nothing: no piece moves, no piece is made, no random
    number is drawn. *)
Theorem collapse_of_full_board_is_identity rand g :
  shapeOf (board g) = shapeOf emptyBoard → fullBoard (board g) →
  collapseAndFillAnimated rand g = g.
Proof.
  intros Hs Hfull.
  destruct (collapse_exact rand g) as (Hsh & Hst & Hid & Hdr & Hcol).
  assert (∀ x, 0 ≤ x < GRID → length (survivors (board g) x) = 8%nat) as Hlen.
  { intros x Hx. rewrite <- (length_fmap Some), survivors_full by done.
    unfold column. by rewrite length_fmap, length_seqZ. }
  assert (∀ x, 0 ≤ x < GRID → newInColumn (board g) x = 0%nat) as Hnew.
  { intros x Hx. unfold newInColumn. rewrite Hlen by done. done. }
  assert (newBefore (board g) GRID = 0%nat) as Hzero.
  { apply sum_list_with_zero. intros x Hx. apply elem_of_seqZ in Hx. apply Hnew. lia. }
  rewrite Hzero, Nat.add_0_r in Hid, Hdr.
  assert (board (collapseAndFillAnimated rand g) = board g) as Hboard.
  { apply board_ext; [congruence|]. intros x y.
    destruct (isInBounds x y) eqn:Hin.
    - apply isInBounds_spec in Hin as [Hx Hy].
      destruct (Hcol x Hx) as [Hsurv _]. rewrite Hnew in Hsurv by done.
      assert (Some <$> survivors (board g) x !! Z.to_nat y
              = Some (getCell (board g) x y)) as Hlk.
      { rewrite <- list_lookup_fmap, survivors_full by done.
        rewrite lookup_column by (unfold GRID in *; lia). by rewrite Z2Nat.id by lia. }
      destruct (survivors (board g) x !! Z.to_nat y) as [p|] eqn:Hp; [|done].
      injection Hlk as <-. rewrite <- (Hsurv _ _ Hp). f_equal. lia.
    - by rewrite !getCell_outside. }
  clear Hcol Hsh Hs Hfull Hlen Hnew Hzero.
  destruct Hst as (? & ? & ? & ? & ? & ?).
  destruct (collapseAndFillAnimated rand g) as [b1 s1 u1 n1 d1 o1 t1 h1 sn1].
  destruct g as [b0 s0 u0 n0 d0 o0 t0 h0 sn0].
  cbn [board score isBusy nextId draws specialOrigin specialTarget hint sounds] in *.
  congruence.
Qed.

Lemma collapse_of_full_board_is_identity_witness :
  collapseAndFillAnimated countRand (gameOf quietBoard) = gameOf quietBoard.
Proof.
  apply collapse_of_full_board_is_identity.
  - reflexivity.
  - apply fullBoard_allCells. apply (bool_decide_unpack _). vm_compute. exact I.
Defined.

(** ** The score *)

Lemma score_addScore_nat n g :
  0 ≤ score g → score (addScore (Z.of_nat n) g) = score g + Z.of_nat n.
Proof.
  intros Hs. unfold addScore. destruct (Z.leb_spec (Z.of_nat n) 0); [lia|].
  unfold setScore. cbn [score withScore]. lia.
Qed.

Lemma status_addScore d g :
  isBusy (addScore d g) = isBusy g ∧ nextId (addScore d g) = nextId g ∧
  draws (addScore d g) = draws g ∧ specialOrigin (addScore d g) = specialOrigin g ∧
  specialTarget (addScore d g) = specialTarget g.
Proof. unfold addScore. by destruct (d <=? 0). Qed.

Lemma status_applyCreations creations g :
  sameStatus g (applyCreations creations g) ∧
  draws (applyCreations creations g) = draws g ∧
  (nextId g ≤ nextId (applyCreations creations g))%nat.
Proof.
  unfold applyCreations. revert g.
  induction creations as [|cr crs IH]; intros g.
  { split; [apply sameStatus_refl|]. split; [done|]. cbn [fold_left]. lia. }
  cbn [fold_left]. destruct (inBoundsCell (cr_cell cr)); cbn [negb]; [|apply IH].
  destruct (IH (let '(np, g1) := makePiece (cr_color cr) (cr_kind cr) g in
                withBoard g1 (setAt (board g1) (cr_cell cr) (Some np))))
    as ((? & ? & ? & ? & ? & ?) & ? & ?).
  cbn [makePiece withBoard score isBusy nextId draws specialOrigin specialTarget
       hint sounds] in *.
  split; [by repeat split|]. split; [done|]. lia.
Qed.

Section Score.

Variable rand : nat → nat.

Lemma status_afterPass g willClear creations :
  0 ≤ score g →
  score (afterPass rand g willClear creations) = score g + Z.of_nat (length willClear) ∧
  isBusy (afterPass rand g willClear creations) = isBusy g ∧
  specialOrigin (afterPass rand g willClear creations) = specialOrigin g ∧
  specialTarget (afterPass rand g willClear creations) = specialTarget g.
Proof.
  intros Hs. unfold afterPass.
  set (g2 := withBoard (playSfx SfxMatch g) (applyClear willClear (board (playSfx SfxMatch g)))).
  set (g3 := addScore (Z.of_nat (length willClear)) g2).
  destruct (collapse_exact rand (applyCreations creations g3))
    as (_ & (Hsc & Hb & Ho & Ht & _) & _).
  destruct (status_applyCreations creations g3) as ((Hsc' & Hb' & Ho' & Ht' & _) & _).
  destruct (status_addScore (Z.of_nat (length willClear)) g2) as (Hb2 & _ & _ & Ho2 & Ht2).
  fold g3 in Hb2, Ho2, Ht2.
  rewrite Hsc, Hsc', Hb, Hb', Ho, Ho', Ht, Ht', Hb2, Ho2, Ht2.
  split; [|done]. unfold g3. by rewrite score_addScore_nat.
Qed.

(** The loop adds points and leaves the busy flag and the selection as
    they are. *)
Lemma status_resolve fuel prefs g g' :
  0 ≤ score g → resolveMatchesAnimated rand fuel prefs g = Some g' →
  score g ≤ score g' ∧ isBusy g' = isBusy g ∧
  specialOrigin g' = specialOrigin g ∧ specialTarget g' = specialTarget g.
Proof.
  revert prefs g. induction fuel as [|fuel IH]; intros prefs g Hs; [done|].
  cbn [resolveMatchesAnimated].
  destruct (resolvePass_cases rand prefs g) as [[Hq ->]|(_ & keys & crs & _ & _ & ->)].
  - intros [= <-]. split; [lia|done].
  - intros Hr.
    destruct (status_afterPass g (willClearOf (board g) keys) crs Hs) as (Hsc & Hb & Ho & Ht).
    apply IH in Hr as (Hsc' & Hb' & Ho' & Ht'); [|lia].
    split; [lia|]. split; [congruence|]. split; congruence.
Qed.

Lemma status_detonateClear g g5 :
  0 ≤ score g → detonateClear g = Some g5 → score g ≤ score g5.
Proof.
  intros Hs. unfold detonateClear.
  destruct (isBusy g); [done|]. destruct (specialOrigin g) as [origin|]; [|done].
  destruct (getAt (board g) origin) as [p|]; [|done].
  destruct (bool_decide (kind p = NORMAL)); [done|].
  intros [= <-]. case_bool_decide; [|cbn [score withBoard setHint withHint playSfx withBusy]; lia].
  rewrite score_addScore_nat; cbn [score withBoard setHint withHint playSfx withBusy]; lia.
Qed.

End Score.

(** X7.  A pass of the cascade that finds a run adds to the score exactly
    the number of cells that its clear step empties (at least one); the
    creation of special pieces and the refill add nothing. *)
Theorem cascade_pass_scores_cleared_cells rand prefs g :
  0 ≤ score g → findMatchSegments (board g) ≠ [] →
  ∃ willClear creations,
    resolvePass rand prefs g = Some (PassAgain (afterPass rand g willClear creations)) ∧
    (1 ≤ length (emptiedCells (board g) (applyClear willClear (board g))))%nat ∧
    score (afterPass rand g willClear creations)
      = score g + Z.of_nat (length (emptiedCells (board g) (applyClear willClear (board g)))).
Proof.
  intros Hs Hne.
  destruct (resolvePass_cases rand prefs g) as [[Hq _]|(_ & keys & crs & Hnd & Hlen & Hp)];
    [done|].
  exists (willClearOf (board g) keys), crs. split; [done|].
  rewrite (emptiedCells_applyClear_NoDup (board g) keys Hnd). split; [done|].
  by destruct (status_afterPass rand g (willClearOf (board g) keys) crs Hs) as [-> _].
Qed.

Lemma cascade_pass_scores_cleared_cells_witness :
  ∃ willClear creations,
    resolvePass zeroRand None (loopGame 100 0 0 false HintGood [])
      = Some (PassAgain (afterPass zeroRand (loopGame 100 0 0 false HintGood [])
                                   willClear creations)) ∧
    (1 ≤ length (emptiedCells (board (loopGame 100 0 0 false HintGood []))
                   (applyClear willClear (board (loopGame 100 0 0 false HintGood [])))))%nat ∧
    score (afterPass zeroRand (loopGame 100 0 0 false HintGood []) willClear creations)
      = score (loopGame 100 0 0 false HintGood [])
        + Z.of_nat (length (emptiedCells (board (loopGame 100 0 0 false HintGood []))
                      (applyClear willClear (board (loopGame 100 0 0 false HintGood []))))).
Proof.
  apply (cascade_pass_scores_cleared_cells zeroRand None (loopGame 100 0 0 false HintGood [])).
  - cbn [score loopGame]. lia.
  - assert (findMatchSegments (board (loopGame 100 0 0 false HintGood []))
            = [mkSegment [(0, 0); (0, 1); (0, 2)] 0 DirV]) as -> by (vm_compute; reflexivity).
    discriminate.
Defined.

(** X8.  No action lowers the score: from a state whose score is not
    negative, a swap attempt and an activation that run to their end
    leave a score at least as high. *)
Theorem actions_never_lower_score rand fuel g g' :
  0 ≤ score g →
  (∃ origin target, attemptSwap rand fuel origin target g = Some g') ∨
  detonateSpecial rand fuel g = Some g' →
  score g ≤ score g'.
Proof.
  intros Hs [(origin & target & Hswap)|Hdet].
  - unfold attemptSwap in Hswap.
    destruct (isBusy g); [injection Hswap as <-; lia|].
    destruct (negb (inBoundsCell origin) || negb (inBoundsCell target));
      [injection Hswap as <-; lia|].
    destruct (negb (manhattan origin target =? 1)); [injection Hswap as <-; lia|].
    destruct (getAt (board g) origin) as [a|]; [|injection Hswap as <-; lia].
    destruct (getAt (board g) target) as [c|]; [|injection Hswap as <-; lia].
    cbn zeta in Hswap.
    destruct (bool_decide (length (findMatchSegments _) = 0%nat)).
    + injection Hswap as <-. cbn [score withBusy setHint withHint playSfx withBoard]. lia.
    + destruct (resolveMatchesAnimated rand fuel _ _) as [g5|] eqn:Hr; [|done].
      injection Hswap as <-. apply status_resolve in Hr as [Hr _].
      * cbn [score withBusy setHint withHint playSfx withBoard] in *. lia.
      * cbn [score withBusy setHint withHint playSfx withBoard]. lia.
  - unfold detonateSpecial in Hdet.
    destruct (detonateClear g) as [g5|] eqn:Hc; [|injection Hdet as <-; lia].
    apply (status_detonateClear) in Hc; [|done].
    destruct (resolveMatchesAnimated rand fuel _ _) as [g7|] eqn:Hr; [|done].
    injection Hdet as <-.
    destruct (collapse_exact rand g5) as (_ & (Hsc & _) & _).
    apply status_resolve in Hr as [Hr _]; [|lia].
    cbn [score withBusy]. lia.
Qed.

Lemma actions_never_lower_score_witness :
  ∃ g', attemptSwap countRand 5 (2, 1) (2, 0) (gameOf swapBoard) = Some g' ∧
        score (gameOf swapBoard) ≤ score g'.
Proof.
  eexists. split; [vm_compute; reflexivity|].
  apply (actions_never_lower_score countRand 5 (gameOf swapBoard)).
  - cbn [score gameOf]. lia.
  - left. exists (2, 1), (2, 0). vm_compute. reflexivity.
Defined.

(** X9.  In every resting state the score is not negative and the game is
    not busy. *)
Theorem resting_state_is_idle rand g :
  resting rand g → 0 ≤ score g ∧ isBusy g = false.
Proof.
  induction 1 as [g|g fuel o t g' _ [IHs IHb] Hs|g o t _ IH|g _ IH
                  |g fuel g' _ [IHs IHb] Hd|g v _ [IHs IHb]].
  - unfold newGame. destruct (makeBoard rand g) as [b g1].
    cbn [score isBusy setHint withHint clearSelection withBusy setScore withScore].
    split; [lia|done].
  - unfold attemptSwap in Hs. rewrite IHb in Hs.
    destruct (negb (inBoundsCell o) || negb (inBoundsCell t)); [by injection Hs as <-|].
    destruct (negb (manhattan o t =? 1)); [by injection Hs as <-|].
    destruct (getAt (board g) o) as [a|]; [|by injection Hs as <-].
    destruct (getAt (board g) t) as [c|]; [|by injection Hs as <-].
    cbn zeta in Hs.
    destruct (bool_decide (length (findMatchSegments _) = 0%nat)).
    + by injection Hs as <-.
    + destruct (resolveMatchesAnimated rand fuel _ _) as [g5|] eqn:Hr; [|done].
      injection Hs as <-. apply status_resolve in Hr as [Hr _].
      * cbn [score isBusy withBusy setHint withHint playSfx withBoard] in *.
        split; [lia|done].
      * cbn [score withBusy setHint withHint playSfx withBoard]. lia.
  - done.
  - done.
  - unfold detonateSpecial in Hd.
    destruct (detonateClear g) as [g5|] eqn:Hc; [|by injection Hd as <-].
    apply (status_detonateClear) in Hc; [|done].
    destruct (resolveMatchesAnimated rand fuel _ _) as [g7|] eqn:Hr; [|done].
    injection Hd as <-.
    destruct (collapse_exact rand g5) as (_ & (Hsc & _) & _).
    apply status_resolve in Hr as [Hr _]; [|lia].
    cbn [score isBusy withBusy]. split; [lia|done].
  - unfold setScore. cbn [score isBusy withScore]. split; [lia|done].
Qed.

Lemma resting_state_is_idle_witness :
  0 ≤ score (newGame countRand (gameOf quietBoard)) ∧
  isBusy (newGame countRand (gameOf quietBoard)) = false.
Proof. apply (resting_state_is_idle countRand). apply resting_newGame. Defined.

(** ** The score of an activation *)

Lemma NoDup_rocketArea center : NoDup (rocketArea center).
Proof.
  unfold rocketArea. repeat (apply NoDup_cons; split;
    [rewrite ?elem_of_cons, elem_of_nil; intros H; decompose [or] H; simplify_eq; lia|]).
  apply NoDup_nil_2.
Qed.

Lemma length_remove_dups_snoc {A} `{EqDecision A} (l : list A) x :
  NoDup l → x ∈ l → length (remove_dups (l ++ [x])) = length l.
Proof.
  intros Hnd Hx. apply Permutation_length. apply NoDup_Permutation.
  - apply NoDup_remove_dups.
  - done.
  - intros y. rewrite elem_of_remove_dups, elem_of_app, list_elem_of_singleton.
    split; [intros [?| ->]; done|by left].
Qed.

(** X10.  An activation counts the cell of the activated piece twice.
    For a Bomb, and for a Rocket fired at its own cell or at a neighbour
    (the only targets the pointer handlers set), the score grows by the
    number of cells the blast empties plus one. *)
Theorem activation_counts_origin_twice g g' origin :
  0 ≤ score g → inBoundsCell origin = true →
  specialOrigin g = Some origin →
  (∀ t, specialTarget g = Some t → manhattan t origin ≤ 1) →
  detonateClear g = Some g' →
  score g' = score g + Z.of_nat (length (emptiedCells (board g) (board g'))) + 1.
Proof.
  intros Hs Hin Ho Ht. unfold detonateClear. rewrite Ho.
  destruct (isBusy g); [done|].
  destruct (getAt (board g) origin) as [p|] eqn:Hp; [|done].
  case_bool_decide as Hk; [done|].
  cbn [board specialTarget withBusy playSfx setHint withHint withBoard].
  unfold detonateArea.
  set (area := match kind p with
               | NORMAL => []
               | ROCKET => rocketArea match kind p, specialTarget g with
                                      | ROCKET, Some t => t
                                      | _, _ => origin
                                      end
               | BOMB => bombArea match kind p, specialTarget g with
                                  | ROCKET, Some t => t
                                  | _, _ => origin
                                  end
               end).
  assert (NoDup area ∧ origin ∈ area) as [Hnd Hoa].
  { unfold area. destruct (kind p) eqn:Hkp; [done| |].
    - split; [apply NoDup_rocketArea|]. apply elem_of_rocketArea.
      destruct (specialTarget g) as [t|]; [|lia].
      specialize (Ht t eq_refl). unfold manhattan in Ht. lia.
    - split; [apply NoDup_bombArea|]. apply elem_of_bombArea. lia. }
  assert (clearable (board g) origin) as Hcl by (split; [done|by rewrite Hp]).
  assert (length (willClearOf (board g) (area ++ [origin]))
          = S (length (filter (clearable (board g)) area))) as Hlen.
  { rewrite length_willClearOf, filter_app, length_app, filter_cons_True by done.
    simpl. lia. }
  assert (length (emptiedCells (board g)
                    (applyClear (willClearOf (board g) (area ++ [origin])) (board g)))
          = length (filter (clearable (board g)) area)) as Hem.
  { rewrite emptiedCells_applyClear, filter_app, filter_cons_True by done.
    rewrite filter_nil. apply length_remove_dups_snoc.
    - by apply NoDup_filter.
    - by apply list_elem_of_filter. }
  intros [= <-]. rewrite bool_decide_eq_true_2 by lia.
  rewrite board_addScore, score_addScore_nat by done.
  cbn [board score withBoard setHint withHint playSfx withBusy]. rewrite Hem, Hlen. lia.
Qed.

Lemma activation_counts_origin_twice_witness :
  ∃ g', detonateClear bombGame = Some g' ∧
        score g' = score bombGame
                   + Z.of_nat (length (emptiedCells (board bombGame) (board g'))) + 1.
Proof.
  eexists. split; [vm_compute; reflexivity|].
  apply (activation_counts_origin_twice bombGame _ (3, 3)).
  - cbn [score bombGame]. lia.
  - reflexivity.
  - reflexivity.
  - intros t Ht. discriminate Ht.
  - vm_compute. reflexivity.
Defined.

(** ** The special pieces made by a pass *)

Lemma segment_is_run b seg :
  seg ∈ findMatchSegments b → rowRun b seg ∨ colRun b seg.
Proof.
  intros Hseg.
  destruct (findMatchSegments_spec b) as (hs & vs & Hsegs & Hh & Hv & _).
  rewrite Hsegs, elem_of_app in Hseg. rewrite Forall_forall in Hh, Hv.
  destruct Hseg; [left|right]; auto.
Qed.

Lemma creation_on_run b prefs cr :
  cr ∈ computeSpecialCreations b (findMatchSegments b) prefs →
  ∃ seg, seg ∈ findMatchSegments b ∧ cr_cell cr ∈ cells seg ∧
         (4 ≤ length (cells seg))%nat ∧
         cr_kind cr = (if bool_decide (5 ≤ length (cells seg))%nat then BOMB else ROCKET) ∧
         cr_color cr = seg_color seg.
Proof.
  intros Hcr.
  destruct (computeSpecialCreations_inv b (findMatchSegments b) prefs) as (_ & Hfrom & _).
  destruct (Hfrom cr Hcr) as (seg & Hseg & Hsc).
  apply segmentCreation_Some in Hsc as (Hlen & Htgt & Hkind & Hcol & _).
  exists seg. split; [done|]. split; [|done].
  destruct (chooseTarget_in b (preferList prefs) (cells seg)) as (t & Ht & Hin).
  { intros Hnil. rewrite Hnil in Hlen. simpl in Hlen. lia. }
  rewrite Htgt in Ht. by injection Ht as ->.
Qed.

Lemma creation_inBounds b prefs cr :
  cr ∈ computeSpecialCreations b (findMatchSegments b) prefs →
  inBoundsCell (cr_cell cr) = true ∧
  ∃ p, getAt b (cr_cell cr) = Some p ∧ color p = cr_color cr.
Proof.
  intros Hcr. destruct (creation_on_run b prefs cr Hcr) as (seg & Hseg & Hin & _ & _ & Hcol).
  destruct (run_cells b seg (segment_is_run b seg Hseg)) as [_ Hcells].
  destruct (Hcells _ Hin) as [Hb Hc]. split; [done|].
  destruct (getAt b (cr_cell cr)) as [p|]; [|done].
  exists p. split; [done|]. injection Hc as ->. done.
Qed.

(** The loop that places the new pieces: the i-th entry of the map gets
    the i-th next id; other cells keep their content. *)
Lemma applyCreations_spec crs g :
  NoDup (cr_cell <$> crs) →
  (∀ cr, cr ∈ crs → inBoundsCell (cr_cell cr) = true) →
  shapeOf (board g) = shapeOf emptyBoard →
  nextId (applyCreations crs g) = (nextId g + length crs)%nat ∧
  (∀ (i : nat) cr, crs !! i = Some cr →
     getAt (board (applyCreations crs g)) (cr_cell cr)
       = Some (mkPiece (nextId g + i) (cr_color cr) (cr_kind cr))) ∧
  (∀ c, c ∉ cr_cell <$> crs →
     getAt (board (applyCreations crs g)) c = getAt (board g) c).
Proof.
  unfold applyCreations. revert g.
  induction crs as [|cr crs IH]; intros g Hnd Hin Hs.
  { cbn [fold_left length]. split; [lia|]. split; [intros i cr Hi; done|done]. }
  rewrite fmap_cons in Hnd. apply NoDup_cons in Hnd as [Hnew Hnd].
  cbn [fold_left]. rewrite (Hin cr) by left. cbn [negb].
  set (g1 := let '(np, g1) := makePiece (cr_color cr) (cr_kind cr) g in
             withBoard g1 (setAt (board g1) (cr_cell cr) (Some np))).
  assert (board g1 = setAt (board g) (cr_cell cr)
                       (Some (mkPiece (nextId g) (cr_color cr) (cr_kind cr)))) as Hb1 by done.
  assert (nextId g1 = S (nextId g)) as Hn1 by done.
  destruct (IH g1) as (Hid & Hat & Hother).
  { done. }
  { intros cr' Hcr'. apply Hin. by right. }
  { by rewrite Hb1, shapeOf_setAt. }
  split; [rewrite Hid, Hn1; cbn [length]; lia|]. split.
  - intros [|i] cr' Hi.
    + injection Hi as <-. rewrite Hother by done. rewrite Hb1, getAt_setAt_eq.
      * by rewrite Nat.add_0_r.
      * apply shapeOf_emptyBoard_inRange; [done|]. apply (Hin cr). by left.
    + rewrite (Hat i cr' Hi), Hn1. do 2 f_equal. lia.
  - intros c Hc. rewrite fmap_cons, not_elem_of_cons in Hc. destruct Hc as [Hne Hc].
    rewrite Hother by done. rewrite Hb1. by apply getAt_setAt_ne.
Qed.

(** X11.  The special pieces of a pass.  Every entry of the creation map
    comes from a run of at least 4 cells: its cell is a cell of that run,
    it is a Bomb if the run has 5 cells or more and a Rocket otherwise,
    and it has the color of the run, which is the color of the piece on
    its cell.  Its cell is not cleared in the pass (the chain expansion
    never reaches a protected cell), and after the creation loop the cell
    holds a piece of that kind and color under an id that was not in use
    before. *)
Theorem special_is_created_on_its_run prefs g g1 r cr :
  shapeOf (board g) = shapeOf emptyBoard →
  expandWithSpecialExplosions (board g)
    (clearKeysOfSegments (findMatchSegments (board g))
       (cr_cell <$> computeSpecialCreations (board g) (findMatchSegments (board g)) prefs))
    (cr_cell <$> computeSpecialCreations (board g) (findMatchSegments (board g)) prefs)
    = Some r →
  board g1 = applyClear (willClearOf (board g) r) (board g) →
  cr ∈ computeSpecialCreations (board g) (findMatchSegments (board g)) prefs →
  (∃ seg, seg ∈ findMatchSegments (board g) ∧ cr_cell cr ∈ cells seg ∧
          (4 ≤ length (cells seg))%nat ∧
          cr_kind cr = (if bool_decide (5 ≤ length (cells seg))%nat then BOMB else ROCKET) ∧
          cr_color cr = seg_color seg) ∧
  (∃ p, getAt (board g) (cr_cell cr) = Some p ∧ color p = cr_color cr) ∧
  (cr_cell cr ∉ r) ∧
  ∃ n, (nextId g1 ≤ n)%nat ∧
       getAt (board (applyCreations
                       (computeSpecialCreations (board g) (findMatchSegments (board g)) prefs)
                       g1)) (cr_cell cr)
         = Some (mkPiece n (cr_color cr) (cr_kind cr)).
Proof.
  intros Hs Hr Hb1 Hcr.
  set (creations := computeSpecialCreations (board g) (findMatchSegments (board g)) prefs)
    in *.
  split; [by apply (creation_on_run _ prefs)|].
  split; [by apply (creation_inBounds (board g) prefs)|]. split.
  - unfold expandWithSpecialExplosions in Hr.
    apply expandLoop_Some in Hr as (_ & added & -> & HF & _).
    assert (cr_cell cr ∈ cr_cell <$> creations) as Hp by (by apply list_elem_of_fmap_2).
    rewrite elem_of_app. intros [Hc|Hc].
    + apply clearKeysOfSegments_spec in Hc as [_ Hn]. done.
    + rewrite Forall_forall in HF. by destruct (HF _ Hc) as (_ & Hn & _).
  - destruct (computeSpecialCreations_inv (board g) (findMatchSegments (board g)) prefs)
      as (Hnd & _).
    destruct (applyCreations_spec creations g1 Hnd) as (_ & Hat & _).
    { intros cr' Hcr'. by apply (creation_inBounds (board g) prefs). }
    { by rewrite Hb1, shapeOf_applyClear. }
    apply list_elem_of_lookup in Hcr as [i Hi].
    exists (nextId g1 + i)%nat. split; [lia|]. by apply Hat.
Qed.

Lemma special_is_created_on_its_run_witness :
  let g := gameOf (swapCells (2, 1) (2, 0) swapBoard) in
  let cr := mkCreation (2, 0) ROCKET 0 in
  (∃ p, getAt (board g) (cr_cell cr) = Some p ∧ color p = cr_color cr) ∧
  (cr_cell cr ∉ [(0, 0); (1, 0); (3, 0)]).
Proof.
  intros g cr.
  destruct (special_is_created_on_its_run (Some ((2, 1), (2, 0))) g
              (withBoard g (applyClear (willClearOf (board g) [(0, 0); (1, 0); (3, 0)])
                              (board g)))
              [(0, 0); (1, 0); (3, 0)] cr) as (_ & Hp & Hn & _).
  - reflexivity.
  - vm_compute. reflexivity.
  - reflexivity.
  - vm_compute. left.
  - split; [exact Hp|exact Hn].
Defined.

(** ** The board of a new game *)

Section FactoryExact.

Variable rand : nat → nat.

Lemma retryColor_spec left forbid c g :
  (c < COLORS_length)%nat →
  ((retryColor rand left forbid c g).1 < COLORS_length)%nat ∧
  sameStatus g (retryColor rand left forbid c g).2 ∧
  board (retryColor rand left forbid c g).2 = board g ∧
  nextId (retryColor rand left forbid c g).2 = nextId g ∧
  (draws g ≤ draws (retryColor rand left forbid c g).2)%nat.
Proof.
  revert c g. induction left as [|left IH]; intros c g Hc; cbn [retryColor].
  { split; [done|]. split; [apply sameStatus_refl|]. cbn [snd]. split; [done|]. split; [done|lia]. }
  case_bool_decide.
  - unfold randInt.
    match goal with |- context [retryColor rand left forbid ?c' ?g'] =>
      destruct (IH c' g') as (H1 & (? & ? & ? & ? & ? & ?) & H3 & H4 & H5) end.
    { apply Nat.mod_upper_bound. done. }
    cbn [board score isBusy nextId draws specialOrigin specialTarget hint sounds] in *.
    split; [done|]. split; [by repeat split|]. split; [done|]. split; [done|lia].
  - split; [done|]. split; [apply sameStatus_refl|]. cbn [snd]. split; [done|]. split; [done|lia].
Qed.

Lemma pickColor_spec forbid g :
  ((pickColor rand forbid g).1 < COLORS_length)%nat ∧
  sameStatus g (pickColor rand forbid g).2 ∧
  board (pickColor rand forbid g).2 = board g ∧
  nextId (pickColor rand forbid g).2 = nextId g ∧
  (draws g < draws (pickColor rand forbid g).2)%nat.
Proof.
  unfold pickColor, randInt.
  assert (rand (draws g) mod COLORS_length < COLORS_length)%nat as Hc
    by (by apply Nat.mod_upper_bound).
  case_bool_decide as Hnil.
  { cbn [fst snd draws nextId board]. split; [done|]. split; [by repeat split|].
    split; [done|]. split; [done|lia]. }
  match goal with |- context [retryColor rand 12 forbid ?c' ?g'] =>
    destruct (retryColor_spec 12 forbid c' g' Hc)
      as (H1 & (? & ? & ? & ? & ? & ?) & H3 & H4 & H5);
    destruct (retryColor rand 12 forbid c' g') as [c2 g2] end.
  cbn [fst snd board score isBusy nextId draws specialOrigin specialTarget hint sounds] in *.
  assert (sameStatus g g2) as Hst by (by repeat split).
  case_bool_decide as Hc2; cbn [fst snd].
  - split; [|split; [done|split; [done|split; [done|lia]]]].
    destruct (find _ _) as [c3|] eqn:Hfind; [|done].
    apply find_Some_elem in Hfind as [Hin _]. apply elem_of_seq in Hin. lia.
  - split; [done|]. split; [done|]. split; [done|]. split; [done|lia].
Qed.

(** A row of the factory: eight new Normal pieces, ids in the order of
    the columns. *)
Lemma makeRow_spec b y g :
  length (makeRow rand b y g).1 = 8%nat ∧
  (∀ x, 0 ≤ x < GRID →
     ∃ c, (c < COLORS_length)%nat ∧
          getRow (makeRow rand b y g).1 x
            = Some (mkPiece (nextId g + Z.to_nat x) c NORMAL)) ∧
  sameStatus g (makeRow rand b y g).2 ∧
  board (makeRow rand b y g).2 = board g ∧
  nextId (makeRow rand b y g).2 = (nextId g + 8)%nat ∧
  (draws g + 8 ≤ draws (makeRow rand b y g).2)%nat.
Proof.
  unfold makeRow.
  pose (P := λ (st : Row * Game) (pre : list Z),
    length st.1 = length pre ∧
    (∀ x, 0 ≤ x < Z.of_nat (length pre) →
       ∃ c, (c < COLORS_length)%nat ∧
            getRow st.1 x = Some (mkPiece (nextId g + Z.to_nat x) c NORMAL)) ∧
    sameStatus g st.2 ∧ board st.2 = board g ∧
    nextId st.2 = (nextId g + length pre)%nat ∧
    (draws g + length pre ≤ draws st.2)%nat).
  match goal with |- context [fold_left ?f _ _] =>
    assert (P (fold_left f (seqZ 0 GRID) ([], g)) (seqZ 0 GRID)) as HP end.
  { apply fold_left_inv.
    - unfold P. cbn [fst snd length]. split; [done|]. split; [intros; lia|].
      split; [apply sameStatus_refl|]. split; [done|]. split; lia.
    - intros [row g1] pre x suf Hl (Hlen & Hrow & Hst & Hb & Hid & Hdr).
      cbn [fst snd] in *.
      assert (x = Z.of_nat (length row)) as Hx.
      { pose proof (fold_prefix_index _ _ _ _ Hl) as Hlk.
        apply lookup_seqZ in Hlk. lia. }
      destruct (pickColor_spec (forbidFor b row x y) g1)
        as (Hc & (? & ? & ? & ? & ? & ?) & Hb2 & Hid2 & Hdr2).
      destruct (pickColor rand (forbidFor b row x y) g1) as [c g2].
      destruct Hst as (? & ? & ? & ? & ? & ?).
      unfold P, makePiece, sameStatus.
      cbn [fst snd board score isBusy nextId draws specialOrigin specialTarget
           hint sounds] in *.
      rewrite !length_app. cbn [length].
      split; [lia|]. split; [|split; [repeat split; congruence|split; [congruence|split; lia]]].
      intros x' Hx'. rewrite getRow_snoc. destruct (decide (x' = Z.of_nat (length row))) as [->|Hne].
      + exists c. split; [done|]. do 2 f_equal. rewrite Hid2, Hid. lia.
      + apply Hrow. lia. }
  destruct (fold_left _ _ _) as [row g']. unfold P in HP. cbn [fst snd] in *.
  rewrite length_seqZ in HP. destruct HP as (Hlen & Hrow & Hst & Hb & Hid & Hdr).
  change (Z.to_nat GRID) with 8%nat in *.
  split; [done|]. split; [intros x Hx; apply Hrow; unfold GRID in Hx; lia|]. done.
Qed.

(** [makeBoard]: eight such rows, ids row by row. *)
Lemma makeBoard_spec g :
  shapeOf (makeBoard rand g).1 = shapeOf emptyBoard ∧
  (∀ x y, isInBounds x y = true →
     ∃ c, (c < COLORS_length)%nat ∧
          getCell (makeBoard rand g).1 x y
            = Some (mkPiece (nextId g + Z.to_nat (8 * y + x)) c NORMAL)) ∧
  sameStatus g (makeBoard rand g).2 ∧
  nextId (makeBoard rand g).2 = (nextId g + 64)%nat ∧
  (draws g + 64 ≤ draws (makeBoard rand g).2)%nat.
Proof.
  unfold makeBoard.
  pose (P := λ (st : Board * Game) (pre : list Z),
    shapeOf st.1 = replicate (length pre) 8%nat ∧
    (∀ x y, 0 ≤ x < GRID → 0 ≤ y < Z.of_nat (length pre) →
       ∃ c, (c < COLORS_length)%nat ∧
            getCell st.1 x y = Some (mkPiece (nextId g + Z.to_nat (8 * y + x)) c NORMAL)) ∧
    sameStatus g st.2 ∧
    nextId st.2 = (nextId g + 8 * length pre)%nat ∧
    (draws g + 8 * length pre ≤ draws st.2)%nat).
  match goal with |- context [fold_left ?f _ _] =>
    assert (P (fold_left f (seqZ 0 GRID) ([], g)) (seqZ 0 GRID)) as HP end.
  { apply fold_left_inv.
    - unfold P. cbn [fst snd length]. split; [done|]. split; [intros; lia|].
      split; [apply sameStatus_refl|]. split; lia.
    - intros [b g1] pre y suf Hl (Hsh & Hcell & Hst & Hid & Hdr).
      cbn [fst snd] in *.
      assert (length b = length pre) as Hlen.
      { apply (f_equal length) in Hsh. unfold shapeOf in Hsh.
        by rewrite length_fmap, length_replicate in Hsh. }
      assert (y = Z.of_nat (length b)) as Hy.
      { pose proof (fold_prefix_index _ _ _ _ Hl) as Hlk.
        apply lookup_seqZ in Hlk. lia. }
      destruct (makeRow_spec b y g1) as (Hrl & Hrow & Hst2 & _ & Hid2 & Hdr2).
      destruct (makeRow rand b y g1) as [row g2]. cbn [fst snd] in *.
      unfold P. cbn [fst snd]. rewrite !length_app. cbn [length].
      split; [|split; [|split; [by eapply sameStatus_trans|split; lia]]].
      + unfold shapeOf in *. rewrite fmap_app, Hsh. cbn [fmap list_fmap].
        rewrite Hrl, Nat.add_1_r. by rewrite replicate_S_end.
      + intros x y' Hx Hy'. rewrite getCell_snoc.
        destruct (decide (y' = Z.of_nat (length b))) as [->|Hne].
        * destruct (Hrow x Hx) as (c & Hc & Hget). exists c. split; [done|].
          rewrite Hget. do 2 f_equal. rewrite Hid. unfold GRID in Hx. lia.
        * apply Hcell; [done|lia]. }
  destruct (fold_left _ _ _) as [b g']. unfold P in HP. cbn [fst snd] in *.
  rewrite length_seqZ in HP. destruct HP as (Hsh & Hcell & Hst & Hid & Hdr).
  change (Z.to_nat GRID) with 8%nat in *.
  split; [by rewrite Hsh|]. split; [|split; [done|split; lia]].
  intros x y [Hx Hy]%isInBounds_spec. apply Hcell; [done|]. unfold GRID in Hy. lia.
Qed.

End FactoryExact.

(** X12.  A new game.  [newGame] deals a board of 8 rows of 8 cells, every
    cell holding a Normal piece of one of the six colors; the pieces get
    the next 64 ids, row by row from the top-left cell; no three pieces
    that follow each other in a row or in a column have one color.  The
    score is 0, the game is not busy, nothing is selected, and the sounds
    are as before. *)
Theorem newGame_deals_fresh_board rand g :
  let g' := newGame rand g in
  shapeOf (board g') = shapeOf emptyBoard ∧
  (∀ x y, isInBounds x y = true →
     ∃ c, (c < COLORS_length)%nat ∧
          getCell (board g') x y
            = Some (mkPiece (nextId g + Z.to_nat (8 * y + x)) c NORMAL)) ∧
  noTriple (board g') ∧
  nextId g' = (nextId g + 64)%nat ∧ (draws g + 64 ≤ draws g')%nat ∧
  score g' = 0 ∧ isBusy g' = false ∧
  specialOrigin g' = None ∧ specialTarget g' = None ∧
  hint g' = HintNewGame ∧ sounds g' = sounds g.
Proof.
  intros g'. unfold g'. rewrite board_newGame.
  destruct (makeBoard_spec rand g) as (Hsh & Hcell & (_ & _ & _ & _ & _ & Hsnd) & Hid & Hdr).
  pose proof (makeBoard_noTriple rand g) as Hnt.
  unfold newGame. destruct (makeBoard rand g) as [b g1]. cbn [fst snd] in *.
  cbn [board score isBusy nextId draws specialOrigin specialTarget hint sounds
       setHint withHint clearSelection withBusy setScore withScore withBoard].
  repeat (split; [done|]). done.
Qed.

(** ** Piece ids *)

Lemma distinctIds_sub b b' n n' :
  (n ≤ n')%nat → (∀ c p, getAt b' c = Some p → getAt b c = Some p) →
  distinctIds b n → distinctIds b' n'.
Proof.
  intros Hn Hsub [Hlt Hinj]. split.
  - intros c p Hp. apply Hsub, Hlt in Hp. lia.
  - intros c c' p p' Hp Hp'. apply (Hinj c c' p p'); by apply Hsub.
Qed.

Lemma distinctIds_applyClear b keys n :
  distinctIds b n → distinctIds (applyClear (willClearOf b keys) b) n.
Proof.
  apply distinctIds_sub; [lia|]. intros c p.
  rewrite getAt_applyClear_willClearOf. by case_bool_decide.
Qed.

Lemma distinctIds_swapCells b a c n :
  inRange b a.1 a.2 → inRange b c.1 c.2 →
  distinctIds b n → distinctIds (swapCells a c b) n.
Proof.
  intros Ha Hc [Hlt Hinj].
  assert (∀ k, getAt (swapCells a c b) k
               = getAt b (if decide (k = c) then a else if decide (k = a) then c else k))
    as Hget.
  { intros k. rewrite getAt_swapCells by done. by repeat destruct (decide _). }
  split.
  - intros k p. rewrite Hget. apply Hlt.
  - intros k k' p p'. rewrite !Hget. intros Hp Hp' Hid.
    pose proof (Hinj _ _ _ _ Hp Hp' Hid) as Heq.
    repeat destruct (decide _); congruence.
Qed.

Lemma distinctIds_applyCreations crs g :
  NoDup (cr_cell <$> crs) →
  (∀ cr, cr ∈ crs → inBoundsCell (cr_cell cr) = true) →
  shapeOf (board g) = shapeOf emptyBoard →
  distinctIds (board g) (nextId g) →
  distinctIds (board (applyCreations crs g)) (nextId (applyCreations crs g)).
Proof.
  intros Hnd Hin Hs [Hlt Hinj].
  destruct (applyCreations_spec crs g Hnd Hin Hs) as (Hid & Hat & Hother).
  assert (∀ c p, getAt (board (applyCreations crs g)) c = Some p →
            (∃ (i : nat) cr, crs !! i = Some cr ∧ cr_cell cr = c ∧ id p = (nextId g + i)%nat) ∨
            getAt (board g) c = Some p) as Hcls.
  { intros c p Hp. destruct (decide (c ∈ cr_cell <$> crs)) as [Hc|Hc].
    - left. apply list_elem_of_fmap in Hc as (cr & -> & Hcr).
      apply list_elem_of_lookup in Hcr as [i Hi]. exists i, cr.
      split; [done|]. split; [done|]. rewrite (Hat i cr Hi) in Hp. by injection Hp as <-.
    - right. by rewrite Hother in Hp. }
  rewrite Hid. split.
  - intros c p Hp. destruct (Hcls c p Hp) as [(i & cr & Hi & _ & ->)|Hp0].
    + apply lookup_lt_Some in Hi. lia.
    + apply Hlt in Hp0. lia.
  - intros c c' p p' Hp Hp' Heq.
    destruct (Hcls c p Hp) as [(i & cr & Hi & <- & Hidp)|Hp0],
             (Hcls c' p' Hp') as [(i' & cr' & Hi' & <- & Hidp')|Hp0'].
    + assert (i = i') by lia. subst. congruence.
    + apply Hlt in Hp0'. lia.
    + apply Hlt in Hp0. lia.
    + by eapply Hinj.
Qed.

Lemma survivors_omap b x : survivors b x = omap (λ y, getCell b x y) (seqZ 0 GRID).
Proof. unfold survivors, column. apply omap_id_fmap. Qed.

Lemma elem_of_survivors b x p :
  p ∈ survivors b x → ∃ y, 0 ≤ y < GRID ∧ getCell b x y = Some p.
Proof.
  rewrite survivors_omap, list_elem_of_omap. intros (y & Hy%elem_of_seqZ & Hp).
  exists y. split; [lia|done].
Qed.

Lemma NoDup_ids_omap {A} (f : A → option Piece) (l : list A) :
  NoDup l →
  (∀ a a' p p', a ∈ l → a' ∈ l → f a = Some p → f a' = Some p' → id p = id p' → a = a') →
  NoDup (id <$> omap f l).
Proof.
  induction 1 as [|a l Ha Hnd IH]; intros Hinj; [constructor|].
  change (omap f (a :: l))
    with (match f a with Some y => y :: omap f l | None => omap f l end).
  assert (NoDup (id <$> omap f l)) as Hrec.
  { apply IH. intros a1 a2 p1 p2 H1 H2. apply Hinj; by right. }
  destruct (f a) as [p|] eqn:Hfa; [|done].
  rewrite fmap_cons. apply NoDup_cons. split; [|done].
  intros (q & Hq & Hin)%list_elem_of_fmap.
  apply list_elem_of_omap in Hin as (a' & Ha' & Hfa').
  assert (a = a') as -> by (apply (Hinj a a' p q); [left|by right|done..]).
  done.
Qed.

Lemma newBefore_mono b (t t' : nat) :
  (t < t')%nat →
  (newBefore b (Z.of_nat t) + newInColumn b (Z.of_nat t) ≤ newBefore b (Z.of_nat t'))%nat.
Proof.
  induction t' as [|t' IH]; intros Hlt; [lia|]. rewrite (newBefore_succ b t').
  destruct (decide (t = t')) as [->|Hne]; [lia|]. etrans; [apply IH; lia|lia].
Qed.

Lemma newBefore_lt b x x' :
  0 ≤ x < x' → (newBefore b x + newInColumn b x ≤ newBefore b x')%nat.
Proof.
  intros Hx. pose proof (newBefore_mono b (Z.to_nat x) (Z.to_nat x') ltac:(lia)) as H.
  by rewrite !Z2Nat.id in H by lia.
Qed.

Section Ids.

Variable rand : nat → nat.

(** A cell of the collapsed board holds a new piece or a survivor of its
    column. *)
Lemma collapse_cell g x y p :
  isInBounds x y = true →
  getCell (board (collapseAndFillAnimated rand g)) x y = Some p →
  (∃ j : nat, (j < newInColumn (board g) x)%nat ∧
     y = Z.of_nat (newInColumn (board g) x) - 1 - Z.of_nat j ∧
     id p = (nextId g + newBefore (board g) x + j)%nat) ∨
  (∃ i : nat, y = Z.of_nat (newInColumn (board g) x) + Z.of_nat i ∧
     survivors (board g) x !! i = Some p).
Proof.
  intros [Hx Hy]%isInBounds_spec Hp.
  destruct (collapse_exact rand g) as (_ & _ & _ & _ & Hcol).
  destruct (Hcol x Hx) as [Hsurv Hnew].
  pose proof (length_survivors (board g) x) as Hlen.
  assert (Z.of_nat (newInColumn (board g) x)
          = 8 - Z.of_nat (length (survivors (board g) x))) as Hm
    by (unfold newInColumn, GRID; lia).
  unfold GRID in *.
  destruct (decide (y < Z.of_nat (newInColumn (board g) x))) as [Hlt|Hge].
  - left. exists (Z.to_nat (Z.of_nat (newInColumn (board g) x) - 1 - y)).
    split; [lia|]. split; [lia|].
    specialize (Hnew (Z.to_nat (Z.of_nat (newInColumn (board g) x) - 1 - y)) ltac:(lia)).
    replace (Z.of_nat (newInColumn (board g) x) - 1
             - Z.of_nat (Z.to_nat (Z.of_nat (newInColumn (board g) x) - 1 - y)))
      with y in Hnew by lia.
    rewrite Hnew in Hp. by injection Hp as <-.
  - right. exists (Z.to_nat (y - Z.of_nat (newInColumn (board g) x))).
    split; [lia|].
    destruct (lookup_lt_is_Some_2 (survivors (board g) x)
                (Z.to_nat (y - Z.of_nat (newInColumn (board g) x)))) as [q Hq]; [lia|].
    pose proof (Hsurv _ _ Hq) as Hget.
    replace (Z.of_nat (newInColumn (board g) x)
             + Z.of_nat (Z.to_nat (y - Z.of_nat (newInColumn (board g) x))))
      with y in Hget by lia.
    congruence.
Qed.

Lemma distinctIds_collapse g :
  distinctIds (board g) (nextId g) →
  distinctIds (board (collapseAndFillAnimated rand g))
              (nextId (collapseAndFillAnimated rand g)).
Proof.
  intros [Hlt Hinj].
  destruct (collapse_exact rand g) as (Hsh & _ & Hid & _ & _).
  assert (∀ c p, getAt (board (collapseAndFillAnimated rand g)) c = Some p →
                 isInBounds c.1 c.2 = true) as Hin.
  { intros c p Hp. apply getCell_Some_inRange in Hp. by eapply inRange_emptyShape. }
  assert (∀ x p, p ∈ survivors (board g) x → (id p < nextId g)%nat) as Hold.
  { intros x p (y0 & _ & Hy0)%elem_of_survivors. by apply (Hlt (x, y0)). }
  assert (∀ x, 0 ≤ x < GRID →
            (newBefore (board g) x + newInColumn (board g) x
             ≤ newBefore (board g) GRID)%nat) as Htot.
  { intros x Hx. apply newBefore_lt. lia. }
  rewrite Hid. split.
  - intros [x y] p Hp. pose proof (Hin _ _ Hp) as Hb. cbn [fst snd] in Hb.
    pose proof Hb as [Hx _]%isInBounds_spec.
    destruct (collapse_cell g x y p Hb Hp) as [(j & Hj & _ & ->)|(i & _ & Hi)].
    + specialize (Htot x Hx). lia.
    + apply list_elem_of_lookup_2, Hold in Hi. lia.
  - intros [x y] [x' y'] p p' Hp Hp' Heq.
    pose proof (Hin _ _ Hp) as Hb. pose proof (Hin _ _ Hp') as Hb'.
    cbn [fst snd] in Hb, Hb'.
    pose proof Hb as [Hx _]%isInBounds_spec. pose proof Hb' as [Hx' _]%isInBounds_spec.
    destruct (collapse_cell g x y p Hb Hp) as [(j & Hj & Hy & Hidp)|(i & Hy & Hi)],
             (collapse_cell g x' y' p' Hb' Hp') as [(j' & Hj' & Hy' & Hidp')|(i' & Hy' & Hi')].
    + assert (x = x') as <-.
      { destruct (Z.lt_trichotomy x x') as [Hl|[?|Hl]]; [|done|].
        - pose proof (newBefore_lt (board g) x x' ltac:(lia)). lia.
        - pose proof (newBefore_lt (board g) x' x ltac:(lia)). lia. }
      f_equal. lia.
    + apply list_elem_of_lookup_2, Hold in Hi'. lia.
    + apply list_elem_of_lookup_2, Hold in Hi. lia.
    + assert (x = x') as <-.
      { apply list_elem_of_lookup_2, elem_of_survivors in Hi as (y0 & _ & Hy0).
        apply list_elem_of_lookup_2, elem_of_survivors in Hi' as (y0' & _ & Hy0').
        pose proof (Hinj (x, y0) (x', y0') p p' Hy0 Hy0' Heq) as Hc. by injection Hc. }
      assert (NoDup (id <$> survivors (board g) x)) as Hnd.
      { rewrite survivors_omap. apply NoDup_ids_omap; [apply NoDup_seqZ|].
        intros a a' q q' _ _ Hq Hq' He.
        pose proof (Hinj (x, a) (x, a') q q' Hq Hq' He) as Hc. by injection Hc. }
      assert (i = i') as <-.
      { apply (NoDup_lookup _ i i' (id p) Hnd); rewrite list_lookup_fmap.
        - by rewrite Hi.
        - by rewrite Hi', Heq. }
      f_equal. lia.
Qed.

Lemma distinctIds_makeBoard g :
  distinctIds (makeBoard rand g).1 (nextId (makeBoard rand g).2).
Proof.
  destruct (makeBoard_spec rand g) as (Hsh & Hcell & _ & Hid & _).
  assert (∀ c p, getAt (makeBoard rand g).1 c = Some p →
            isInBounds c.1 c.2 = true ∧ id p = (nextId g + Z.to_nat (8 * c.2 + c.1))%nat)
    as Hcls.
  { intros c p Hp. pose proof Hp as Hb.
    apply getCell_Some_inRange in Hb. apply (inRange_emptyShape _ _ _ Hsh) in Hb.
    split; [done|]. destruct (Hcell _ _ Hb) as (k & _ & Hget).
    unfold getAt in Hp. rewrite Hget in Hp. by injection Hp as <-. }
  rewrite Hid. split.
  - intros c p Hp. destruct (Hcls c p Hp) as [[Hx Hy]%isInBounds_spec ->].
    unfold GRID in *. lia.
  - intros [x y] [x' y'] p p' Hp Hp' Heq.
    destruct (Hcls _ _ Hp) as [[Hx Hy]%isInBounds_spec Hi].
    destruct (Hcls _ _ Hp') as [[Hx' Hy']%isInBounds_spec Hi'].
    cbn [fst snd] in *. unfold GRID in *. f_equal; lia.
Qed.

Lemma resolvePass_again prefs g g1 :
  resolvePass rand prefs g = Some (PassAgain g1) →
  ∃ r, g1 = afterPass rand g (willClearOf (board g) r)
              (computeSpecialCreations (board g) (findMatchSegments (board g)) prefs).
Proof.
  unfold resolvePass. case_bool_decide; [done|].
  destruct (expandWithSpecialExplosions _ _ _) as [r|]; [|done].
  case_bool_decide; [done|]. intros [= <-]. exists r. unfold afterPass. reflexivity.
Qed.

Lemma distinctIds_afterPass prefs g r :
  shapeOf (board g) = shapeOf emptyBoard →
  distinctIds (board g) (nextId g) →
  let g1 := afterPass rand g (willClearOf (board g) r)
              (computeSpecialCreations (board g) (findMatchSegments (board g)) prefs) in
  distinctIds (board g1) (nextId g1).
Proof.
  intros Hs Hd. unfold afterPass. apply distinctIds_collapse.
  destruct (computeSpecialCreations_inv (board g) (findMatchSegments (board g)) prefs)
    as (Hnd & _).
  destruct (status_addScore (Z.of_nat (length (willClearOf (board g) r)))
              (withBoard (playSfx SfxMatch g)
                 (applyClear (willClearOf (board g) r) (board (playSfx SfxMatch g)))))
    as (_ & Hn & _).
  apply distinctIds_applyCreations; [done| | |].
  - intros cr Hcr. by apply (creation_inBounds (board g) prefs).
  - rewrite board_addScore. cbn [board withBoard playSfx]. by rewrite shapeOf_applyClear.
  - rewrite board_addScore, Hn. cbn [board nextId withBoard playSfx].
    by apply distinctIds_applyClear.
Qed.

Lemma resolve_distinctIds fuel prefs g g' :
  shapeOf (board g) = shapeOf emptyBoard →
  distinctIds (board g) (nextId g) →
  resolveMatchesAnimated rand fuel prefs g = Some g' →
  distinctIds (board g') (nextId g').
Proof.
  revert prefs g. induction fuel as [|fuel IH]; intros prefs g Hs Hd; [done|].
  cbn [resolveMatchesAnimated].
  destruct (resolvePass rand prefs g) as [[g1|g1]|] eqn:Hp; [| |done].
  - destruct (resolvePass_cases rand prefs g) as [[_ Hq]|(_ & ? & ? & _ & _ & Hq)];
      rewrite Hq in Hp; [|done]. injection Hp as <-. by intros [= <-].
  - apply resolvePass_again in Hp as [r ->]. apply IH.
    + apply afterPass_full.
    + by apply distinctIds_afterPass.
Qed.

Lemma detonateClear_board g g5 :
  detonateClear g = Some g5 →
  nextId g5 = nextId g ∧
  ∃ keys, board g5 = applyClear (willClearOf (board g) keys) (board g).
Proof.
  unfold detonateClear. destruct (isBusy g); [done|].
  destruct (specialOrigin g) as [origin|]; [|done].
  destruct (getAt (board g) origin) as [p|]; [|done].
  case_bool_decide; [done|]. intros [= <-].
  cbn [board specialTarget withBusy playSfx setHint withHint withBoard].
  case_bool_decide.
  - destruct (status_addScore
                (Z.of_nat (length (willClearOf (board g)
                                     (detonateArea p origin (specialTarget g)))))
                (withBoard
                   (setHint (if bool_decide (kind p = ROCKET)
                             then HintRocketBoom else HintBombBoom)
                      (playSfx (if bool_decide (kind p = ROCKET)
                                then SfxRocket else SfxBomb) (withBusy g true)))
                   (applyClear (willClearOf (board g)
                                  (detonateArea p origin (specialTarget g))) (board g))))
      as (_ & Hn & _).
    rewrite Hn, board_addScore. split; [done|]. by eexists.
  - split; [done|]. by eexists.
Qed.

(** What holds of the board in every resting state. *)
Lemma resting_sound g :
  resting rand g →
  shapeOf (board g) = shapeOf emptyBoard ∧ fullBoard (board g) ∧
  distinctIds (board g) (nextId g).
Proof.
  induction 1 as [g|g fuel o t g' _ (IHs & IHf & IHd) Hs|g o t _ IH|g _ IH
                  |g fuel g' _ (IHs & IHf & IHd) Hd|g v _ IH].
  - rewrite board_newGame.
    destruct (makeBoard_spec rand g) as (Hsh & Hcell & _).
    pose proof (distinctIds_makeBoard g) as Hd.
    assert (nextId (newGame rand g) = nextId (makeBoard rand g).2) as ->
      by (unfold newGame; by destruct (makeBoard rand g)).
    split; [done|]. split; [|done].
    intros x y Hin. destruct (Hcell x y Hin) as (c & _ & ->). eauto.
  - unfold attemptSwap in Hs.
    destruct (isBusy g); [by injection Hs as <-|].
    destruct (negb (inBoundsCell o) || negb (inBoundsCell t)) eqn:Hb;
      [by injection Hs as <-|].
    apply orb_false_elim in Hb as [Ho%negb_false_iff Ht%negb_false_iff].
    destruct (negb (manhattan o t =? 1)); [by injection Hs as <-|].
    destruct (getAt (board g) o) as [a|] eqn:Ha; [|by injection Hs as <-].
    destruct (getAt (board g) t) as [c|] eqn:Hc; [|by injection Hs as <-].
    cbn zeta in Hs.
    assert (inRange (board g) o.1 o.2) as Hro by (by eapply getCell_Some_inRange).
    assert (inRange (board g) t.1 t.2) as Hrt by (by eapply getCell_Some_inRange).
    case_bool_decide as Hseg.
    + injection Hs as <-.
      cbn [board nextId playSfx withBoard withBusy setHint withHint].
      by rewrite swapCells_involutive.
    + destruct (resolveMatchesAnimated rand fuel _ _) as [g5|] eqn:Hr; [|done].
      injection Hs as <-. cbn [board nextId withBusy].
      pose proof (resolve_full rand _ _ _ _ Hr) as [[Hq _]|(_ & Hsh & Hfull)].
      { exfalso. apply Hseg.
        cbn [board playSfx withBoard withBusy setHint withHint] in Hq.
        cbn [board playSfx withBoard withBusy]. by rewrite Hq. }
      split; [done|]. split; [done|].
      apply (resolve_distinctIds _ _ _ _) in Hr; [done| |].
      * cbn [board playSfx withBoard withBusy setHint withHint].
        by rewrite shapeOf_swapCells.
      * cbn [board nextId playSfx withBoard withBusy setHint withHint].
        by apply distinctIds_swapCells.
  - done.
  - done.
  - unfold detonateSpecial in Hd.
    destruct (detonateClear g) as [g5|] eqn:Hc; [|by injection Hd as <-].
    destruct (resolveMatchesAnimated rand fuel _ _) as [g7|] eqn:Hr; [|done].
    injection Hd as <-. cbn [board nextId withBusy].
    apply detonateClear_board in Hc as (Hn & keys & Hb).
    assert (distinctIds (board g5) (nextId g5)) as Hd5
      by (rewrite Hb, Hn; by apply distinctIds_applyClear).
    destruct (collapseAndFillAnimated_full rand g5) as [Hsh6 Hfull6].
    pose proof (distinctIds_collapse g5 Hd5) as Hd6.
    split; [|split].
    + destruct (resolve_full rand _ _ _ _ Hr) as [[_ ->]|(_ & ? & ?)]; done.
    + destruct (resolve_full rand _ _ _ _ Hr) as [[_ ->]|(_ & ? & ?)]; done.
    + by apply (resolve_distinctIds _ _ _ _ Hsh6 Hd6 Hr).
  - done.
Qed.

End Ids.

Lemma pieceCount_full b : fullBoard b → pieceCount b = 64%nat.
Proof.
  intros Hfull. unfold pieceCount.
  assert (filter (λ c, is_Some (getAt b c)) allCells = allCells) as ->; [|done].
  assert (Forall (λ c, is_Some (getAt b c)) allCells) as Hall.
  { apply Forall_forall. intros c Hc. apply elem_of_allCells in Hc. by apply Hfull. }
  induction Hall as [|c l Hc _ IH]; [done|]. by rewrite filter_cons_True, IH.
Qed.

(** X13.  In every resting state the board has 8 rows of 8 cells and
    every cell holds a piece: 64 pieces. *)
Theorem resting_board_is_full rand g :
  resting rand g →
  shapeOf (board g) = shapeOf emptyBoard ∧ fullBoard (board g) ∧
  pieceCount (board g) = 64%nat.
Proof.
  intros Hr. destruct (resting_sound rand g Hr) as (Hs & Hf & _).
  split; [done|]. split; [done|]. by apply pieceCount_full.
Qed.

Lemma resting_board_is_full_witness :
  shapeOf (board (newGame countRand (gameOf quietBoard))) = shapeOf emptyBoard ∧
  fullBoard (board (newGame countRand (gameOf quietBoard))) ∧
  pieceCount (board (newGame countRand (gameOf quietBoard))) = 64%nat.
Proof. apply (resting_board_is_full countRand). apply resting_newGame. Defined.

(** X14.  In every resting state the pieces on the board have pairwise
    distinct ids, and every id on the board is below [nextId]: a piece
    made later never shares its id with a piece on the board. *)
Theorem resting_ids_are_distinct rand g :
  resting rand g → distinctIds (board g) (nextId g).
Proof. intros Hr. by destruct (resting_sound rand g Hr) as (_ & _ & Hd). Qed.

Lemma resting_ids_are_distinct_witness :
  distinctIds (board (newGame countRand (gameOf quietBoard)))
              (nextId (newGame countRand (gameOf quietBoard))).
Proof. apply (resting_ids_are_distinct countRand). apply resting_newGame. Defined.

(** ** The run detector finds every run, and whole runs *)

Lemma covered_mono mk d segs segs' j c :
  (∀ seg, seg ∈ segs → seg ∈ segs') → covered mk d segs j c → covered mk d segs' j c.
Proof. intros Hsub (seg & Hseg & H). exists seg. split; [by apply Hsub|done]. Qed.

Section ScanComplete.

Variable getc : Z → option nat.
Variable mk : Z → Cell.
Variable d : Dir.

Lemma scanLine_complete segs0 :
  (∀ seg, seg ∈ scanLine getc mk d segs0 → seg ∈ segs0 ∨ maximalRun getc mk d seg) ∧
  (∀ seg, seg ∈ segs0 → seg ∈ scanLine getc mk d segs0) ∧
  (∀ j c, 0 ≤ j → j + 2 < GRID → tripleAt getc j c →
          covered mk d (scanLine getc mk d segs0) j c).
Proof.
  unfold scanLine.
  pose (P := λ (i : Z) (st : option nat * Z * list MatchSegment),
    let '(rc, rs, segs) := st in
    ((i = 0 ∧ rs = 0) ∨ 0 ≤ rs < i) ∧
    (∀ j, rs ≤ j < i → scanColor getc j = rc) ∧
    (rs = 0 ∨ scanColor getc (rs - 1) ≠ rc) ∧
    (∀ seg, seg ∈ segs0 → seg ∈ segs) ∧
    (∀ seg, seg ∈ segs → seg ∈ segs0 ∨
       ∃ s len c, seg = mkSegment (mk <$> seqZ s len) c d ∧
         0 ≤ s ∧ 3 ≤ len ∧ s + len ≤ rs ∧
         (∀ j, s ≤ j < s + len → scanColor getc j = Some c) ∧
         (s = 0 ∨ scanColor getc (s - 1) ≠ Some c) ∧
         scanColor getc (s + len) ≠ Some c) ∧
    (∀ j c, 0 ≤ j → j + 2 < rs → tripleAt (scanColor getc) j c → covered mk d segs j c)).
  assert (∀ n : nat,
            P (Z.of_nat n)
              (fold_left (scanStep getc mk d) (seqZ 0 (Z.of_nat n)) (None, 0, segs0))) as Hn.
  { induction n as [|n IH].
    - cbn [Z.of_nat seqZ fold_left]. unfold P. simpl.
      split; [by left|]. split; [intros; lia|]. split; [by left|].
      split; [done|]. split; [by left|]. intros; lia.
    - rewrite seqZ_S, fold_left_app. cbn [fold_left]. rewrite Z.add_0_l.
      destruct (fold_left _ _ _) as [[rc rs] segs].
      destruct IH as (I1 & I2 & I3 & I4 & I5 & I6).
      replace (Z.of_nat (S n)) with (Z.of_nat n + 1) by lia.
      set (i := Z.of_nat n) in *. assert (0 ≤ i) as Hi by lia.
      unfold scanStep. fold (scanColor getc i).
      case_bool_decide as Hc.
      + split; [right; lia|]. split; [|done].
        intros j Hj. destruct (decide (j = i)) as [->|]; [done|]. apply I2. lia.
      + set (segs' := match rc with
                      | Some rc0 =>
                          if 3 <=? i - rs
                          then segs ++ [mkSegment (mk <$> seqZ rs (i - rs)) rc0 d]
                          else segs
                      | None => segs
                      end).
        assert (∀ seg, seg ∈ segs → seg ∈ segs') as Hmono.
        { intros seg Hseg. unfold segs'. destruct rc; [|done].
          destruct (3 <=? i - rs); [|done]. apply elem_of_app. by left. }
        assert (i = 0 ∨ scanColor getc (i - 1) = rc) as Hprev.
        { destruct I1 as [[? ?]|?]; [by left|]. right. apply I2. lia. }
        split; [right; lia|]. split; [intros j Hj; by replace j with i by lia|].
        split; [destruct Hprev as [?|Hp]; [by left|right; congruence]|].
        split; [intros seg Hseg; by apply Hmono, I4|]. split.
        * intros seg Hseg.
          assert (seg ∈ segs ∨
                  ∃ rc0, rc = Some rc0 ∧ 3 ≤ i - rs ∧
                         seg = mkSegment (mk <$> seqZ rs (i - rs)) rc0 d) as [Hold|Hnew].
          { unfold segs' in Hseg. destruct rc as [rc0|]; [|by left].
            destruct (Z.leb_spec 3 (i - rs)); [|by left].
            apply elem_of_app in Hseg as [?|Hs]; [by left|].
            apply list_elem_of_singleton in Hs. right. by exists rc0. }
          -- destruct (I5 seg Hold) as [?|(s & len & c & ? & ? & ? & ? & ? & ? & ?)];
               [by left|].
             right. exists s, len, c. repeat split; [done|done|done|lia|done..].
          -- destruct Hnew as (rc0 & -> & Hlen & ->). right.
             exists rs, (i - rs), rc0.
             split; [done|]. split; [lia|]. split; [done|]. split; [lia|].
             split; [intros j Hj; apply I2; lia|]. split; [done|].
             replace (rs + (i - rs)) with i by lia. congruence.
        * intros j c Hj Hlt (H0 & H1 & H2).
          destruct (decide (j + 2 < rs)) as [Hin|Hout].
          { eapply covered_mono; [exact Hmono|]. apply I6; [done..|]. by split. }
          assert (rc = Some c) as Hrc by (rewrite <- H2; symmetry; apply I2; lia).
          destruct (decide (rs ≤ j)) as [Hge|Hl].
          -- exists (mkSegment (mk <$> seqZ rs (i - rs)) c d).
             split.
             { unfold segs'. rewrite Hrc. destruct (Z.leb_spec 3 (i - rs)); [|lia].
               apply elem_of_app. right. by apply list_elem_of_singleton. }
             cbn [dir seg_color cells]. split; [done|]. split; [done|].
             repeat split; apply list_elem_of_fmap_2, elem_of_seqZ; lia.
          -- exfalso. destruct I3 as [?|Hb]; [lia|]. apply Hb. rewrite Hrc.
             destruct (decide (rs = j + 1)) as [->|]; [by replace (j + 1 - 1) with j by lia|].
             by replace (rs - 1) with (j + 1) by lia. }
  specialize (Hn 9%nat). change (Z.of_nat 9) with (GRID + 1) in Hn.
  destruct (fold_left _ _ _) as [[rc rs] segs]. cbn [snd].
  destruct Hn as (I1 & I2 & I3 & I4 & I5 & I6). unfold GRID in *.
  assert (rc = None) as ->.
  { rewrite <- (I2 8) by lia. unfold scanColor. done. }
  assert (∀ j, j < 8 → scanColor getc j = getc j) as Hsc.
  { intros j Hj. unfold scanColor, GRID. by destruct (Z.ltb_spec j 8); [|lia]. }
  split; [|split; [done|]].
  - intros seg Hseg.
    destruct (I5 seg Hseg) as [?|(s & len & c & -> & Hs & Hlen & Hb & Hcol & Hbefore & Hafter)];
      [by left|].
    right. exists s, len, c. split; [done|]. split; [done|]. split; [done|].
    assert (s + len ≤ 8) as Hle.
    { destruct (Z.le_gt_cases (s + len) 8); [done|].
      specialize (Hcol 8 ltac:(lia)). unfold scanColor in Hcol. done. }
    split; [done|]. split; [intros j Hj; rewrite <- Hsc by lia; by apply Hcol|].
    split.
    + destruct Hbefore as [?|Hbefore]; [by left|]. right. by rewrite <- Hsc by lia.
    + destruct (decide (s + len = 8)); [by left|]. right. by rewrite <- Hsc by lia.
  - intros j c Hj Hlt (H0 & H1 & H2).
    destruct (decide (j + 2 < rs)) as [Hin|Hout].
    + apply I6; [done..|]. unfold tripleAt. by rewrite !Hsc by lia.
    + exfalso. specialize (I2 (j + 2) ltac:(lia)). rewrite Hsc in I2 by lia. congruence.
Qed.

End ScanComplete.

Section ScanLinesComplete.

Variable getc : Z → Z → option nat.
Variable mk : Z → Z → Cell.
Variable d : Dir.

Lemma scanLines_complete segs0 :
  let segs := fold_left (λ segs k, scanLine (getc k) (mk k) d segs) (seqZ 0 GRID) segs0 in
  (∀ seg, seg ∈ segs →
     seg ∈ segs0 ∨ ∃ k, 0 ≤ k < GRID ∧ maximalRun (getc k) (mk k) d seg) ∧
  (∀ seg, seg ∈ segs0 → seg ∈ segs) ∧
  (∀ k j c, 0 ≤ k < GRID → 0 ≤ j → j + 2 < GRID → tripleAt (getc k) j c →
            covered (mk k) d segs j c).
Proof.
  assert (∀ n : nat, (n ≤ 8)%nat →
    let segs := fold_left (λ segs k, scanLine (getc k) (mk k) d segs)
                          (seqZ 0 (Z.of_nat n)) segs0 in
    (∀ seg, seg ∈ segs →
       seg ∈ segs0 ∨ ∃ k, 0 ≤ k < GRID ∧ maximalRun (getc k) (mk k) d seg) ∧
    (∀ seg, seg ∈ segs0 → seg ∈ segs) ∧
    (∀ k j c, 0 ≤ k < Z.of_nat n → 0 ≤ j → j + 2 < GRID → tripleAt (getc k) j c →
              covered (mk k) d segs j c)) as Hn.
  { induction n as [|n IH]; intros Hle.
    - cbn [Z.of_nat seqZ fold_left]. simpl. split; [by left|]. split; [done|]. intros; lia.
    - destruct IH as (Hfrom & Hkeep & Hcov); [lia|]. cbn zeta.
      rewrite seqZ_S, fold_left_app, Z.add_0_l. cbn [fold_left].
      set (prev := fold_left (λ segs k, scanLine (getc k) (mk k) d segs)
                             (seqZ 0 (Z.of_nat n)) segs0) in *.
      destruct (scanLine_complete (getc (Z.of_nat n)) (mk (Z.of_nat n)) d prev)
        as (Lfrom & Lkeep & Lcov).
      split; [|split].
      + intros seg Hseg. destruct (Lfrom seg Hseg) as [Hp|Hm]; [by apply Hfrom|].
        right. exists (Z.of_nat n). split; [unfold GRID; lia|done].
      + intros seg Hseg. by apply Lkeep, Hkeep.
      + intros k j c Hk Hj Hlt Ht. destruct (decide (k = Z.of_nat n)) as [->|Hne].
        * by apply Lcov.
        * eapply covered_mono; [exact Lkeep|]. apply Hcov; [lia|done..]. }
  apply (Hn 8%nat). lia.
Qed.

End ScanLinesComplete.

(** X15.  The runs the detector reports are whole runs.  Every reported
    segment is a horizontal run of a row of the grid, or a vertical run of
    a column: at least 3 cells that follow each other, all holding pieces
    of the color of the segment; and the cell before it and the cell
    after it, where they are in the grid, do not hold a piece of that
    color.  So a line of 4 or 5 equal pieces is reported as one run of 4
    or 5, never as a shorter one. *)
Theorem reported_runs_are_maximal b seg :
  seg ∈ findMatchSegments b →
  (∃ y, 0 ≤ y < GRID ∧ maximalRun (λ x, colorAt b x y) (λ x, (x, y)) DirH seg) ∨
  (∃ x, 0 ≤ x < GRID ∧ maximalRun (λ y, colorAt b x y) (λ y, (x, y)) DirV seg).
Proof.
  unfold findMatchSegments, scanCols, scanRows. intros Hseg.
  destruct (scanLines_complete (λ x y, colorAt b x y) (λ x y, (x, y)) DirV
              (fold_left (λ segs y, scanLine (λ x, colorAt b x y) (λ xx, (xx, y)) DirH segs)
                         (seqZ 0 GRID) [])) as (Vfrom & _ & _).
  destruct (scanLines_complete (λ y x, colorAt b x y) (λ y x, (x, y)) DirH [])
    as (Hfrom & _ & _).
  destruct (Vfrom seg Hseg) as [Hh|Hv]; [|by right].
  destruct (Hfrom seg Hh) as [Hnil|Hrun]; [by apply elem_of_nil in Hnil|by left].
Qed.

Lemma reported_runs_are_maximal_witness :
  let seg := mkSegment [(0, 0); (1, 0); (2, 0); (3, 0)] 0 DirH in
  (∃ y, 0 ≤ y < GRID ∧
        maximalRun (λ x, colorAt rocketsInRunBoard x y) (λ x, (x, y)) DirH seg) ∨
  (∃ x, 0 ≤ x < GRID ∧
        maximalRun (λ y, colorAt rocketsInRunBoard x y) (λ y, (x, y)) DirV seg).
Proof.
  intros seg. apply (reported_runs_are_maximal rocketsInRunBoard seg).
  vm_compute. left.
Defined.

Lemma findMatchSegments_covers b :
  (∀ x y c, 0 ≤ y < GRID → 0 ≤ x → x + 2 < GRID →
     tripleAt (λ x, colorAt b x y) x c →
     covered (λ x, (x, y)) DirH (findMatchSegments b) x c) ∧
  (∀ x y c, 0 ≤ x < GRID → 0 ≤ y → y + 2 < GRID →
     tripleAt (λ y, colorAt b x y) y c →
     covered (λ y, (x, y)) DirV (findMatchSegments b) y c).
Proof.
  unfold findMatchSegments, scanCols, scanRows.
  destruct (scanLines_complete (λ x y, colorAt b x y) (λ x y, (x, y)) DirV
              (fold_left (λ segs y, scanLine (λ x, colorAt b x y) (λ xx, (xx, y)) DirH segs)
                         (seqZ 0 GRID) [])) as (_ & Vkeep & Vcov).
  destruct (scanLines_complete (λ y x, colorAt b x y) (λ y x, (x, y)) DirH [])
    as (_ & _ & Hcov).
  split.
  - intros x y c Hy Hx Hlt Ht. eapply covered_mono; [exact Vkeep|].
    by apply (Hcov y x c).
  - intros x y c Hx Hy Hlt Ht. by apply (Vcov x y c).
Qed.

(** X16.  The detector misses nothing.  Three cells of the grid that
    follow each other in a row and hold pieces of one color lie together
    in one reported horizontal run of that color; likewise in a column,
    with a vertical run. *)
Theorem every_triple_is_in_a_reported_run b x y c :
  isInBounds x y = true →
  (isInBounds (x + 2) y = true →
   colorAt b x y = Some c → colorAt b (x + 1) y = Some c → colorAt b (x + 2) y = Some c →
   ∃ seg, seg ∈ findMatchSegments b ∧ dir seg = DirH ∧ seg_color seg = c ∧
          (x, y) ∈ cells seg ∧ (x + 1, y) ∈ cells seg ∧ (x + 2, y) ∈ cells seg) ∧
  (isInBounds x (y + 2) = true →
   colorAt b x y = Some c → colorAt b x (y + 1) = Some c → colorAt b x (y + 2) = Some c →
   ∃ seg, seg ∈ findMatchSegments b ∧ dir seg = DirV ∧ seg_color seg = c ∧
          (x, y) ∈ cells seg ∧ (x, y + 1) ∈ cells seg ∧ (x, y + 2) ∈ cells seg).
Proof.
  intros [Hx Hy]%isInBounds_spec.
  destruct (findMatchSegments_covers b) as [Hh Hv]. split.
  - intros [Hx2 _]%isInBounds_spec H0 H1 H2.
    apply (Hh x y c); [done|lia|lia|by repeat split].
  - intros [_ Hy2]%isInBounds_spec H0 H1 H2.
    apply (Hv x y c); [done|lia|lia|by repeat split].
Qed.

Lemma every_triple_is_in_a_reported_run_witness :
  ∃ seg, seg ∈ findMatchSegments loopBase ∧ dir seg = DirV ∧ seg_color seg = 0%nat ∧
         (0, 0) ∈ cells seg ∧ (0, 0 + 1) ∈ cells seg ∧ (0, 0 + 2) ∈ cells seg.
Proof.
  destruct (every_triple_is_in_a_reported_run loopBase 0 0 0%nat) as [_ Hv];
    [reflexivity|].
  apply Hv; reflexivity.
Defined.

(** X17.  The detector reports no run exactly when no three cells of the
    grid that follow each other in a row or in a column hold pieces of
    one color. *)
Theorem no_run_reported_iff_no_triple b :
  findMatchSegments b = [] ↔ noTripleInGrid b.
Proof.
  split.
  - intros Hnil k j c Hk Hj Hlt.
    destruct (findMatchSegments_covers b) as [Hh Hv]. rewrite Hnil in Hh, Hv. split.
    + intros Ht. destruct (Hh j k c Hk Hj Hlt Ht) as (seg & Hseg & _).
      by apply elem_of_nil in Hseg.
    + intros Ht. destruct (Hv k j c Hk Hj Hlt Ht) as (seg & Hseg & _).
      by apply elem_of_nil in Hseg.
  - intros Hno. destruct (findMatchSegments b) as [|seg segs] eqn:Hsegs; [done|].
    exfalso.
    assert (seg ∈ findMatchSegments b) as Hseg by (rewrite Hsegs; left).
    destruct (segment_is_run b seg Hseg)
      as [(k & s & len & c & Hk & Hs & Hlen & Hb & _ & Hc)
         |(k & s & len & c & Hk & Hs & Hlen & Hb & _ & Hc)].
    + destruct (Hno k s c Hk Hs ltac:(lia)) as [Hn _]. apply Hn.
      repeat split; apply Hc; lia.
    + destruct (Hno k s c Hk Hs ltac:(lia)) as [_ Hn]. apply Hn.
      repeat split; apply Hc; lia.
Qed.

(** ** What an activation clears *)

Lemma detonateArea_blastOf p origin target :
  detonateArea p origin target = blastOf p origin target ++ [origin].
Proof. unfold detonateArea, blastOf. by destruct (kind p), target. Qed.

(** X18.  What an activation clears.  When [detonateSpecial] passes its
    guards, the clear it commits empties the cell of the activated piece
    and the in-bounds cells of its blast area (for a Bomb the 13-cell disc
    around its own cell; for a Rocket the plus shape around the target
    cell, or around its own cell when it has no target), and leaves every
    other cell of the board as it was.  The game is busy afterwards, and
    the rocket or bomb sound has been played. *)
Theorem activation_clears_blast_and_origin g g' :
  detonateClear g = Some g' →
  ∃ origin p,
    specialOrigin g = Some origin ∧ getAt (board g) origin = Some p ∧
    kind p ≠ NORMAL ∧ isBusy g = false ∧
    (∀ c, getAt (board g') c =
          if bool_decide (inBoundsCell c = true ∧
                          (c = origin ∨ c ∈ blastOf p origin (specialTarget g)))
          then None else getAt (board g) c) ∧
    shapeOf (board g') = shapeOf (board g) ∧
    isBusy g' = true ∧ nextId g' = nextId g ∧ draws g' = draws g ∧
    sounds g' = sounds g ++ [if bool_decide (kind p = ROCKET) then SfxRocket else SfxBomb].
Proof.
  unfold detonateClear. destruct (isBusy g) eqn:Hbusy; [done|].
  destruct (specialOrigin g) as [origin|] eqn:Ho; [|done].
  destruct (getAt (board g) origin) as [p|] eqn:Hp; [|done].
  case_bool_decide as Hk; [done|]. intros [= <-].
  exists origin, p. split; [done|]. split; [done|]. split; [done|]. split; [done|].
  cbn [board specialTarget withBusy playSfx setHint withHint withBoard].
  set (wc := willClearOf (board g) (detonateArea p origin (specialTarget g))).
  set (g4 := withBoard _ _).
  assert (board g4 = applyClear wc (board g)) as Hb4 by done.
  assert (isBusy g4 = true ∧ nextId g4 = nextId g ∧ draws g4 = draws g ∧
          sounds g4 = sounds g ++ [if bool_decide (kind p = ROCKET)
                                   then SfxRocket else SfxBomb]) as Hst4 by done.
  assert (∀ g5, board g5 = board g4 →
                (∀ c, getAt (board g5) c =
                      if bool_decide (inBoundsCell c = true ∧
                                      (c = origin ∨ c ∈ blastOf p origin (specialTarget g)))
                      then None else getAt (board g) c) ∧
                shapeOf (board g5) = shapeOf (board g)) as Hboard.
  { intros g5 ->. rewrite Hb4. unfold wc. split; [|apply shapeOf_applyClear].
    intros c. rewrite getAt_applyClear_willClearOf, detonateArea_blastOf.
    apply (f_equal (λ b : bool, if b then None else getAt (board g) c)).
    apply bool_decide_ext. rewrite elem_of_app, list_elem_of_singleton. tauto. }
  destruct (bool_decide (0 < length wc)%nat).
  - destruct (Hboard (addScore (Z.of_nat (length wc)) g4) (board_addScore _ _)) as [H1 H2].
    split; [done|]. split; [done|].
    unfold addScore. destruct (_ <=? 0); [done|]. unfold setScore.
    cbn [isBusy nextId draws sounds withScore]. done.
  - destruct (Hboard g4 eq_refl) as [H1 H2]. done.
Qed.

Lemma activation_clears_blast_and_origin_witness :
  ∃ g' origin p,
    detonateClear bombGame = Some g' ∧
    specialOrigin bombGame = Some origin ∧ getAt (board bombGame) origin = Some p ∧
    getAt (board g') (3, 5) = None ∧
    getAt (board g') (4, 5) = getAt (board bombGame) (4, 5).
Proof.
  destruct (detonateClear bombGame) as [g'|] eqn:Hd; [|vm_compute in Hd; discriminate Hd].
  destruct (activation_clears_blast_and_origin bombGame g' Hd)
    as (origin & p & Ho & Hp & _ & _ & Hcells & _).
  exists g', origin, p. split; [done|]. split; [done|]. split; [done|].
  injection Ho as <-. injection Hp as <-. split.
  - rewrite (Hcells (3, 5)). reflexivity.
  - rewrite (Hcells (4, 5)). reflexivity.
Defined.

(** ** Piece colors *)

Lemma validColors_applyClear b keys :
  validColors b → validColors (applyClear (willClearOf b keys) b).
Proof.
  intros Hv c p. rewrite getAt_applyClear_willClearOf.
  case_bool_decide; [done|]. apply Hv.
Qed.

Lemma validColors_swapCells b a c :
  inRange b a.1 a.2 → inRange b c.1 c.2 →
  validColors b → validColors (swapCells a c b).
Proof.
  intros Ha Hc Hv k p. rewrite getAt_swapCells by done.
  repeat destruct (decide _); apply Hv.
Qed.

Lemma validColors_applyCreations crs g :
  NoDup (cr_cell <$> crs) →
  (∀ cr, cr ∈ crs → inBoundsCell (cr_cell cr) = true) →
  shapeOf (board g) = shapeOf emptyBoard →
  (∀ cr, cr ∈ crs → (cr_color cr < COLORS_length)%nat) →
  validColors (board g) → validColors (board (applyCreations crs g)).
Proof.
  intros Hnd Hin Hs Hcol Hv c p Hp.
  destruct (applyCreations_spec crs g Hnd Hin Hs) as (_ & Hat & Hother).
  destruct (decide (c ∈ cr_cell <$> crs)) as [Hc|Hc].
  - apply list_elem_of_fmap in Hc as (cr & -> & Hcr).
    pose proof Hcr as [i Hi]%list_elem_of_lookup.
    rewrite (Hat i cr Hi) in Hp. injection Hp as <-. cbn [color]. by apply Hcol.
  - rewrite Hother in Hp by done. by eapply Hv.
Qed.

Section Colors.

Variable rand : nat → nat.

Lemma validColors_collapse g :
  validColors (board g) → validColors (board (collapseAndFillAnimated rand g)).
Proof.
  intros Hv [x y] p Hp.
  destruct (collapse_exact rand g) as (Hsh & _ & _ & _ & Hcol).
  assert (isInBounds x y = true) as Hb.
  { apply getCell_Some_inRange in Hp. by eapply inRange_emptyShape. }
  pose proof Hb as [Hx Hy]%isInBounds_spec.
  destruct (Hcol x Hx) as [_ Hnew].
  destruct (collapse_cell rand g x y p Hb Hp) as [(j & Hj & -> & _)|(i & _ & Hi)].
  - unfold getAt in Hp. cbn [fst snd] in Hp. rewrite (Hnew j Hj) in Hp.
    injection Hp as <-.
    by apply (Nat.mod_upper_bound (rand (draws g + newBefore (board g) x + j)) COLORS_length).
  - apply list_elem_of_lookup_2, elem_of_survivors in Hi as (y0 & _ & Hy0).
    by apply (Hv (x, y0)).
Qed.

Lemma validColors_afterPass prefs g r :
  shapeOf (board g) = shapeOf emptyBoard → validColors (board g) →
  validColors (board (afterPass rand g (willClearOf (board g) r)
                        (computeSpecialCreations (board g) (findMatchSegments (board g))
                                                 prefs))).
Proof.
  intros Hs Hv. unfold afterPass. apply validColors_collapse.
  destruct (computeSpecialCreations_inv (board g) (findMatchSegments (board g)) prefs)
    as (Hnd & _).
  apply validColors_applyCreations; [done| | | |].
  - intros cr Hcr. by apply (creation_inBounds (board g) prefs).
  - rewrite board_addScore. cbn [board withBoard playSfx]. by rewrite shapeOf_applyClear.
  - intros cr Hcr.
    destruct (creation_inBounds (board g) prefs cr Hcr) as (_ & p & Hp & <-). by eapply Hv.
  - rewrite board_addScore. cbn [board withBoard playSfx]. by apply validColors_applyClear.
Qed.

Lemma resolve_validColors fuel prefs g g' :
  shapeOf (board g) = shapeOf emptyBoard → validColors (board g) →
  resolveMatchesAnimated rand fuel prefs g = Some g' → validColors (board g').
Proof.
  revert prefs g. induction fuel as [|fuel IH]; intros prefs g Hs Hv; [done|].
  cbn [resolveMatchesAnimated].
  destruct (resolvePass rand prefs g) as [[g1|g1]|] eqn:Hp; [| |done].
  - destruct (resolvePass_cases rand prefs g) as [[_ Hq]|(_ & ? & ? & _ & _ & Hq)];
      rewrite Hq in Hp; [|done]. injection Hp as <-. by intros [= <-].
  - apply resolvePass_again in Hp as [r ->]. apply IH.
    + apply afterPass_full.
    + by apply validColors_afterPass.
Qed.

Lemma resting_validColors g : resting rand g → validColors (board g).
Proof.
  induction 1 as [g|g fuel o t g' Hrest IH Hs|g o t _ IH|g _ IH
                  |g fuel g' Hrest IH Hd|g v _ IH].
  - rewrite board_newGame. destruct (makeBoard_spec rand g) as (Hsh & Hcell & _).
    intros c p Hp. pose proof Hp as Hb.
    apply getCell_Some_inRange in Hb. apply (inRange_emptyShape _ _ _ Hsh) in Hb.
    destruct (Hcell _ _ Hb) as (k & Hk & Hget).
    unfold getAt in Hp. rewrite Hget in Hp. by injection Hp as <-.
  - destruct (resting_sound rand g Hrest) as (Hshape & _).
    unfold attemptSwap in Hs.
    destruct (isBusy g); [by injection Hs as <-|].
    destruct (negb (inBoundsCell o) || negb (inBoundsCell t)); [by injection Hs as <-|].
    destruct (negb (manhattan o t =? 1)); [by injection Hs as <-|].
    destruct (getAt (board g) o) as [a|] eqn:Ha; [|by injection Hs as <-].
    destruct (getAt (board g) t) as [c|] eqn:Hc; [|by injection Hs as <-].
    cbn zeta in Hs.
    assert (inRange (board g) o.1 o.2) as Hro by (by eapply getCell_Some_inRange).
    assert (inRange (board g) t.1 t.2) as Hrt by (by eapply getCell_Some_inRange).
    case_bool_decide as Hseg.
    + injection Hs as <-. cbn [board playSfx withBoard withBusy setHint withHint].
      by rewrite swapCells_involutive.
    + destruct (resolveMatchesAnimated rand fuel _ _) as [g5|] eqn:Hr; [|done].
      injection Hs as <-. cbn [board withBusy].
      apply resolve_validColors in Hr; [done| |].
      * cbn [board playSfx withBoard withBusy setHint withHint].
        by rewrite shapeOf_swapCells.
      * cbn [board playSfx withBoard withBusy setHint withHint].
        by apply validColors_swapCells.
  - done.
  - done.
  - unfold detonateSpecial in Hd.
    destruct (detonateClear g) as [g5|] eqn:Hc; [|by injection Hd as <-].
    destruct (resolveMatchesAnimated rand fuel _ _) as [g7|] eqn:Hr; [|done].
    injection Hd as <-. cbn [board withBusy].
    apply detonateClear_board in Hc as (_ & keys & Hb).
    destruct (collapseAndFillAnimated_full rand g5) as [Hsh6 _].
    apply (resolve_validColors _ _ _ _ Hsh6) in Hr; [done|].
    apply validColors_collapse. rewrite Hb. by apply validColors_applyClear.
  - done.
Qed.

End Colors.

(** X19.  In every resting state every piece on the board has one of the
    six colors: its color is an index into [COLORS].  New pieces get
    [randInt(6)], and a special piece gets the color of the run it is
    made from. *)
Theorem resting_colors_are_valid rand g c p :
  resting rand g → getAt (board g) c = Some p → (color p < COLORS_length)%nat.
Proof. intros Hr Hp. by apply (resting_validColors rand g Hr c p). Qed.

Lemma resting_colors_are_valid_witness :
  ∃ p, getAt (board (newGame countRand (gameOf quietBoard))) (0, 0) = Some p ∧
       (color p < COLORS_length)%nat.
Proof.
  eexists. split; [vm_compute; reflexivity|].
  apply (resting_colors_are_valid countRand (newGame countRand (gameOf quietBoard)) (0, 0)).
  - apply resting_newGame.
  - vm_compute. reflexivity.
Defined.

(** ** The chain expansion computes what the chain reaction reaches *)

Section Reach.

Variable b : Board.
Variable prot : list Cell.
Variable clear0 : list Cell.

Lemma blast_fold_reached k area st :
  reached b prot clear0 k → k ∉ prot → inBoundsCell k = true →
  (∀ c, c ∈ area → c ∈ blastAt b k) →
  (∀ c, c ∈ st.1 → reached b prot clear0 c) →
  ∀ c, c ∈ (fold_left (blastStep prot) area st).1 → reached b prot clear0 c.
Proof.
  intros Hk Hkp Hkin. revert st.
  induction area as [|a area IH]; intros st Harea Hst; [done|].
  cbn [fold_left]. apply IH; [intros c Hc; apply Harea; by right|].
  destruct st as [clear changed]. unfold blastStep.
  destruct (inBoundsCell a) eqn:Ha; cbn [negb]; [|done].
  destruct (hasKey prot a) eqn:Hp; [done|].
  destruct (hasKey clear a) eqn:Hc; [done|].
  cbn [fst] in *. intros c [Hin| ->%list_elem_of_singleton]%elem_of_app; [by apply Hst|].
  apply (reached_blast b prot clear0 k); [done..|apply Harea; left|done|].
  by apply hasKey_false.
Qed.

Lemma explodeStep_reached st k :
  reached b prot clear0 k →
  (∀ c, c ∈ st.1 → reached b prot clear0 c) →
  ∀ c, c ∈ (explodeStep b prot st k).1 → reached b prot clear0 c.
Proof.
  intros Hk Hst. destruct (hasKey prot k) eqn:Hp.
  { unfold explodeStep. by rewrite Hp. }
  destruct (inBoundsCell k) eqn:Hin.
  2: { unfold explodeStep. by rewrite Hp, Hin. }
  destruct (getAt b k) as [p|] eqn:Hget.
  2: { unfold explodeStep. by rewrite Hp, Hin, Hget. }
  rewrite (explodeStep_special b prot st k p Hp Hin Hget).
  apply hasKey_false in Hp.
  assert (blastAt b k = match kind p with
                        | NORMAL => []
                        | ROCKET => rocketArea k
                        | BOMB => bombArea k
                        end) as Hblast by (unfold blastAt; by rewrite Hget).
  destruct (kind p); [done| |];
    apply (blast_fold_reached k); try done; intros c Hc; by rewrite Hblast.
Qed.

Lemma sweep_reached clear :
  (∀ c, c ∈ clear → reached b prot clear0 c) →
  ∀ c, c ∈ (sweep b prot clear).1 → reached b prot clear0 c.
Proof.
  intros Hclear. unfold sweep.
  assert (∀ l st, (∀ k, k ∈ l → reached b prot clear0 k) →
                  (∀ c, c ∈ st.1 → reached b prot clear0 c) →
                  ∀ c, c ∈ (fold_left (explodeStep b prot) l st).1 →
                       reached b prot clear0 c) as Hfold.
  { induction l as [|k l IH]; intros st Hl Hst; [done|]. cbn [fold_left].
    apply IH; [intros k' Hk'; apply Hl; by right|].
    apply explodeStep_reached; [apply Hl; left|done]. }
  by apply Hfold.
Qed.

Lemma expandLoop_reached fuel clear r :
  (∀ c, c ∈ clear → reached b prot clear0 c) →
  expandLoop fuel b prot clear = Some r →
  ∀ c, c ∈ r → reached b prot clear0 c.
Proof.
  revert clear. induction fuel as [|fuel IH]; intros clear Hclear; [done|].
  cbn [expandLoop]. pose proof (sweep_reached clear Hclear) as Hs.
  destruct (sweep b prot clear) as [clear' [|]]; cbn [fst] in Hs.
  - by apply IH.
  - by intros [= <-].
Qed.

End Reach.

(** X20.  The set the chain expander returns is exactly the set of cells
    the chain reaction reaches: the cells of the initial clear set, and
    every unprotected cell of the grid that lies in the blast area of a
    Rocket or Bomb standing on an unprotected cell of the grid that is
    itself reached.  Nothing else is added, and nothing reachable is
    left out. *)
Theorem chain_expansion_is_reachability b clearKeys protectedKeys r :
  expandWithSpecialExplosions b clearKeys protectedKeys = Some r →
  ∀ c, c ∈ r ↔ reached b protectedKeys clearKeys c.
Proof.
  intros Hr c. split.
  - unfold expandWithSpecialExplosions in Hr.
    eapply expandLoop_reached; [|exact Hr].
    intros k Hk. by apply reached_start.
  - unfold expandWithSpecialExplosions in Hr.
    destruct (expandLoop_Some b protectedKeys _ _ _ Hr) as (Hfix & added & -> & _).
    induction 1 as [c Hc|k c _ IH Hkp Hkin Hc Hcin Hcp].
    + apply elem_of_app. by left.
    + unfold blastAt in Hc. destruct (getAt b k) as [p|] eqn:Hget; [|by apply elem_of_nil in Hc].
      by apply (sweep_fixed_closed b protectedKeys _ k p c Hfix).
Qed.

Lemma chain_expansion_is_reachability_witness :
  (4, 0) ∈ [(0, 0); (1, 0); (2, 0); (3, 0); (2, 1); (4, 0); (3, 1)]
  ↔ reached rocketsInRunBoard [] [(0, 0); (1, 0); (2, 0); (3, 0)] (4, 0).
Proof.
  apply (chain_expansion_is_reachability rocketsInRunBoard
           [(0, 0); (1, 0); (2, 0); (3, 0)] []).
  vm_compute. reflexivity.
Defined.

(** ** The trace of a cascade *)

Lemma trace_addScore d g :
  hint (addScore d g) = hint g ∧ sounds (addScore d g) = sounds g.
Proof. unfold addScore. by destruct (d <=? 0). Qed.

Section Trace.

Variable rand : nat → nat.

Lemma trace_afterPass g willClear creations :
  sounds (afterPass rand g willClear creations) = sounds g ++ [SfxMatch] ∧
  hint (afterPass rand g willClear creations) = hint g.
Proof.
  unfold afterPass.
  set (g2 := withBoard (playSfx SfxMatch g) (applyClear willClear (board (playSfx SfxMatch g)))).
  set (g3 := addScore (Z.of_nat (length willClear)) g2).
  destruct (collapse_exact rand (applyCreations creations g3))
    as (_ & (_ & _ & _ & _ & Hh & Hs) & _).
  destruct (status_applyCreations creations g3) as ((_ & _ & _ & _ & Hh' & Hs') & _).
  destruct (trace_addScore (Z.of_nat (length willClear)) g2) as (Hh2 & Hs2).
  fold g3 in Hh2, Hs2. rewrite Hh, Hs, Hh', Hs', Hh2, Hs2. done.
Qed.

Lemma sounds_resolve fuel prefs g g' :
  resolveMatchesAnimated rand fuel prefs g = Some g' →
  ∃ n : nat, sounds g' = sounds g ++ replicate n SfxMatch.
Proof.
  revert prefs g. induction fuel as [|fuel IH]; intros prefs g; [done|].
  cbn [resolveMatchesAnimated].
  destruct (resolvePass_cases rand prefs g) as [[Hq ->]|(_ & keys & crs & _ & _ & ->)].
  - intros [= <-]. exists 0%nat. cbn [replicate]. by rewrite app_nil_r.
  - intros Hr. destruct (IH _ _ Hr) as (n & Hs).
    destruct (trace_afterPass g (willClearOf (board g) keys) crs) as (Hsnd & _).
    exists (S n). rewrite Hs, Hsnd, <- app_assoc. done.
Qed.

Lemma detonateClear_trace g g5 :
  detonateClear g = Some g5 →
  ∃ origin p,
    specialOrigin g = Some origin ∧ getAt (board g) origin = Some p ∧
    kind p ≠ NORMAL ∧ isBusy g = false ∧
    sounds g5 = sounds g ++ [if bool_decide (kind p = ROCKET) then SfxRocket else SfxBomb].
Proof.
  unfold detonateClear. destruct (isBusy g) eqn:Hbusy; [done|].
  destruct (specialOrigin g) as [origin|] eqn:Ho; [|done].
  destruct (getAt (board g) origin) as [p|] eqn:Hp; [|done].
  case_bool_decide as Hk; [done|]. intros [= <-].
  exists origin, p. split; [done|]. split; [done|]. split; [done|]. split; [done|].
  destruct (bool_decide (0 < length _)%nat); [|done].
  match goal with |- sounds (addScore ?d ?g0) = _ =>
    destruct (trace_addScore d g0) as [_ ->] end.
  done.
Qed.

End Trace.

(** X21.  The trace of a cascade.  When the cascade loop returns, it has
    made some number [n] of passes that cleared pieces, and: it played
    the match sound [n] times and no other sound; [n] is 0 exactly when
    the board it started on had no run, and then the state is untouched;
    the score grew by at least [n] (each pass clears at least one
    piece); the hint and the busy flag are as before. *)
Theorem cascade_trace rand fuel prefs g g' :
  0 ≤ score g → resolveMatchesAnimated rand fuel prefs g = Some g' →
  ∃ n : nat,
    sounds g' = sounds g ++ replicate n SfxMatch ∧
    (n = 0%nat ↔ findMatchSegments (board g) = []) ∧
    (n = 0%nat → g' = g) ∧
    score g + Z.of_nat n ≤ score g' ∧
    hint g' = hint g ∧ isBusy g' = isBusy g.
Proof.
  revert prefs g. induction fuel as [|fuel IH]; intros prefs g Hs; [done|].
  cbn [resolveMatchesAnimated].
  destruct (resolvePass_cases rand prefs g)
    as [[Hq ->]|(Hne & keys & crs & _ & Hlen & ->)].
  - intros [= <-]. exists 0%nat. cbn [replicate]. rewrite app_nil_r.
    split; [done|]. split; [done|]. split; [done|]. split; [lia|done].
  - intros Hr.
    destruct (status_afterPass rand g (willClearOf (board g) keys) crs Hs)
      as (Hsc & Hb & _).
    destruct (trace_afterPass rand g (willClearOf (board g) keys) crs) as (Hsnd & Hh).
    apply IH in Hr as (n & Hsnd' & _ & _ & Hsc' & Hh' & Hb'); [|lia].
    exists (S n). split; [|split; [|split; [|split; [lia|split; congruence]]]].
    + rewrite Hsnd', Hsnd, <- app_assoc. done.
    + split; [lia|done].
    + lia.
Qed.

Lemma cascade_trace_witness :
  ∃ g' n, resolveMatchesAnimated countRand 5 None
            (gameOf (swapCells (2, 1) (2, 0) swapBoard)) = Some g' ∧
          sounds g' = [] ++ replicate n SfxMatch ∧ 0 + Z.of_nat n ≤ score g'.
Proof.
  destruct (resolveMatchesAnimated countRand 5 None
              (gameOf (swapCells (2, 1) (2, 0) swapBoard))) as [g'|] eqn:Hr;
    [|vm_compute in Hr; discriminate Hr].
  destruct (cascade_trace countRand 5 None
              (gameOf (swapCells (2, 1) (2, 0) swapBoard)) g')
    as (n & Hs & _ & _ & Hsc & _); [cbn [score gameOf]; lia|exact Hr|].
  exists g', n. exact (conj eq_refl (conj Hs Hsc)).
Defined.

(** X22.  Requests that fail the guards change nothing, all others are
    heard.  A swap attempt that runs to its end leaves the state exactly
    as it was if and only if the game was busy, a cell is outside the
    grid, the cells are not neighbours, or one of them is empty; in every
    other case the swap sound is the first sound it adds.  An activation
    that runs to its end leaves the state as it was if and only if the
    game was busy, no cell is selected, the selected cell is empty or its
    piece is Normal. *)
Theorem rejected_requests_change_nothing rand fuel g g' :
  (∀ origin target,
     attemptSwap rand fuel origin target g = Some g' →
     (g' = g ↔
      isBusy g = true ∨ inBoundsCell origin = false ∨ inBoundsCell target = false ∨
      manhattan origin target ≠ 1 ∨
      getAt (board g) origin = None ∨ getAt (board g) target = None) ∧
     (g' ≠ g → ∃ rest, sounds g' = sounds g ++ SfxSwap :: rest)) ∧
  (detonateSpecial rand fuel g = Some g' →
   (g' = g ↔
    isBusy g = true ∨ specialOrigin g = None ∨
    ∃ origin, specialOrigin g = Some origin ∧
      match getAt (board g) origin with
      | Some p => kind p = NORMAL
      | None => True
      end)).
Proof.
  assert (∀ (g1 g2 : Game) s rest, sounds g2 = sounds g1 ++ s :: rest → g2 ≠ g1) as Hneq.
  { intros g1 g2 s rest Hs Heq. subst g2. apply (f_equal length) in Hs.
    rewrite length_app in Hs. cbn [length] in Hs. lia. }
  split.
  - intros origin target Hswap. unfold attemptSwap in Hswap.
    destruct (isBusy g) eqn:Hbusy.
    { injection Hswap as <-. split; [split; [by left|done]|done]. }
    destruct (inBoundsCell origin) eqn:Ho; cbn [negb orb] in Hswap.
    2: { injection Hswap as <-. split; [split; [right; by left|done]|done]. }
    destruct (inBoundsCell target) eqn:Ht; cbn [negb] in Hswap.
    2: { injection Hswap as <-. split; [split; [right; right; by left|done]|done]. }
    destruct (Z.eqb_spec (manhattan origin target) 1) as [Hm|Hm]; cbn [negb] in Hswap.
    2: { injection Hswap as <-. split; [split; [do 3 right; by left|done]|done]. }
    destruct (getAt (board g) origin) as [a|] eqn:Ha.
    2: { injection Hswap as <-. split; [split; [do 4 right; by left|done]|done]. }
    destruct (getAt (board g) target) as [c|] eqn:Hc.
    2: { injection Hswap as <-. split; [split; [do 5 right; done|done]|done]. }
    cbn zeta in Hswap.
    assert (∃ rest, sounds g' = sounds g ++ SfxSwap :: rest) as [rest Hrest].
    { destruct (bool_decide (length (findMatchSegments _) = 0%nat)).
      - injection Hswap as <-. exists [SfxBad].
        cbn [sounds withBusy setHint withHint playSfx withBoard].
        by rewrite <- app_assoc.
      - destruct (resolveMatchesAnimated rand fuel _ _) as [g5|] eqn:Hr; [|done].
        injection Hswap as <-.
        apply sounds_resolve in Hr as (n & Hs).
        exists (replicate n SfxMatch).
        cbn [sounds withBusy setHint withHint playSfx withBoard] in *.
        by rewrite Hs, <- app_assoc. }
    split; [|by exists rest]. split.
    + intros Heq. by destruct (Hneq _ _ _ _ Hrest).
    + intros [?|[?|[?|[?|[?|?]]]]]; congruence.
  - intros Hdet. unfold detonateSpecial in Hdet.
    destruct (detonateClear g) as [g5|] eqn:Hc.
    + destruct (detonateClear_trace g g5 Hc)
        as (origin & p & Ho & Hp & Hk & Hbusy & Hsnd).
      destruct (resolveMatchesAnimated rand fuel _ _) as [g7|] eqn:Hr; [|done].
      injection Hdet as <-.
      destruct (collapse_exact rand g5) as (_ & (_ & _ & _ & _ & _ & Hsnd6) & _).
      apply sounds_resolve in Hr as (n & Hs).
      split.
      * intros Heq. exfalso. apply (Hneq g (withBusy g7 false)
          (if bool_decide (kind p = ROCKET) then SfxRocket else SfxBomb)
          (replicate n SfxMatch)); [|done].
        cbn [sounds withBusy]. by rewrite Hs, Hsnd6, Hsnd, <- app_assoc.
      * intros [?|[?|(o & Ho' & Hm)]]; [congruence..|].
        rewrite Ho in Ho'. injection Ho' as <-. rewrite Hp in Hm. done.
    + injection Hdet as <-. split; [|done]. intros _.
      unfold detonateClear in Hc.
      destruct (isBusy g); [by left|]. right.
      destruct (specialOrigin g) as [origin|]; [|by left]. right.
      exists origin. split; [done|].
      destruct (getAt (board g) origin) as [p|]; [|done].
      by case_bool_decide.
Qed.

Lemma rejected_requests_change_nothing_witness :
  ∃ g', attemptSwap countRand 5 (2, 1) (2, 0) (gameOf swapBoard) = Some g' ∧
        ∃ rest, sounds g' = sounds (gameOf swapBoard) ++ SfxSwap :: rest.
Proof.
  destruct (attemptSwap countRand 5 (2, 1) (2, 0) (gameOf swapBoard)) as [g'|] eqn:Hs;
    [|vm_compute in Hs; discriminate Hs].
  exists g'. split; [reflexivity|].
  destruct (rejected_requests_change_nothing countRand 5 (gameOf swapBoard) g')
    as [Hswap _].
  destruct (Hswap (2, 1) (2, 0) Hs) as [Hiff Hrest]. apply Hrest.
  intros Heq. apply Hiff in Heq.
  destruct Heq as [H|[H|[H|[H|[H|H]]]]]; try discriminate H.
  apply H. reflexivity.
Defined.

(** ** The collapse in place computes the same state *)

Lemma collect_fold bd x l acc :
  fold_left (collectStep bd x) l acc = acc ++ omap (λ y, getCell bd x y) l.
Proof.
  revert acc. induction l as [|y l IH]; intros acc; [by rewrite app_nil_r|].
  cbn [fold_left]. rewrite IH. unfold collectStep.
  change (omap (λ y, getCell bd x y) (y :: l))
    with (match getCell bd x y with
          | Some p => p :: omap (λ y, getCell bd x y) l
          | None => omap (λ y, getCell bd x y) l
          end).
  destruct (getCell bd x y); [by rewrite <- app_assoc|done].
Qed.

Lemma collect_spec bd x :
  fold_left (collectStep bd x) (reverse (seqZ 0 GRID)) [] = reverse (survivors bd x).
Proof. by rewrite collect_fold, app_nil_l, omap_reverse, survivors_omap. Qed.

Lemma write_fold x col :
  ∀ bd w, 0 ≤ x < GRID → shapeOf bd = shapeOf emptyBoard →
    Z.of_nat (length col) ≤ w + 1 ≤ GRID →
    ∃ bd', fold_left (writeStep x) col (bd, w) = (bd', w - Z.of_nat (length col)) ∧
           shapeOf bd' = shapeOf emptyBoard ∧
           (∀ (j : nat) p, col !! j = Some p → getCell bd' x (w - Z.of_nat j) = Some p) ∧
           (∀ x' y, x' ≠ x ∨ y ≤ w - Z.of_nat (length col) ∨ w < y →
                    getCell bd' x' y = getCell bd x' y).
Proof.
  induction col as [|p col IH]; intros bd w Hx Hs Hw.
  { exists bd. cbn [fold_left length]. rewrite Z.sub_0_r.
    split; [done|]. split; [done|]. split; [intros j q Hj; done|done]. }
  cbn [length] in Hw. cbn [fold_left writeStep].
  destruct (IH (setCell bd x w (Some p)) (w - 1) Hx) as (bd' & Hfold & Hs' & Hcol & Hother).
  { by rewrite shapeOf_setCell. }
  { lia. }
  exists bd'. split; [rewrite Hfold; f_equal; cbn [length]; lia|]. split; [done|]. split.
  - intros [|j] q Hj.
    + injection Hj as <-. rewrite Z.sub_0_r, Hother by lia.
      apply getCell_setCell_eq. apply shapeOf_emptyBoard_inRange; [done|].
      apply isInBounds_spec. unfold GRID in *. lia.
    + replace (w - Z.of_nat (S j)) with (w - 1 - Z.of_nat j) by lia. by apply Hcol.
  - intros x' y Hxy. cbn [length] in Hxy. rewrite Hother by lia.
    apply getCell_setCell_ne. intros ?; simplify_eq; lia.
Qed.

Section InPlaceProofs.

Variable rand : nat → nat.

Lemma fillInPlace_fold x w g :
  0 ≤ x < GRID → -1 ≤ w ≤ GRID - 1 → shapeOf (board g) = shapeOf emptyBoard →
  let g2 := fold_left (fillStepInPlace rand x) (reverse (seqZ 0 (w + 1))) g in
  shapeOf (board g2) = shapeOf emptyBoard ∧ sameStatus g g2 ∧
  nextId g2 = (nextId g + Z.to_nat (w + 1))%nat ∧
  draws g2 = (draws g + Z.to_nat (w + 1))%nat ∧
  (∀ j : nat, Z.of_nat j ≤ w →
     getCell (board g2) x (w - Z.of_nat j) = Some (refillPiece rand g j)) ∧
  (∀ x' y, x' ≠ x ∨ w < y → getCell (board g2) x' y = getCell (board g) x' y).
Proof.
  intros Hx Hw Hshape.
  pose (P := λ (g1 : Game) (pre : list Z),
    shapeOf (board g1) = shapeOf emptyBoard ∧ sameStatus g g1 ∧
    nextId g1 = (nextId g + length pre)%nat ∧
    draws g1 = (draws g + length pre)%nat ∧
    (∀ j : nat, (j < length pre)%nat →
       getCell (board g1) x (w - Z.of_nat j) = Some (refillPiece rand g j)) ∧
    (∀ x' y, x' ≠ x ∨ y ≤ w - Z.of_nat (length pre) ∨ w < y →
       getCell (board g1) x' y = getCell (board g) x' y)).
  assert (P (fold_left (fillStepInPlace rand x) (reverse (seqZ 0 (w + 1))) g)
            (reverse (seqZ 0 (w + 1)))) as HP.
  { apply fold_left_inv.
    - unfold P. cbn [length]. split; [done|]. split; [apply sameStatus_refl|].
      split; [lia|]. split; [lia|]. split; [intros; lia|done].
    - intros g1 pre y suf Hl (Hsh & Hst & Hid & Hdr & Hnew & Hother).
      assert (Z.of_nat (length pre) < w + 1 ∧ y = w - Z.of_nat (length pre)) as [Hpre Hy].
      { pose proof (fold_prefix_index _ _ _ _ Hl) as Hlk.
        pose proof (lookup_lt_Some _ _ _ Hlk) as Hlt.
        rewrite length_reverse, length_seqZ in Hlt.
        rewrite lookup_reverse_seqZ in Hlk by lia. injection Hlk as <-. lia. }
      destruct Hst as (? & ? & ? & ? & ? & ?).
      unfold P, fillStepInPlace, randInt, makePiece, sameStatus.
      cbn [board score isBusy nextId draws specialOrigin specialTarget hint sounds
           withBoard].
      rewrite length_app. cbn [length].
      split; [by rewrite shapeOf_setCell|]. split; [done|].
      split; [lia|]. split; [lia|]. split.
      + intros j Hj. destruct (decide (j = length pre)) as [->|Hne].
        * rewrite <- Hy, getCell_setCell_eq.
          -- unfold refillPiece. by rewrite Hid, Hdr.
          -- apply shapeOf_emptyBoard_inRange; [done|].
             apply isInBounds_spec. unfold GRID in *. lia.
        * rewrite getCell_setCell_ne by (intros ?; simplify_eq; lia). apply Hnew. lia.
      + intros x' y' Hxy. rewrite getCell_setCell_ne by (intros ?; simplify_eq; lia).
        apply Hother. lia. }
  cbn zeta. unfold P in HP. rewrite length_reverse, length_seqZ in HP.
  destruct HP as (Hsh & Hst & Hid & Hdr & Hnew & Hother).
  do 4 (split; [done|]). split.
  - intros j Hj. apply Hnew. lia.
  - intros x' y Hxy. apply Hother. lia.
Qed.

Lemma collapseColumnInPlace_spec g x :
  0 ≤ x < GRID → shapeOf (board g) = shapeOf emptyBoard →
  let g2 := collapseColumnInPlace rand g x in
  shapeOf (board g2) = shapeOf emptyBoard ∧ sameStatus g g2 ∧
  nextId g2 = (nextId g + newInColumn (board g) x)%nat ∧
  draws g2 = (draws g + newInColumn (board g) x)%nat ∧
  (∀ (i : nat) p, survivors (board g) x !! i = Some p →
     getCell (board g2) x (Z.of_nat (newInColumn (board g) x) + Z.of_nat i) = Some p) ∧
  (∀ j : nat, (j < newInColumn (board g) x)%nat →
     getCell (board g2) x (Z.of_nat (newInColumn (board g) x) - 1 - Z.of_nat j)
       = Some (refillPiece rand g j)) ∧
  (∀ x' y, x' ≠ x → getCell (board g2) x' y = getCell (board g) x' y).
Proof.
  intros Hx Hshape. unfold collapseColumnInPlace. rewrite collect_spec.
  pose proof (length_survivors (board g) x) as Hk.
  assert (Z.of_nat (newInColumn (board g) x)
          = GRID - Z.of_nat (length (survivors (board g) x))) as Hm
    by (unfold newInColumn, GRID; lia).
  destruct (write_fold x (reverse (survivors (board g) x)) (board g) (GRID - 1) Hx Hshape)
    as (bd1 & -> & Hs1 & Hcol & Hother1).
  { rewrite length_reverse. unfold GRID. lia. }
  rewrite length_reverse in *.
  destruct (fillInPlace_fold x (GRID - 1 - Z.of_nat (length (survivors (board g) x)))
              (withBoard g bd1) Hx) as (Hs2 & Hst & Hid & Hdr & Hnew & Hother2).
  { unfold GRID. lia. }
  { done. }
  cbn zeta in *. split; [done|]. split; [done|].
  split; [rewrite Hid; cbn [nextId withBoard]; unfold newInColumn, GRID; lia|].
  split; [rewrite Hdr; cbn [draws withBoard]; unfold newInColumn, GRID; lia|].
  split; [|split].
  - intros i p Hi. pose proof (lookup_lt_Some _ _ _ Hi) as Hlt.
    rewrite Hother2 by lia. cbn [board withBoard]. rewrite Hm.
    replace (GRID - Z.of_nat (length (survivors (board g) x)) + Z.of_nat i)
      with (GRID - 1 - Z.of_nat (length (survivors (board g) x) - S i)) by lia.
    apply Hcol. rewrite reverse_lookup by lia.
    replace (length (survivors (board g) x)
             - S (length (survivors (board g) x) - S i))%nat with i by lia.
    done.
  - intros j Hj. rewrite Hm.
    replace (GRID - Z.of_nat (length (survivors (board g) x)) - 1 - Z.of_nat j)
      with (GRID - 1 - Z.of_nat (length (survivors (board g) x)) - Z.of_nat j) by lia.
    rewrite Hnew by lia. done.
  - intros x' y Hx'. rewrite Hother2 by (by left). cbn [board withBoard].
    apply Hother1. by left.
Qed.

Lemma survivors_ext b b' x :
  (∀ y, getCell b' x y = getCell b x y) → survivors b' x = survivors b x.
Proof.
  intros Hext. unfold survivors, column. f_equal.
  apply list_fmap_ext. intros i y _. apply Hext.
Qed.

Lemma collapseAndFill_exact g :
  shapeOf (board g) = shapeOf emptyBoard →
  let g' := collapseAndFill rand g in
  shapeOf (board g') = shapeOf emptyBoard ∧ sameStatus g g' ∧
  nextId g' = (nextId g + newBefore (board g) GRID)%nat ∧
  draws g' = (draws g + newBefore (board g) GRID)%nat ∧
  ∀ x, 0 ≤ x < GRID →
    (∀ (i : nat) p, survivors (board g) x !! i = Some p →
       getCell (board g') x (Z.of_nat (newInColumn (board g) x) + Z.of_nat i) = Some p) ∧
    (∀ j : nat, (j < newInColumn (board g) x)%nat →
       getCell (board g') x (Z.of_nat (newInColumn (board g) x) - 1 - Z.of_nat j)
         = Some (mkPiece (nextId g + newBefore (board g) x + j)
                         (rand (draws g + newBefore (board g) x + j)%nat mod COLORS_length)
                         NORMAL)).
Proof.
  intros Hshape. unfold collapseAndFill.
  assert (∀ t : nat, (t ≤ 8)%nat →
    let gc := fold_left (collapseColumnInPlace rand) (seqZ 0 (Z.of_nat t)) g in
    shapeOf (board gc) = shapeOf emptyBoard ∧ sameStatus g gc ∧
    nextId gc = (nextId g + newBefore (board g) (Z.of_nat t))%nat ∧
    draws gc = (draws g + newBefore (board g) (Z.of_nat t))%nat ∧
    (∀ x y, ¬ (0 ≤ x < Z.of_nat t) → getCell (board gc) x y = getCell (board g) x y) ∧
    ∀ x, 0 ≤ x < Z.of_nat t →
      (∀ (i : nat) p, survivors (board g) x !! i = Some p →
         getCell (board gc) x (Z.of_nat (newInColumn (board g) x) + Z.of_nat i) = Some p) ∧
      (∀ j : nat, (j < newInColumn (board g) x)%nat →
         getCell (board gc) x (Z.of_nat (newInColumn (board g) x) - 1 - Z.of_nat j)
           = Some (mkPiece (nextId g + newBefore (board g) x + j)
                           (rand (draws g + newBefore (board g) x + j)%nat mod COLORS_length)
                           NORMAL))) as Hcols.
  { induction t as [|t IH]; intros Ht.
    - cbn [Z.of_nat seqZ fold_left]. cbn zeta. simpl.
      split; [done|]. split; [apply sameStatus_refl|].
      split; [unfold newBefore; simpl; lia|]. split; [unfold newBefore; simpl; lia|].
      split; [done|]. intros x Hx. lia.
    - destruct IH as (Hsh & Hst & Hid & Hdr & Hrest & Hcol); [lia|]. cbn zeta.
      rewrite seqZ_S, fold_left_app, Z.add_0_l. cbn [fold_left].
      set (gc := fold_left (collapseColumnInPlace rand) (seqZ 0 (Z.of_nat t)) g) in *.
      assert (survivors (board gc) (Z.of_nat t) = survivors (board g) (Z.of_nat t)) as Hsv.
      { apply survivors_ext. intros y. apply Hrest. lia. }
      assert (newInColumn (board gc) (Z.of_nat t) = newInColumn (board g) (Z.of_nat t))
        as Hnc by (unfold newInColumn; by rewrite Hsv).
      destruct (collapseColumnInPlace_spec gc (Z.of_nat t))
        as (Hsh2 & Hst2 & Hid2 & Hdr2 & Hsurv & Hnew & Hother);
        [unfold GRID; lia|done|].
      cbn zeta in *. rewrite Hsv, Hnc in *.
      split; [done|]. split; [by eapply sameStatus_trans|].
      rewrite newBefore_succ. split; [lia|]. split; [lia|]. split.
      + intros x y Hx. rewrite Hother by lia. apply Hrest. lia.
      + intros x Hx. destruct (decide (x = Z.of_nat t)) as [->|Hne].
        * split; [done|]. intros j Hj. rewrite Hnew by done.
          unfold refillPiece. by rewrite Hid, Hdr.
        * destruct (Hcol x) as [Hs Hn]; [lia|]. split.
          -- intros i p Hi. rewrite Hother by done. by apply Hs.
          -- intros j Hj. rewrite Hother by done. by apply Hn. }
  destruct (Hcols 8%nat) as (Hsh & Hst & Hid & Hdr & _ & Hcol); [lia|].
  change (Z.of_nat 8) with GRID in *. done.
Qed.

End InPlaceProofs.

(** X23.  The two collapses agree up to the colors they draw.  Let
    [collapseAndFill], which rewrites the board in place, get the results
    [rand1] for its calls of [randInt], and [collapseAndFillAnimated],
    which builds a new board, the results [rand2] for its own (it calls
    [Math.random] once more per new piece for the animation, so the two
    need not see the same results).  On a board of 8 rows of 8 cells both
    leave the same status and the same counters, having called [randInt]
    equally often; every cell of the grid holds the same surviving piece
    in both, or in both a new Normal piece of the same id whose color is
    the result of the same-numbered call of [randInt]; and when those
    results agree, the two end in the same state. *)
Theorem collapse_in_place_agrees rand1 rand2 g :
  shapeOf (board g) = shapeOf emptyBoard →
  let g1 := collapseAndFill rand1 g in
  let g2 := collapseAndFillAnimated rand2 g in
  shapeOf (board g1) = shapeOf (board g2) ∧ sameStatus g1 g2 ∧
  nextId g1 = nextId g2 ∧ draws g1 = draws g2 ∧
  (∀ x y, isInBounds x y = true →
     ∃ p1 p2,
       getCell (board g1) x y = Some p1 ∧ getCell (board g2) x y = Some p2 ∧
       id p1 = id p2 ∧ kind p1 = kind p2 ∧
       (p1 = p2 ∨
        ∃ d, (draws g ≤ d < draws g1)%nat ∧ (nextId g ≤ id p1)%nat ∧ kind p1 = NORMAL ∧
             color p1 = (rand1 d mod COLORS_length)%nat ∧
             color p2 = (rand2 d mod COLORS_length)%nat)) ∧
  ((∀ d, (draws g ≤ d < draws g1)%nat →
         (rand1 d mod COLORS_length = rand2 d mod COLORS_length)%nat) →
   g1 = g2).
Proof.
  intros Hshape g1 g2.
  destruct (collapseAndFill_exact rand1 g Hshape) as (Hsh1 & Hst1 & Hid1 & Hdr1 & Hcol1).
  destruct (collapse_exact rand2 g) as (Hsh2 & Hst2 & Hid2 & Hdr2 & Hcol2).
  fold g1 in Hsh1, Hst1, Hid1, Hdr1, Hcol1. fold g2 in Hsh2, Hst2, Hid2, Hdr2, Hcol2.
  assert (∀ x y, isInBounds x y = true →
    ∃ p1 p2,
      getCell (board g1) x y = Some p1 ∧ getCell (board g2) x y = Some p2 ∧
      id p1 = id p2 ∧ kind p1 = kind p2 ∧
      (p1 = p2 ∨
       ∃ d, (draws g ≤ d < draws g1)%nat ∧ (nextId g ≤ id p1)%nat ∧ kind p1 = NORMAL ∧
            color p1 = (rand1 d mod COLORS_length)%nat ∧
            color p2 = (rand2 d mod COLORS_length)%nat)) as Hcells.
  { intros x y [Hx Hy]%isInBounds_spec.
    destruct (Hcol1 x Hx) as [Hs1 Hn1]. destruct (Hcol2 x Hx) as [Hs2 Hn2].
    pose proof (length_survivors (board g) x) as Hlen.
    pose proof (newBefore_lt (board g) x GRID ltac:(lia)) as Htot.
    assert (Z.of_nat (newInColumn (board g) x)
            = 8 - Z.of_nat (length (survivors (board g) x))) as Hm
      by (unfold newInColumn, GRID; lia).
    unfold GRID in Hx, Hy.
    destruct (decide (y < Z.of_nat (newInColumn (board g) x))) as [Hlt|Hge].
    - specialize (Hn1 (Z.to_nat (Z.of_nat (newInColumn (board g) x) - 1 - y)) ltac:(lia)).
      specialize (Hn2 (Z.to_nat (Z.of_nat (newInColumn (board g) x) - 1 - y)) ltac:(lia)).
      replace (Z.of_nat (newInColumn (board g) x) - 1
               - Z.of_nat (Z.to_nat (Z.of_nat (newInColumn (board g) x) - 1 - y)))
        with y in Hn1, Hn2 by lia.
      eexists. eexists. split; [exact Hn1|]. split; [exact Hn2|].
      cbn [id kind color]. split; [done|]. split; [done|]. right.
      exists (draws g + newBefore (board g) x
              + Z.to_nat (Z.of_nat (newInColumn (board g) x) - 1 - y))%nat.
      split; [lia|]. split; [lia|]. done.
    - destruct (lookup_lt_is_Some_2 (survivors (board g) x)
                  (Z.to_nat (y - Z.of_nat (newInColumn (board g) x)))) as [q Hq]; [lia|].
      pose proof (Hs1 _ _ Hq) as H1. pose proof (Hs2 _ _ Hq) as H2.
      replace (Z.of_nat (newInColumn (board g) x)
               + Z.of_nat (Z.to_nat (y - Z.of_nat (newInColumn (board g) x))))
        with y in H1, H2 by lia.
      exists q, q. split; [done|]. split; [done|]. split; [done|]. split; [done|].
      by left. }
  assert (sameStatus g1 g2) as Hst.
  { destruct Hst1 as (? & ? & ? & ? & ? & ?). destruct Hst2 as (? & ? & ? & ? & ? & ?).
    repeat split; congruence. }
  split; [congruence|]. split; [done|]. split; [lia|]. split; [lia|]. split; [done|].
  intros Hagree.
  assert (board g1 = board g2) as Hboard.
  { apply board_ext; [congruence|]. intros x y.
    destruct (isInBounds x y) eqn:Hin; [|by rewrite !getCell_outside].
    destruct (Hcells x y Hin) as (p1 & p2 & -> & -> & Hi & Hk & [->|Hnew]); [done|].
    destruct Hnew as (d & Hd & _ & _ & Hc1 & Hc2). f_equal.
    specialize (Hagree d Hd).
    destruct p1 as [i1 c1 k1], p2 as [i2 c2 k2]. cbn [id color kind] in *. congruence. }
  clear Hcells Hcol1 Hcol2 Hsh1 Hsh2 Hst1 Hst2 Hagree.
  destruct Hst as (? & ? & ? & ? & ? & ?).
  assert (nextId g1 = nextId g2) as Hn by lia.
  assert (draws g1 = draws g2) as Hd by lia.
  clear Hid1 Hid2 Hdr1 Hdr2.
  destruct g1 as [b1 s1 u1 n1 d1 o1 t1 h1 sn1].
  destruct g2 as [b2 s2 u2 n2 d2 o2 t2 h2 sn2].
  cbn [board score isBusy nextId draws specialOrigin specialTarget hint sounds] in *.
  congruence.
Qed.

Lemma collapse_in_place_agrees_witness :
  nextId (collapseAndFill countRand (gameOf (setAt quietBoard (0, 3) None)))
  = nextId (collapseAndFillAnimated zeroRand (gameOf (setAt quietBoard (0, 3) None))).
Proof.
  destruct (collapse_in_place_agrees countRand zeroRand
              (gameOf (setAt quietBoard (0, 3) None))) as (_ & _ & Hn & _);
    [reflexivity|exact Hn].
Defined.
